(** * Radiance: output binding, preview adapter and the browser prototype

    A shallow embedding of these pieces of the compositor:

    - [OutputWindow] (src/OutputWindow.cpp): the window that binds an output
      to a physical screen, found by name and re-polled by a timer;
    - [Graph] (the browser prototype): the loop of [Graph.modelChanged]
      that turns the model's edge list into per-input upstream tables, and
      the tables, roots and input heights of [Graph.relayoutGraph];
    - [Flickable] (the browser prototype): the surface dragged by mouse or
      touch;
    - [Preview] (src/QQuickPreviewAdapter.cpp): the adapter that owns the
      preview chain, registers it with the model and renders snapshots.

    Qt objects are records, pointers are numbers, null is [None]; a call that
    dereferences a null or dangling pointer, or fails a [Q_ASSERT], yields
    [None].  Signals that are emitted are appended to a log. *)

From stdpp Require Import gmap strings list fin_maps.
From Stdlib Require Import QArith.

Open Scope Z_scope.

(* ===================================================================== *)
(** ** OutputWindow *)
(* ===================================================================== *)

Module OutputWindow.

(** [QRect]: position and size in integer pixels. *)
Record QRect := { rect_x : Z; rect_y : Z; rect_w : Z; rect_h : Z }.

(** A [QScreen] object.  [screen_ptr] is the address of the object: two
    screens with the same name and geometry are still two screens.
    [screen() != testScreen] compares addresses; the model compares the
    records, which is the same as long as an object is given with the same
    name and geometry wherever it occurs.  Where an object is given again
    with another geometry, the model takes it for another screen. *)
Record QScreen := {
  screen_ptr : nat;
  screen_name : string;
  screen_geometry : QRect
}.

#[global] Instance QRect_eq_dec : EqDecision QRect.
Proof. solve_decision. Defined.
#[global] Instance QScreen_eq_dec : EqDecision QScreen.
Proof. solve_decision. Defined.

(** The signals the class emits or reacts to. *)
Inductive Signal :=
  | screenChanged (s : QScreen)
  | screenNameChanged (n : string)
  | foundChanged (b : bool).

#[global] Instance Signal_eq_dec : EqDecision Signal.
Proof. solve_decision. Defined.

(** The slots that get connected in the constructor. *)
Inductive Slot := slot_onScreenChanged | slot_putOnScreen | slot_reload.

(** [m_reloader]: the interval in milliseconds, whether the timer runs,
    whether it fires once only (a fresh [QTimer] repeats), and the slots
    connected to [timeout]. *)
Record QTimer := {
  timer_interval : Z;
  timer_active : bool;
  timer_singleShot : bool;
  timer_timeout : list Slot
}.

Inductive WindowFlags := Qt_Window | Qt_Dialog.
Inductive WindowState := Qt_WindowNoState | Qt_WindowFullScreen.

(** The members of [OutputWindow] and the part of its [QWindow] base that the
    code reads and writes. *)
Record Window := {
  m_screenName : string;
  m_found : bool;
  m_reloader : QTimer;
  w_screen : option QScreen;      (* QWindow::screen() *)
  w_geometry : QRect;             (* QWindow::geometry() *)
  w_flags : WindowFlags;
  w_windowState : WindowState;
  emitted : list Signal           (* every signal emitted so far, oldest first *)
}.

Definition set_screenName (n : string) (w : Window) : Window :=
  {| m_screenName := n; m_found := m_found w; m_reloader := m_reloader w;
     w_screen := w_screen w; w_geometry := w_geometry w; w_flags := w_flags w;
     w_windowState := w_windowState w; emitted := emitted w |}.

Definition set_found (b : bool) (w : Window) : Window :=
  {| m_screenName := m_screenName w; m_found := b; m_reloader := m_reloader w;
     w_screen := w_screen w; w_geometry := w_geometry w; w_flags := w_flags w;
     w_windowState := w_windowState w; emitted := emitted w |}.

Definition set_reloader (t : QTimer) (w : Window) : Window :=
  {| m_screenName := m_screenName w; m_found := m_found w; m_reloader := t;
     w_screen := w_screen w; w_geometry := w_geometry w; w_flags := w_flags w;
     w_windowState := w_windowState w; emitted := emitted w |}.

Definition set_screen (s : option QScreen) (w : Window) : Window :=
  {| m_screenName := m_screenName w; m_found := m_found w; m_reloader := m_reloader w;
     w_screen := s; w_geometry := w_geometry w; w_flags := w_flags w;
     w_windowState := w_windowState w; emitted := emitted w |}.

(** [QWindow::setGeometry]. *)
Definition setGeometry (r : QRect) (w : Window) : Window :=
  {| m_screenName := m_screenName w; m_found := m_found w; m_reloader := m_reloader w;
     w_screen := w_screen w; w_geometry := r; w_flags := w_flags w;
     w_windowState := w_windowState w; emitted := emitted w |}.

Definition setFlags (f : WindowFlags) (w : Window) : Window :=
  {| m_screenName := m_screenName w; m_found := m_found w; m_reloader := m_reloader w;
     w_screen := w_screen w; w_geometry := w_geometry w; w_flags := f;
     w_windowState := w_windowState w; emitted := emitted w |}.

Definition setWindowState (s : WindowState) (w : Window) : Window :=
  {| m_screenName := m_screenName w; m_found := m_found w; m_reloader := m_reloader w;
     w_screen := w_screen w; w_geometry := w_geometry w; w_flags := w_flags w;
     w_windowState := s; emitted := emitted w |}.

Definition emit (s : Signal) (w : Window) : Window :=
  {| m_screenName := m_screenName w; m_found := m_found w; m_reloader := m_reloader w;
     w_screen := w_screen w; w_geometry := w_geometry w; w_flags := w_flags w;
     w_windowState := w_windowState w; emitted := emitted w ++ [s] |}.

(** [void OutputWindow::putOnScreen() { setGeometry(screen()->geometry()); }]
    A window without a screen makes this a null dereference. *)
Definition putOnScreen (w : Window) : option Window :=
  s ← w_screen w; Some (setGeometry (screen_geometry s) w).

(** [QString OutputWindow::screenName()] and [bool OutputWindow::found()]. *)
Definition screenName (w : Window) : string := m_screenName w.
Definition found (w : Window) : bool := m_found w.

(** The [foreach] loop of [reload], with the local [found] as accumulator.
    [setScreen] is [QWindow::setScreen] with everything it sets off. *)
Fixpoint reload_loop (setScreen : QScreen → Window → option Window)
    (screens : list QScreen) (w : Window) (fnd : bool) : option (Window * bool) :=
  match screens with
  | [] => Some (w, fnd)
  | testScreen :: rest =>
      if decide (screen_name testScreen = m_screenName w) then
        w' ← (if decide (w_screen w ≠ Some testScreen) then setScreen testScreen w
              else Some w);
        reload_loop setScreen rest w' true
      else reload_loop setScreen rest w fnd
  end.

(** The tail of [reload]: [if (found != m_found) { m_found = found; emit foundChanged(found); }] *)
Definition reload_finish (w : Window) (fnd : bool) : Window :=
  if decide (fnd ≠ m_found w) then emit (foundChanged fnd) (set_found fnd w)
  else w.

(** [void OutputWindow::reload()].

    [screens] is what [QGuiApplication::screens()] returns during this poll.

    [QWindow::setScreen(s)] with [s] different from the current screen stores
    [s] and emits [screenChanged(s)] before it returns.  The constructor
    connects that signal, both times directly and within one thread, first to
    [onScreenChanged] and then to [putOnScreen]; so the two slots run, in
    that order, inside [setScreen], and [onScreenChanged] calls [reload]
    again.  [fuel] bounds the depth of that nesting: [None] with every
    [fuel] means the call never returns. *)
Fixpoint reload (fuel : nat) (screens : list QScreen) (w : Window) : option Window :=
  match fuel with
  | O => None
  | S fuel' =>
      let setScreen (s : QScreen) (w : Window) : option Window :=
        if decide (w_screen w = Some s) then Some w
        else
          let w1 := emit (screenChanged s) (set_screen (Some s) w) in
          w2 ← reload fuel' screens w1;          (* onScreenChanged *)
          putOnScreen w2 in                      (* putOnScreen *)
      '(w', fnd) ← reload_loop setScreen screens w false;
      Some (reload_finish w' fnd)
  end.

(** [QWindow::setScreen] as [reload] at depth [S fuel] sees it. *)
Definition setScreen (fuel : nat) (screens : list QScreen) (s : QScreen) (w : Window)
    : option Window :=
  if decide (w_screen w = Some s) then Some w
  else
    let w1 := emit (screenChanged s) (set_screen (Some s) w) in
    w2 ← reload fuel screens w1;
    putOnScreen w2.

(** [void OutputWindow::onScreenChanged(QScreen *screen) { reload(); }] *)
Definition onScreenChanged (fuel : nat) (screens : list QScreen) (w : Window) : option Window :=
  reload fuel screens w.

(** [void OutputWindow::setScreenName(QString screenName)] *)
Definition setScreenName (fuel : nat) (screens : list QScreen) (n : string) (w : Window)
    : option Window :=
  if decide (n ≠ m_screenName w) then
    reload fuel screens (emit (screenNameChanged n) (set_screenName n w))
  else Some w.

(** The constructor.  [primary] is the screen a new [QWindow] starts on and
    [geom0] its initial geometry.  No screen changes between the two
    [connect] calls, so [reload] already runs with both slots connected. *)
Definition new_QTimer : QTimer :=
  {| timer_interval := 0; timer_active := false; timer_singleShot := false;
     timer_timeout := [] |}.

Definition OutputWindow (fuel : nat) (screens : list QScreen)
    (primary : option QScreen) (geom0 : QRect) : option Window :=
  let w0 := {| m_screenName := ""; m_found := false; m_reloader := new_QTimer;
               w_screen := primary; w_geometry := geom0; w_flags := Qt_Window;
               w_windowState := Qt_WindowNoState; emitted := [] |} in
  let w1 := setWindowState Qt_WindowFullScreen (setFlags Qt_Dialog w0) in
  w2 ← putOnScreen w1;
  w3 ← reload fuel screens w2;
  Some (set_reloader
          {| timer_interval := 1000;       (* Reload screens every 1000 ms *)
             timer_active := true;
             timer_singleShot := timer_singleShot (m_reloader w3);
             timer_timeout := timer_timeout (m_reloader w3) ++ [slot_reload] |} w3).

(** One expiry of [m_reloader]: the slots connected to [timeout] run. *)
Definition run_slot (fuel : nat) (screens : list QScreen) (sl : Slot) (w : Window)
    : option Window :=
  match sl with
  | slot_onScreenChanged => onScreenChanged fuel screens w
  | slot_putOnScreen => putOnScreen w
  | slot_reload => reload fuel screens w
  end.

Definition timeout (fuel : nat) (screens : list QScreen) (w : Window) : option Window :=
  foldl (λ acc sl, w ← acc; run_slot fuel screens sl w) (Some w)
        (timer_timeout (m_reloader w)).

(** Whether some available screen bears the name [n]. *)
Definition name_available (n : string) (screens : list QScreen) : bool :=
  bool_decide (Exists (λ s, screen_name s = n) screens).

(** The [foundChanged] signals of a log. *)
Definition foundChanged_of (l : list Signal) : list bool :=
  omap (λ s, match s with foundChanged b => Some b | _ => None end) l.

Definition screenNameChanged_of (l : list Signal) : list string :=
  omap (λ s, match s with screenNameChanged n => Some n | _ => None end) l.

(** [poll_frame w w']: [w'] differs from [w] at most in the screen, the
    geometry, [m_found], and by signals other than [screenNameChanged]
    appended to the log. *)
Definition poll_frame (w w' : Window) : Prop :=
  m_screenName w' = m_screenName w ∧ m_reloader w' = m_reloader w ∧
  w_flags w' = w_flags w ∧ w_windowState w' = w_windowState w ∧
  ∃ ev, emitted w' = emitted w ++ ev ∧ screenNameChanged_of ev = [].

(** A laptop panel and two external screens that report the same name. *)
Definition geom_laptop : QRect := {| rect_x := 0; rect_y := 0; rect_w := 1366; rect_h := 768 |}.
Definition geom_a : QRect := {| rect_x := 1366; rect_y := 0; rect_w := 1920; rect_h := 1080 |}.
Definition geom_b : QRect := {| rect_x := 3286; rect_y := 0; rect_w := 1280; rect_h := 720 |}.
Definition laptop : QScreen := {| screen_ptr := 1; screen_name := "eDP-1"; screen_geometry := geom_laptop |}.
Definition hdmi_a : QScreen := {| screen_ptr := 2; screen_name := "HDMI-1"; screen_geometry := geom_a |}.
Definition hdmi_b : QScreen := {| screen_ptr := 3; screen_name := "HDMI-1"; screen_geometry := geom_b |}.
Definition searching_window : option Window :=
  w ← OutputWindow 1 [laptop] (Some laptop) geom_laptop;
  setScreenName 1 [laptop] "HDMI-1" w.
Definition bound_window : option Window :=
  w ← searching_window; timeout 2 [laptop; hdmi_a] w.

(** *** Further notions for the facts below *)

(** At most one of the screens bears the name [n]. *)
Definition at_most_one (n : string) (screens : list QScreen) : Prop :=
  ∀ s1 s2, s1 ∈ screens → s2 ∈ screens →
           screen_name s1 = n → screen_name s2 = n → s1 = s2.

(** The window has a screen and its geometry is the one that screen reports. *)
Definition geometry_follows_screen (w : Window) : Prop :=
  ∃ s, w_screen w = Some s ∧ w_geometry w = screen_geometry s.

(** Successive expiries of the timer, one per list of available screens. *)
Fixpoint polls (fuel : nat) (envs : list (list QScreen)) (w : Window) : option Window :=
  match envs with
  | [] => Some w
  | screens :: envs' => w' ← timeout fuel screens w; polls fuel envs' w'
  end.

(** The values of a sequence that differ from the value before them,
    starting from [b]. *)
Fixpoint transitions (b : bool) (l : list bool) : list bool :=
  match l with
  | [] => []
  | x :: l' => if decide (x ≠ b) then x :: transitions x l' else transitions b l'
  end.

End OutputWindow.


(* ===================================================================== *)
(** ** Graph: the edge loop of [modelChanged] *)
(* ===================================================================== *)

Module Graph.

(** A model vertex, [{uid, nInputs}], and a model edge,
    [{fromVertex, toVertex, toInput}].  [nInputs] is a count.  The three
    fields of an edge are indices taken from the model as they come, so they
    are integers that may lie outside the arrays they index. *)
Record Vertex := { uid : Z; nInputs : nat }.
Record Edge := { fromVertex : Z; toInput : Z; toVertex : Z }.
Record Model := { vertices : list Vertex; edges : list Edge }.

(** What the loop can throw: its two messages, and the [TypeError] of
    reading [.length] of [undefined]. *)
Inductive Thrown :=
  | NonexistentInput (input vertex : Z)
      (* `Model edge to nonexistant input ${edge.toInput} of vertex ${edge.toVertex}` *)
  | MultipleUpstream (vertex input : Z)
      (* `Model vertex ${edge.toVertex} input ${edge.toInput} has multiple upstream vertices` *)
  | TypeError.

Inductive Result (A : Type) :=
  | Ok (a : A)
  | Throw (e : Thrown).
Arguments Ok {A} a.
Arguments Throw {A} e.

(** [a[k]] on a dense array: the element when [k] is an index of [a],
    [undefined] ([None]) otherwise, also for a negative [k]. *)
Definition js_index {A} (a : list A) (k : Z) : option A :=
  if decide (0 ≤ k) then a !! Z.to_nat k else None.

(** [ix = a.indexOf(x); if (ix >= 0) a.splice(ix, 1)]: drop the first [x]. *)
Fixpoint remove_first (x : Z) (a : list Z) : list Z :=
  match a with
  | [] => []
  | y :: a' => if decide (y = x) then a' else y :: remove_first x a'
  end.

(** The two locals the loop updates.  A slot of [upstreamNodeVertices] holds
    [null] ([None]) or the index of the upstream vertex. *)
Record State := {
  upstreamNodeVertices : list (list (option Z));
  startNodeVertices : list Z
}.

(** The state before the loop: one array of [nInputs] nulls per vertex, and
    [Array.from(this.model.vertices.keys())]. *)
Definition init (m : Model) : State :=
  {| upstreamNodeVertices := (λ node, replicate (nInputs node) None) <$> vertices m;
     startNodeVertices := Z.of_nat <$> seq 0 (length (vertices m)) |}.

(** One turn of [for (let edge of this.model.edges)]. *)
Definition processEdge (st : State) (edge : Edge) : Result State :=
  match js_index (upstreamNodeVertices st) (toVertex edge) with
  | None => Throw TypeError
  | Some inputs =>
      if decide (Z.of_nat (length inputs) ≤ toInput edge) then
        Throw (NonexistentInput (toInput edge) (toVertex edge))
      else
        match js_index inputs (toInput edge) with
        | Some None =>                                (* the slot is null *)
            Ok {| upstreamNodeVertices :=
                    <[Z.to_nat (toVertex edge) :=
                        <[Z.to_nat (toInput edge) := Some (fromVertex edge)]> inputs]>
                      (upstreamNodeVertices st);
                  startNodeVertices :=
                    remove_first (fromVertex edge) (startNodeVertices st) |}
        | _ =>                 (* a vertex index, or undefined: both [!== null] *)
            Throw (MultipleUpstream (toVertex edge) (toInput edge))
        end
  end.

(** The whole loop: the first throw ends it. *)
Fixpoint processEdges (st : State) (es : list Edge) : Result State :=
  match es with
  | [] => Ok st
  | edge :: es' =>
      match processEdge st edge with
      | Ok st' => processEdges st' es'
      | Throw e => Throw e
      end
  end.

(** [modelChanged] up to the end of the loop over the model's edges. *)
Definition modelChanged_edges (m : Model) : Result State :=
  processEdges (init m) (edges m).

(** What [upstreamNodeVertices[vertex][input]] reads: [None] for undefined,
    [Some None] for null, [Some (Some v)] for the upstream vertex [v]. *)
Definition slot (st : State) (vertex input : Z) : option (option Z) :=
  inputs ← js_index (upstreamNodeVertices st) vertex; js_index inputs input.

(** The lengths of the input arrays, vertex by vertex. *)
Definition shape (st : State) : list nat := length <$> upstreamNodeVertices st.

(** The model the [mousedown] handler installs, and two broken variants. *)
Definition demo_vertices : list Vertex :=
  [ {| uid := 100; nInputs := 1 |}; {| uid := 200; nInputs := 1 |};
    {| uid := 300; nInputs := 1 |} ].
Definition demo : Model :=
  {| vertices := demo_vertices;
     edges := [ {| fromVertex := 0; toVertex := 1; toInput := 0 |};
                {| fromVertex := 1; toVertex := 2; toInput := 0 |} ] |}.
Definition demo_two_into_one : Model :=
  {| vertices := demo_vertices;
     edges := [ {| fromVertex := 0; toVertex := 2; toInput := 0 |};
                {| fromVertex := 1; toVertex := 2; toInput := 0 |} ] |}.
Definition demo_bad_input : Model :=
  {| vertices := demo_vertices;
     edges := [ {| fromVertex := 0; toVertex := 1; toInput := 0 |};
                {| fromVertex := 1; toVertex := 2; toInput := 1 |} ] |}.

(** *** Further notions for the facts below *)

(** The input an edge ends at. *)
Definition target (e : Edge) : Z * Z := (toVertex e, toInput e).

(** The edge ends at an input that the model's vertices have. *)
Definition in_range (vs : list Vertex) (e : Edge) : Prop :=
  ∃ node, js_index vs (toVertex e) = Some node ∧
          0 ≤ toInput e < Z.of_nat (nInputs node).


(** *** [relayoutGraph]: the tables, the roots and the input heights *)

(** A number that may also be [undefined] or [NaN].  The heights are sums
    and maxima of integers, so they are integers; 110 and 180 are the only
    constants. *)
Inductive JsNum := Undefined | NotANumber | Num (z : Z).

(** A tile, [VideoNodeTile], with the fields the layout reads and writes:
    [nInputs], [inputHeights], [x] and [y].  The constructor leaves [x] and
    [y] undefined; [EffectNodeTile] sets [nInputs] to 1. *)
Record Tile := {
  tile_nInputs : nat;
  inputHeights : list Z;
  tile_x : JsNum;
  tile_y : JsNum
}.

Definition VideoNodeTile : Tile :=
  {| tile_nInputs := 0; inputHeights := []; tile_x := Undefined; tile_y := Undefined |}.
Definition EffectNodeTile : Tile :=
  {| tile_nInputs := 1; inputHeights := []; tile_x := Undefined; tile_y := Undefined |}.

Definition set_inputHeights (hs : list Z) (tile : Tile) : Tile :=
  {| tile_nInputs := tile_nInputs tile; inputHeights := hs;
     tile_x := tile_x tile; tile_y := tile_y tile |}.
Definition set_x (x : JsNum) (tile : Tile) : Tile :=
  {| tile_nInputs := tile_nInputs tile; inputHeights := inputHeights tile;
     tile_x := x; tile_y := tile_y tile |}.
Definition set_y (y : JsNum) (tile : Tile) : Tile :=
  {| tile_nInputs := tile_nInputs tile; inputHeights := inputHeights tile;
     tile_x := tile_x tile; tile_y := y |}.

(** [width()], [minInputHeight(input)] and [height()] of [VideoNodeTile]. *)
Definition width (tile : Tile) : Z := 110.
Definition minInputHeight (tile : Tile) (input : Z) : Z := 180.
Definition height (tile : Tile) : Z := foldl Z.add 0 (inputHeights tile).

(** What [relayoutGraph] can throw: its three messages, and the [TypeError]
    of reading a property of [undefined]. *)
Inductive RelayoutThrown :=
  | MultipleDownstream (vertex : Z)
      (* `Vertex ${edge.fromVertex} has multiple downstream vertices` *)
  | EdgeToNonexistentInput (input vertex : Z)
      (* `Edge to nonexistant input ${edge.toInput} of vertex ${edge.toVertex}` *)
  | MultipleUpstreamOfInput (vertex input : Z)
      (* `Vertex ${edge.toVertex} input ${edge.toInput} has multiple upstream vertices` *)
  | RelayoutTypeError.

Inductive Relayout (A : Type) :=
  | Done (a : A)
  | Raise (e : RelayoutThrown).
Arguments Done {A} a.
Arguments Raise {A} e.

(** The three arrays parallel to [tileVertices].  An entry holds [null]
    ([None]) or an index. *)
Record Tables := {
  downstreamTileVertex : list (option Z);
  downstreamTileInput : list (option Z);
  upstreamTileVertices : list (list (option Z))
}.

(** The tables after [this.tileVertices.forEach]: a null downstream vertex
    and input per tile, and one null per input. *)
Definition tables_init (tileVertices : list Tile) : Tables :=
  {| downstreamTileVertex := (λ _, None) <$> tileVertices;
     downstreamTileInput := (λ _, None) <$> tileVertices;
     upstreamTileVertices :=
       (λ tile, replicate (tile_nInputs tile) None) <$> tileVertices |}.

(** One turn of [for (let edge of this.tileEdges)].  The two downstream
    arrays are written before the upstream tests.  They are written at an
    index at which [downstreamTileVertex] holds null, which is an index of
    both arrays, as the two have one entry per tile. *)
Definition tableEdge (tb : Tables) (edge : Edge) : Relayout Tables :=
  match js_index (downstreamTileVertex tb) (fromVertex edge) with
  | Some None =>
      let down := <[Z.to_nat (fromVertex edge) := Some (toVertex edge)]>
                    (downstreamTileVertex tb) in
      let downInput := <[Z.to_nat (fromVertex edge) := Some (toInput edge)]>
                         (downstreamTileInput tb) in
      match js_index (upstreamTileVertices tb) (toVertex edge) with
      | None => Raise RelayoutTypeError
      | Some inputs =>
          if decide (Z.of_nat (length inputs) ≤ toInput edge) then
            Raise (EdgeToNonexistentInput (toInput edge) (toVertex edge))
          else
            match js_index inputs (toInput edge) with
            | Some None =>
                Done {| downstreamTileVertex := down;
                        downstreamTileInput := downInput;
                        upstreamTileVertices :=
                          <[Z.to_nat (toVertex edge) :=
                              <[Z.to_nat (toInput edge) := Some (fromVertex edge)]> inputs]>
                            (upstreamTileVertices tb) |}
            | _ => Raise (MultipleUpstreamOfInput (toVertex edge) (toInput edge))
            end
      end
  | _ =>                      (* a vertex index, or undefined: both [!== null] *)
      Raise (MultipleDownstream (fromVertex edge))
  end.

Fixpoint tableEdges (tb : Tables) (es : list Edge) : Relayout Tables :=
  match es with
  | [] => Done tb
  | edge :: es' =>
      match tableEdge tb edge with
      | Done tb' => tableEdges tb' es'
      | Raise e => Raise e
      end
  end.

(** [relayoutGraph] up to the end of the loop over the tile edges. *)
Definition relayout_tables (tileVertices : list Tile) (tileEdges : list Edge) :
    Relayout Tables :=
  tableEdges (tables_init tileVertices) tileEdges.

(** Step 1: the indices at which [downstreamTileVertex] holds null. *)
Definition roots (tileVertices : list Tile) (tb : Tables) : list Z :=
  filter (λ index, js_index (downstreamTileVertex tb) index = Some None)
         (Z.of_nat <$> seq 0 (length tileVertices)).

(** [upstreamTileVertices[index][i]]: [None] for undefined. *)
Definition upstream_of (up : list (list (option Z))) (index i : Z) :
    option (option Z) :=
  inputs ← js_index up index; js_index inputs i.

(** [this.tileVertices[index].inputHeights.push(h)]. *)
Definition push_inputHeight (index : Z) (h : Z) (tiles : list Tile) : list Tile :=
  alter (λ tile, set_inputHeights (inputHeights tile ++ [h]) tile) (Z.to_nat index) tiles.

(** The [for] loop of [setInputHeightsFwd] over the inputs that are left,
    with [rec] for the recursive call.  The tiles are objects shared by all
    calls, so they are threaded through as a store indexed like
    [tileVertices]. *)
Fixpoint fwd_inputs (rec : list Tile → Z → option (Relayout (list Tile)))
    (up : list (list (option Z))) (index : Z) (tile : Tile) (inputs : list nat)
    (tiles : list Tile) : option (Relayout (list Tile)) :=
  match inputs with
  | [] => Some (Done tiles)
  | i :: inputs' =>
      let height0 := minInputHeight tile (Z.of_nat i) in
      match upstream_of up index (Z.of_nat i) with
      | Some None =>
          fwd_inputs rec up index tile inputs' (push_inputHeight index height0 tiles)
      | Some (Some upstream) =>
          match rec tiles upstream with
          | Some (Done tiles1) =>
              match js_index tiles1 upstream with
              | Some utile =>
                  fwd_inputs rec up index tile inputs'
                    (push_inputHeight index (Z.max height0 (height utile)) tiles1)
              | None => Some (Raise RelayoutTypeError)
              end
          | r => r
          end
      | None =>            (* undefined: the recursive call reads a field of undefined *)
          Some (Raise RelayoutTypeError)
      end
  end.

(** Step 2, [setInputHeightsFwd(index)].  [None] when the nesting of calls
    exceeds [fuel]. *)
Fixpoint setInputHeightsFwd (fuel : nat) (up : list (list (option Z)))
    (tiles : list Tile) (index : Z) : option (Relayout (list Tile)) :=
  match fuel with
  | O => None
  | S fuel' =>
      match js_index tiles index with
      | None => Some (Raise RelayoutTypeError)
      | Some tile =>
          match fwd_inputs (setInputHeightsFwd fuel' up) up index tile
                  (seq 0 (tile_nInputs tile))
                  (<[Z.to_nat index := set_inputHeights [] tile]> tiles) with
          | Some (Done tiles1) =>
              if decide (tile_nInputs tile = 0%nat)
              then Some (Done (push_inputHeight index (minInputHeight tile 0) tiles1))
              else Some (Done tiles1)
          | r => r
          end
      end
  end.

(** [for (let index of roots) f(index)]. *)
Fixpoint for_roots (f : list Tile → Z → option (Relayout (list Tile)))
    (rs : list Z) (tiles : list Tile) : option (Relayout (list Tile)) :=
  match rs with
  | [] => Some (Done tiles)
  | index :: rs' =>
      match f tiles index with
      | Some (Done tiles1) => for_roots f rs' tiles1
      | r => r
      end
  end.

Section Rev.

(** What [for (...) tile.inputHeights[i] *= ratio] makes of the input
    heights when [ratio = downstreamHeight / height] exceeds 1, and the
    heights themselves otherwise.  This is floating-point arithmetic;
    nothing is assumed about it. *)
Variable scale : Z → Z → Tile → Tile.

(** Step 3, [setInputHeightsRev(index)]. *)
Definition setInputHeightsRev (down : list (option Z)) (tiles : list Tile) (index : Z) :
    option (Relayout (list Tile)) :=
  match js_index tiles index with
  | None => Some (Raise RelayoutTypeError)
  | Some tile =>
      match js_index down index with
      | Some None => Some (Done tiles)
      | Some (Some downstream) =>
          match js_index tiles downstream with
          | None => Some (Raise RelayoutTypeError)
          | Some dtile =>
              Some (Done (<[Z.to_nat index := scale (height dtile) (height tile) tile]> tiles))
          end
      | None => Some (Raise RelayoutTypeError)
      end
  end.

End Rev.

(** [relayoutGraph] up to the end of step 2. *)
Definition relayout_heights (fuel : nat) (tileVertices : list Tile)
    (tileEdges : list Edge) : option (Relayout (list Tile)) :=
  match relayout_tables tileVertices tileEdges with
  | Raise e => Some (Raise e)
  | Done tb =>
      for_roots (setInputHeightsFwd fuel (upstreamTileVertices tb))
        (roots tileVertices tb) tileVertices
  end.

(** [a + b], [a - b], [-a] and [a < b] on numbers that may be [undefined]
    or [NaN]. *)
Definition js_plus (a b : JsNum) : JsNum :=
  match a, b with Num p, Num q => Num (p + q) | _, _ => NotANumber end.
Definition js_minus (a b : JsNum) : JsNum :=
  match a, b with Num p, Num q => Num (p - q) | _, _ => NotANumber end.
Definition js_neg (a : JsNum) : JsNum :=
  match a with Num p => Num (- p) | _ => NotANumber end.
Definition js_lt (a b : JsNum) : bool :=
  match a, b with Num p, Num q => bool_decide (p < q) | _, _ => false end.

(** [tile.inputHeights[i]]. *)
Definition inputHeight_at (tile : Tile) (i : nat) : JsNum :=
  match inputHeights tile !! i with Some h => Num h | None => Undefined end.

(** The [for] loop of [setYCoordinate] over the inputs that are left; [y] is
    the local variable. *)
Fixpoint y_inputs (rec : list Tile → Z → JsNum → option (Relayout (list Tile)))
    (up : list (list (option Z))) (index : Z) (inputs : list nat) (y : JsNum)
    (tiles : list Tile) : option (Relayout (list Tile)) :=
  match inputs with
  | [] => Some (Done tiles)
  | i :: inputs' =>
      let next tiles1 :=
        match js_index tiles1 index with
        | Some tile => y_inputs rec up index inputs' (js_plus y (inputHeight_at tile i)) tiles1
        | None => Some (Raise RelayoutTypeError)
        end in
      match upstream_of up index (Z.of_nat i) with
      | Some None => next tiles
      | Some (Some upstream) =>
          match rec tiles upstream y with
          | Some (Done tiles1) => next tiles1
          | r => r
          end
      | None => Some (Raise RelayoutTypeError)
      end
  end.

(** Step 4, [setYCoordinate(index, y)]. *)
Fixpoint setYCoordinate (fuel : nat) (up : list (list (option Z)))
    (tiles : list Tile) (index : Z) (y : JsNum) : option (Relayout (list Tile)) :=
  match fuel with
  | O => None
  | S fuel' =>
      match js_index tiles index with
      | None => Some (Raise RelayoutTypeError)
      | Some tile =>
          y_inputs (setYCoordinate fuel' up) up index (seq 0 (tile_nInputs tile)) y
            (<[Z.to_nat index := set_y y tile]> tiles)
      end
  end.

(** [let y = 0; for (let index of roots) { setYCoordinate(index, y);
    y += this.tileVertices[index].height(); }]: the tiles and the final
    [y]. *)
Fixpoint y_roots (f : list Tile → Z → JsNum → option (Relayout (list Tile)))
    (rs : list Z) (y : JsNum) (tiles : list Tile) :
    option (Relayout (list Tile * JsNum)) :=
  match rs with
  | [] => Some (Done (tiles, y))
  | index :: rs' =>
      match f tiles index y with
      | Some (Done tiles1) =>
          match js_index tiles1 index with
          | Some tile => y_roots f rs' (js_plus y (Num (height tile))) tiles1
          | None => Some (Raise RelayoutTypeError)
          end
      | Some (Raise e) => Some (Raise e)
      | None => None
      end
  end.

(** The [for] loop of [setXCoordinate]; [x] has had the width taken off. *)
Fixpoint x_inputs (rec : list Tile → Z → JsNum → option (Relayout (list Tile)))
    (up : list (list (option Z))) (index : Z) (inputs : list nat) (x : JsNum)
    (tiles : list Tile) : option (Relayout (list Tile)) :=
  match inputs with
  | [] => Some (Done tiles)
  | i :: inputs' =>
      match upstream_of up index (Z.of_nat i) with
      | Some None => x_inputs rec up index inputs' x tiles
      | Some (Some upstream) =>
          match rec tiles upstream x with
          | Some (Done tiles1) => x_inputs rec up index inputs' x tiles1
          | r => r
          end
      | None => Some (Raise RelayoutTypeError)
      end
  end.

(** Step 5, [setXCoordinate(index, x)]. *)
Fixpoint setXCoordinate (fuel : nat) (up : list (list (option Z)))
    (tiles : list Tile) (index : Z) (x : JsNum) : option (Relayout (list Tile)) :=
  match fuel with
  | O => None
  | S fuel' =>
      match js_index tiles index with
      | None => Some (Raise RelayoutTypeError)
      | Some tile =>
          x_inputs (setXCoordinate fuel' up) up index (seq 0 (tile_nInputs tile))
            (js_minus x (Num (width tile)))
            (<[Z.to_nat index := set_x x tile]> tiles)
      end
  end.

(** [for (let index of roots) setXCoordinate(index,
    -this.tileVertices[index].width())]. *)
Fixpoint x_roots (f : list Tile → Z → JsNum → option (Relayout (list Tile)))
    (rs : list Z) (tiles : list Tile) : option (Relayout (list Tile)) :=
  match rs with
  | [] => Some (Done tiles)
  | index :: rs' =>
      match js_index tiles index with
      | Some tile =>
          match f tiles index (js_neg (Num (width tile))) with
          | Some (Done tiles1) => x_roots f rs' tiles1
          | r => r
          end
      | None => Some (Raise RelayoutTypeError)
      end
  end.

(** Step 6: the smallest [x] that is below 0, and that much taken off every
    [x]. *)
Definition smallestX (tiles : list Tile) : JsNum :=
  foldl (λ smallest tile, if js_lt (tile_x tile) smallest then tile_x tile else smallest)
        (Num 0) tiles.

Definition offset_x (smallest : JsNum) (tiles : list Tile) : list Tile :=
  (λ tile, set_x (js_minus (tile_x tile) smallest) tile) <$> tiles.

(** What [relayoutGraph] leaves: the tiles, and the width and height it
    gives the graph.  ([updateVertex] then copies each tile's width, height
    and position into its style.) *)
Record Laid := {
  laid_tiles : list Tile;
  laid_width : JsNum;
  laid_height : JsNum
}.

Definition and_then {A B} (r : option (Relayout A)) (k : A → option (Relayout B)) :
    option (Relayout B) :=
  match r with
  | None => None
  | Some (Raise e) => Some (Raise e)
  | Some (Done a) => k a
  end.

Section Relayout.
Variable scale : Z → Z → Tile → Tile.

(** [relayoutGraph()]. *)
Definition relayoutGraph (fuel : nat) (tileVertices : list Tile) (tileEdges : list Edge) :
    option (Relayout Laid) :=
  and_then (Some (relayout_tables tileVertices tileEdges)) (λ tb,
  let up := upstreamTileVertices tb in
  let rs := roots tileVertices tb in
  and_then (for_roots (setInputHeightsFwd fuel up) rs tileVertices) (λ tiles2,
  and_then (for_roots (setInputHeightsRev scale (downstreamTileVertex tb)) rs tiles2) (λ tiles3,
  and_then (y_roots (setYCoordinate fuel up) rs (Num 0) tiles3) (λ '(tiles4, height),
  and_then (x_roots (setXCoordinate fuel up) rs tiles4) (λ tiles5,
  let smallest := smallestX tiles5 in
  Some (Done {| laid_tiles := offset_x smallest tiles5;
                laid_width := js_neg smallest;
                laid_height := height |})))))).

End Relayout.

(** *** Notions for the facts about the layout *)

(** Reading the two downstream tables. *)
Definition downVertex (tb : Tables) (x : Z) : option (option Z) :=
  js_index (downstreamTileVertex tb) x.
Definition downInput (tb : Tables) (x : Z) : option (option Z) :=
  js_index (downstreamTileInput tb) x.
Definition upSlot (tb : Tables) (v i : Z) : option (option Z) :=
  upstream_of (upstreamTileVertices tb) v i.

Definition tables_wf (tb : Tables) : Prop :=
  length (downstreamTileInput tb) = length (downstreamTileVertex tb).

Definition tables_shape (tb : Tables) : nat * list nat :=
  (length (downstreamTileVertex tb), length <$> upstreamTileVertices tb).

(** The edge ends at an input that the tiles have. *)
Definition tile_in_range (tiles : list Tile) (e : Edge) : Prop :=
  ∃ tile, js_index tiles (toVertex e) = Some tile ∧
          0 ≤ toInput e < Z.of_nat (tile_nInputs tile).

(** The vertex reached from [x] by following [downstreamTileVertex] [j]
    times, if there is one. *)
Fixpoint walk (down : list (option Z)) (j : nat) (x : Z) : option Z :=
  match j with
  | O => Some x
  | S j' =>
      match js_index down x with
      | Some (Some y) => walk down j' y
      | _ => None
      end
  end.

(** [x] is [v], or upstream of [v] at some distance. *)
Definition above (tb : Tables) (v x : Z) : Prop :=
  ∃ j, walk (downstreamTileVertex tb) j x = Some v.

(** Following the downstream table from [v] ends, after [k] steps, at a
    vertex with no downstream vertex. *)
Definition rank (tb : Tables) (v : Z) (k : nat) : Prop :=
  ∃ r, walk (downstreamTileVertex tb) k v = Some r ∧ downVertex tb r = Some None.

Definition leads_to_root (tb : Tables) (v : Z) : Prop := ∃ k, rank tb v k.

(** The height of the tile at an index; 0 stands in where there is none. *)
Definition height_at (tiles : list Tile) (x : Z) : Z :=
  from_option height 0 (js_index tiles x).

(** The height that input [i] of tile [v] is to have, given the tiles'
    heights: the minimum, or the height of the upstream tile if that is
    more. *)
Definition input_height (tb : Tables) (tiles : list Tile) (v : Z) (i : nat) : Z :=
  match upSlot tb v (Z.of_nat i) with
  | Some (Some u) => Z.max 180 (height_at tiles u)
  | _ => 180
  end.

Definition heights_set (tb : Tables) (tiles : list Tile) (v : Z) : Prop :=
  ∃ tile, js_index tiles v = Some tile ∧
          inputHeights tile =
            if decide (tile_nInputs tile = 0%nat) then [180]
            else input_height tb tiles v <$> seq 0 (tile_nInputs tile).

(** The tables are linked: a slot holds [u] exactly when [u]'s downstream
    vertex and input are that slot. *)
Definition linked (tb : Tables) : Prop :=
  (∀ v i u, upSlot tb v i = Some (Some u) →
            downVertex tb u = Some (Some v) ∧ downInput tb u = Some (Some i)) ∧
  (∀ u v, downVertex tb u = Some (Some v) → ∃ i, upSlot tb v i = Some (Some u)).

(** The tables have an entry per tile and a slot per input. *)
Definition fits (tb : Tables) (tiles : list Tile) : Prop :=
  tables_shape tb = (length tiles, tile_nInputs <$> tiles).

(** What holds of the store after the first [i] inputs of [v]. *)
Definition fwd_inv (tb : Tables) (tiles : list Tile) (v : Z) (i : nat) (cur : list Tile) : Prop :=
  fits tb cur ∧
  (∃ t, js_index cur v = Some t ∧
        inputHeights t = input_height tb cur v <$> seq 0 i) ∧
  (∀ x, ¬ above tb v x → js_index cur x = js_index tiles x) ∧
  (∀ j u x, (j < i)%nat → upSlot tb v (Z.of_nat j) = Some (Some u) → above tb u x →
            heights_set tb cur x).

(** What a call [setInputHeightsFwd(v)] achieves, from the store [tiles]. *)
Definition fwd_post (tb : Tables) (tiles : list Tile) (v : Z) (tiles' : list Tile) : Prop :=
  fits tb tiles' ∧
  (∀ x, ¬ above tb v x → js_index tiles' x = js_index tiles x) ∧
  (∀ x, above tb v x → heights_set tb tiles' x).

(** The coordinates of the tile at an index. *)
Definition x_at (tiles : list Tile) (v : Z) : JsNum :=
  from_option tile_x Undefined (js_index tiles v).
Definition y_at (tiles : list Tile) (v : Z) : JsNum :=
  from_option tile_y Undefined (js_index tiles v).

(** The heights of the inputs below input [i] of a tile, summed up. *)
Definition input_offset (tile : Tile) (i : nat) : Z :=
  foldl Z.add 0 (take i (inputHeights tile)).
Definition offset_at (tiles : list Tile) (v : Z) (i : nat) : Z :=
  from_option (λ tile, input_offset tile i) 0 (js_index tiles v).

(** The tile has a height for each of its inputs. *)
Definition has_heights (tiles : list Tile) (v : Z) : Prop :=
  ∃ tile, js_index tiles v = Some tile ∧
          (tile_nInputs tile ≤ length (inputHeights tile))%nat.

(** The two stores differ at most in the field that [clear] overwrites. *)
Definition same_but (clear : Tile → Tile) (tiles1 tiles2 : list Tile) : Prop :=
  clear <$> tiles1 = clear <$> tiles2.

(** The tile [w] has a [y], and each tile that feeds it has its top where
    the input it feeds begins. *)
Definition y_placed (tb : Tables) (tiles : list Tile) (w : Z) : Prop :=
  ∃ z, y_at tiles w = Num z ∧
       ∀ i u, upSlot tb w i = Some (Some u) →
              y_at tiles u = Num (z + offset_at tiles w (Z.to_nat i)).

(** The tile [w] has an [x], and each tile that feeds it is one tile width
    to its left. *)
Definition x_placed (tb : Tables) (tiles : list Tile) (w : Z) : Prop :=
  ∃ z, x_at tiles w = Num z ∧
       ∀ i u, upSlot tb w i = Some (Some u) → x_at tiles u = Num (z - 110).

(** The sum of a list of heights. *)
Definition total (l : list Z) : Z := foldr Z.add 0 l.

(** What a call [setYCoordinate(v, z0)] achieves, from the store [tiles];
    and what holds after the first [i] inputs of [v]. *)
Definition y_post (tb : Tables) (tiles : list Tile) (v z0 : Z) (tiles' : list Tile) : Prop :=
  same_but (set_y Undefined) tiles' tiles ∧
  (∀ x, ¬ above tb v x → js_index tiles' x = js_index tiles x) ∧
  y_at tiles' v = Num z0 ∧
  (∀ w, above tb v w → y_placed tb tiles' w).

Definition y_inv (tb : Tables) (tiles : list Tile) (v z0 : Z) (i : nat)
    (cur : list Tile) : Prop :=
  same_but (set_y Undefined) cur tiles ∧
  (∀ x, ¬ above tb v x → js_index cur x = js_index tiles x) ∧
  y_at cur v = Num z0 ∧
  (∀ j u, (j < i)%nat → upSlot tb v (Z.of_nat j) = Some (Some u) →
          y_at cur u = Num (z0 + offset_at tiles v j) ∧
          ∀ w, above tb u w → y_placed tb cur w).

Definition x_post (tb : Tables) (tiles : list Tile) (v z0 : Z) (tiles' : list Tile) : Prop :=
  same_but (set_x Undefined) tiles' tiles ∧
  (∀ x, ¬ above tb v x → js_index tiles' x = js_index tiles x) ∧
  x_at tiles' v = Num z0 ∧
  (∀ w, above tb v w → x_placed tb tiles' w).

Definition x_inv (tb : Tables) (tiles : list Tile) (v z0 : Z) (i : nat)
    (cur : list Tile) : Prop :=
  same_but (set_x Undefined) cur tiles ∧
  (∀ x, ¬ above tb v x → js_index cur x = js_index tiles x) ∧
  x_at cur v = Num z0 ∧
  (∀ j u, (j < i)%nat → upSlot tb v (Z.of_nat j) = Some (Some u) →
          x_at cur u = Num (z0 - 110) ∧
          ∀ w, above tb u w → x_placed tb cur w).

(** Seven tiles for the examples: a chain 0 → 1 → 3 → 4 with a second
    input of 3 fed by 2, and two tiles 5 and 6 that feed each other. *)
Definition demo_tiles : list Tile :=
  [ EffectNodeTile; EffectNodeTile; VideoNodeTile;
    {| tile_nInputs := 2; inputHeights := [];
       tile_x := Undefined; tile_y := Undefined |};
    EffectNodeTile;
    EffectNodeTile; EffectNodeTile ].
Definition demo_tile_edges : list Edge :=
  [ {| fromVertex := 1; toVertex := 3; toInput := 0 |};
    {| fromVertex := 2; toVertex := 3; toInput := 1 |};
    {| fromVertex := 0; toVertex := 1; toInput := 0 |};
    {| fromVertex := 3; toVertex := 4; toInput := 0 |};
    {| fromVertex := 5; toVertex := 6; toInput := 0 |};
    {| fromVertex := 6; toVertex := 5; toInput := 0 |} ].


End Graph.

(* ===================================================================== *)
(** ** The model, its render copies, and QQuickPreviewAdapter *)
(* ===================================================================== *)

Module Preview.

(** [QSize]: width and height in integer pixels. *)
Record QSize := { size_width : Z; size_height : Z }.
#[global] Instance QSize_eq_dec : EqDecision QSize.
Proof. solve_decision. Defined.

(** Modelled from the spec: a [Chain] object, missing with Chain.h.  A chain
    is built for one size, exposes it, and never changes it (section 4.1). *)
Record Chain := { chain_size : QSize }.

(** Pointers are [option nat].  A chain is held through
    [QSharedPointer<Chain>]: [None] is the null pointer, [Some c] the chain
    object at address [c]; the same for [Model *] and [QQuickWindow *]. *)

(** *** The model: the part of the program behind Model.h *)

(** Modelled from the spec: a [VideoNode] object, missing with VideoNode.h.
    It has an identifier that is stable across edits and copies, a fixed
    number of input slots, variant-specific parameters, and one cached output
    texture per chain. *)
Record VideoNode := {
  vn_id : Z;
  vn_inputCount : nat;
  vn_parameters : Z;
  vn_cache : gmap (option nat) Z
}.

(** Modelled from the spec: an edge [(fromNode, toNode, toInputIndex)], nodes
    named by identifier. *)
Record Edge := { fromNode : Z; toNode : Z; toInputIndex : nat }.

(** Modelled from the spec: the [Model] object, missing with Model.h.  It
    owns its nodes (held by address), the edges, and the registry of active
    chains. *)
Record Model := {
  model_vertices : list nat;
  model_edges : list Edge;
  model_chains : gset (option nat)
}.

(** The heap: every [Chain], [VideoNode] and [Model] object by address, and
    the next unused node identifier (the node and model objects are the ones
    modelled from the spec above).  Chain objects are never reclaimed
    here: shared ownership decides when that happens, and nothing below
    depends on it. *)
Record World := {
  w_chains : gmap nat Chain;
  w_nodes : gmap nat VideoNode;
  w_models : gmap nat Model;
  w_nextId : Z
}.

Definition set_chains (cs : gmap nat Chain) (w : World) : World :=
  {| w_chains := cs; w_nodes := w_nodes w; w_models := w_models w; w_nextId := w_nextId w |}.
Definition set_nodes (ns : gmap nat VideoNode) (w : World) : World :=
  {| w_chains := w_chains w; w_nodes := ns; w_models := w_models w; w_nextId := w_nextId w |}.
Definition set_models (ms : gmap nat Model) (w : World) : World :=
  {| w_chains := w_chains w; w_nodes := w_nodes w; w_models := ms; w_nextId := w_nextId w |}.
Definition set_nextId (i : Z) (w : World) : World :=
  {| w_chains := w_chains w; w_nodes := w_nodes w; w_models := w_models w; w_nextId := i |}.

Definition set_vertices (vs : list nat) (m : Model) : Model :=
  {| model_vertices := vs; model_edges := model_edges m; model_chains := model_chains m |}.
Definition set_edges (es : list Edge) (m : Model) : Model :=
  {| model_vertices := model_vertices m; model_edges := es; model_chains := model_chains m |}.
Definition set_model_chains (cs : gset (option nat)) (m : Model) : Model :=
  {| model_vertices := model_vertices m; model_edges := model_edges m; model_chains := cs |}.

Definition set_parameters (p : Z) (n : VideoNode) : VideoNode :=
  {| vn_id := vn_id n; vn_inputCount := vn_inputCount n; vn_parameters := p;
     vn_cache := vn_cache n |}.
Definition release_cache (c : option nat) (n : VideoNode) : VideoNode :=
  {| vn_id := vn_id n; vn_inputCount := vn_inputCount n; vn_parameters := vn_parameters n;
     vn_cache := delete c (vn_cache n) |}.

(** [new Chain(size)]: a chain object at an address not in use. *)
Definition new_Chain (size : QSize) (w : World) : nat * World :=
  let c := fresh (dom (w_chains w)) in
  (c, set_chains (<[c := {| chain_size := size |}]> (w_chains w)) w).

(** Modelled from the spec: [Model::addChain], missing with Model.cpp.  It
    registers a render target with the model at [mp]; a dangling [mp] is a
    crash. *)
Definition addChain (chain : option nat) (mp : nat) (w : World) : option World :=
  m ← w_models w !! mp;
  Some (set_models (<[mp := set_model_chains ({[chain]} ∪ model_chains m) m]> (w_models w)) w).

(** Modelled from the spec: [Model::removeChain], missing with Model.cpp.  It
    unregisters the chain and releases every node's cached texture for it. *)
Definition removeChain (chain : option nat) (mp : nat) (w : World) : option World :=
  m ← w_models w !! mp;
  Some (set_nodes (foldr (alter (release_cache chain)) (w_nodes w) (model_vertices m))
         (set_models (<[mp := set_model_chains (model_chains m ∖ {[chain]}) m]> (w_models w)) w)).

(** Modelled from the spec: the lookup of a node by identifier that the
    mutation API needs (section 4.3, [NotFound]); it yields the node of the
    model with the given identifier, and its address. *)
Fixpoint find_node (ns : gmap nat VideoNode) (ls : list nat) (id : Z)
    : option (nat * VideoNode) :=
  match ls with
  | [] => None
  | l :: ls' =>
      match ns !! l with
      | Some n => if decide (vn_id n = id) then Some (l, n) else find_node ns ls' id
      | None => find_node ns ls' id
      end
  end.

(** Modelled from the spec: the reachability check of [addEdge] (section
    4.3): whether [b] can be reached from [a] along at most [fuel] edges. *)
Fixpoint reachable (fuel : nat) (es : list Edge) (a b : Z) : bool :=
  bool_decide (a = b) ||
  match fuel with
  | O => false
  | S fuel' =>
      existsb (λ e, bool_decide (fromNode e = a) && reachable fuel' es (toNode e) b) es
  end.

(** Modelled from the spec: the mutation API of the model (section 4.3) and
    the parameter edits of section 6.  A structural error is returned and
    leaves the graph as it was. *)
Inductive StructuralError := NotFound | InvalidInput | SlotOccupied | CycleDetected.

(** Modelled from the spec: one call of the mutation API. *)
Inductive Mutation :=
  | addNode (inputCount : nat) (parameters : Z)
  | removeNode (id : Z)
  | addEdge (from to : Z) (inputIndex : nat)
  | removeEdge (from to : Z) (inputIndex : nat)
  | setParameter (id : Z) (value : Z)
  | registerChain (chain : option nat)
  | unregisterChain (chain : option nat).

Definition put_model (mp : nat) (m : Model) (w : World) : World :=
  set_models (<[mp := m]> (w_models w)) w.

(** Modelled from the spec: what a call of the mutation API does to the model
    at [mp], and the error it returns, if any.  [addNode] gives the node a
    fresh identifier; [removeNode] also removes the edges touching the node
    and the node object with its cached textures; [addEdge] refuses an input
    index outside the arity of [to], an occupied input, and an edge that
    would close a cycle. *)
Definition mutate (mp : nat) (mut : Mutation) (w : World) : World * option StructuralError :=
  match w_models w !! mp with
  | None => (w, Some NotFound)
  | Some m =>
      match mut with
      | addNode k p =>
          let l := fresh (dom (w_nodes w)) in
          let n := {| vn_id := w_nextId w; vn_inputCount := k; vn_parameters := p;
                      vn_cache := ∅ |} in
          (set_nextId (w_nextId w + 1)
             (set_nodes (<[l := n]> (w_nodes w))
                (put_model mp (set_vertices (model_vertices m ++ [l]) m) w)), None)
      | removeNode id =>
          match find_node (w_nodes w) (model_vertices m) id with
          | None => (w, Some NotFound)
          | Some (l, _) =>
              let es := filter (λ e, fromNode e ≠ id ∧ toNode e ≠ id) (model_edges m) in
              (set_nodes (delete l (w_nodes w))
                 (put_model mp
                    (set_edges es (set_vertices (filter (λ l', l' ≠ l) (model_vertices m)) m))
                    w), None)
          end
      | addEdge from to k =>
          match find_node (w_nodes w) (model_vertices m) from,
                find_node (w_nodes w) (model_vertices m) to with
          | Some _, Some (_, n) =>
              if decide (vn_inputCount n ≤ k)%nat then (w, Some InvalidInput)
              else if existsb (λ e, bool_decide (toNode e = to ∧ toInputIndex e = k))
                        (model_edges m)
              then (w, Some SlotOccupied)
              else if reachable (length (model_edges m)) (model_edges m) to from
              then (w, Some CycleDetected)
              else (put_model mp
                      (set_edges (model_edges m ++
                         [{| fromNode := from; toNode := to; toInputIndex := k |}]) m) w,
                    None)
          | _, _ => (w, Some NotFound)
          end
      | removeEdge from to k =>
          if existsb (λ e, bool_decide (fromNode e = from ∧ toNode e = to ∧ toInputIndex e = k))
               (model_edges m)
          then (put_model mp
                  (set_edges
                     (filter (λ e, ¬ (fromNode e = from ∧ toNode e = to ∧ toInputIndex e = k))
                        (model_edges m)) m) w, None)
          else (w, Some NotFound)
      | setParameter id v =>
          match find_node (w_nodes w) (model_vertices m) id with
          | None => (w, Some NotFound)
          | Some (l, n) => (set_nodes (<[l := set_parameters v n]> (w_nodes w)) w, None)
          end
      | registerChain c => (default w (addChain c mp w), None)
      | unregisterChain c => (default w (removeChain c mp w), None)
      end
  end.

(** Modelled from the spec: a run of edits, one after the other (edits are
    serialized, section 5), each on the model it names. *)
Definition mutate_all (muts : list (nat * Mutation)) (w : World) : World :=
  foldl (λ w' pm, (mutate pm.1 pm.2 w').1) w muts.

(** Modelled from the spec: the render snapshot that
    [Model::createCopyForRendering] returns, missing with Model.h.  It holds
    copies of the nodes, as objects of their own, and a copy of the edges. *)
Record ModelCopyForRendering := {
  copy_vertices : list nat;
  copy_edges : list Edge
}.

(** Modelled from the spec: the copying of the nodes, each to a fresh
    address, so that the copy aliases no node of the model (section 3). *)
Fixpoint copy_nodes (ls : list nat) (ns : gmap nat VideoNode)
    : gmap nat VideoNode * list nat :=
  match ls with
  | [] => (ns, [])
  | l :: ls' =>
      match ns !! l with
      | Some n =>
          let l' := fresh (dom ns) in
          let '(ns', cs) := copy_nodes ls' (<[l' := n]> ns) in
          (ns', l' :: cs)
      | None => copy_nodes ls' ns
      end
  end.

(** Modelled from the spec: [Model::createCopyForRendering], missing with
    Model.cpp.  The copy shares no object with the model. *)
Definition createCopyForRendering (chain : option nat) (mp : nat) (w : World)
    : option (World * ModelCopyForRendering) :=
  m ← w_models w !! mp;
  let '(ns, cs) := copy_nodes (model_vertices m) (w_nodes w) in
  Some (set_nodes ns w, {| copy_vertices := cs; copy_edges := model_edges m |}).

(** Modelled from the spec: the copy is discarded after the pass (section
    3); its node objects go away with it. *)
Definition discard (copy : ModelCopyForRendering) (w : World) : World :=
  set_nodes (foldr delete (w_nodes w) (copy_vertices copy)) w.


(** *** Evaluating a render copy *)

Section Evaluator.

(** What a node draws from its input textures on a chain, and the empty
    texture of a chain; both belong to the GPU side. *)
Variable paint : VideoNode → Chain → list Z → Z.
Variable blankTexture : Chain → Z.

(** Modelled from the spec: the readiness test of Kahn's algorithm.  A node
    is ready once every edge into it comes from a node that has been
    ordered, or from no node of the copy at all. *)
Definition ready (es : list Edge) (ordered ids : list Z) (n : VideoNode) : bool :=
  forallb (λ e, negb (bool_decide (toNode e = vn_id n)) ||
                bool_decide (fromNode e ∈ ordered) ||
                negb (bool_decide (fromNode e ∈ ids))) es.

(** Modelled from the spec: the tie-break, the candidate with the least
    identifier. *)
Definition least (cands : list (nat * VideoNode)) : option (nat * VideoNode) :=
  foldr (λ x acc, match acc with
                  | None => Some x
                  | Some y => if decide (vn_id x.2 ≤ vn_id y.2) then Some x else Some y
                  end) None cands.

(** Modelled from the spec: the topological order of section 4.4, by Kahn's
    algorithm, ties broken by node identifier.  It yields node addresses. *)
Fixpoint topo (fuel : nat) (es : list Edge) (ids : list Z)
    (remaining : list (nat * VideoNode)) (ordered : list Z) : list nat :=
  match fuel with
  | O => []
  | S fuel' =>
      match least (filter (λ x, ready es ordered ids x.2 = true) remaining) with
      | None => []
      | Some x =>
          x.1 :: topo fuel' es ids (filter (λ y, y.1 ≠ x.1) remaining) (vn_id x.2 :: ordered)
      end
  end.

(** Modelled from the spec: the texture on input [j] of node [id] (section
    4.4): the result of the upstream node, or the empty texture when the
    input is unconnected. *)
Definition input_texture (es : list Edge) (results : gmap Z Z) (blank : Z)
    (id : Z) (j : nat) : Z :=
  match find (λ e, bool_decide (toNode e = id ∧ toInputIndex e = j)) es with
  | Some e => default blank (results !! fromNode e)
  | None => blank
  end.

(** Modelled from the spec: the evaluation of one node, its result stored
    under the node's identifier. *)
Definition evaluate_node (ch : Chain) (es : list Edge) (n : VideoNode)
    (results : gmap Z Z) : gmap Z Z :=
  <[vn_id n :=
      paint n ch ((λ j, input_texture es results (blankTexture ch) (vn_id n) j)
                    <$> seq 0 (vn_inputCount n))]> results.

(** Modelled from the spec: the evaluation of the nodes at the addresses
    [order], one after the other, each read from the heap when its turn
    comes.  The edit timeline runs alongside: [during] gives, for each node in turn, the
    edits made to live models just before that node is evaluated. *)
Fixpoint evaluate (order : list nat) (during : list (list (nat * Mutation)))
    (es : list Edge) (c : nat) (w : World) (results : gmap Z Z) : option (gmap Z Z) :=
  match order with
  | [] => Some results
  | l :: order' =>
      let w' := mutate_all (hd [] during) w in
      n ← w_nodes w' !! l;
      ch ← w_chains w' !! c;
      evaluate order' (tl during) es c w' (evaluate_node ch es n results)
  end.

(** Modelled from the spec: the nodes of a copy as they are in the heap. *)
Definition load (copy : ModelCopyForRendering) (w : World) : list (nat * VideoNode) :=
  omap (λ l, (λ n, (l, n)) <$> w_nodes w !! l) (copy_vertices copy).

(** Modelled from the spec: a render pass of a copy (section 4.4) with edits
    going on: [before] are the edits made between the creation of the copy
    and the start of the pass. *)
Definition render_interleaved (copy : ModelCopyForRendering) (chain : option nat)
    (before : list (nat * Mutation)) (during : list (list (nat * Mutation)))
    (w : World) : option (gmap Z Z) :=
  let w0 := mutate_all before w in
  let nodes := load copy w0 in
  let order := topo (length nodes) (copy_edges copy) ((λ x, vn_id x.2) <$> nodes) nodes [] in
  c ← chain;
  evaluate order during (copy_edges copy) c w0 ∅.

(** Modelled from the spec: [ModelCopyForRendering::render], missing with
    Model.cpp: the pass of section 4.4, here with no edit going on.  The
    result maps node identifiers to textures. *)
Definition render (copy : ModelCopyForRendering) (chain : option nat) (w : World)
    : option (gmap Z Z) :=
  render_interleaved copy chain [] [] w.

End Evaluator.

(** *** QQuickPreviewAdapter *)

Record Adapter := {
  m_model : option nat;
  m_hasPreview : bool;
  m_previewSize : QSize;
  m_previewWindow : option nat;
  m_previewChain : option nat;
  m_lastPreviewRender : gmap Z Z;       (* QMap<int, GLuint> *)
  m_thread : nat                        (* QObject::thread() *)
}.

Definition set_model (m : option nat) (a : Adapter) : Adapter :=
  {| m_model := m; m_hasPreview := m_hasPreview a; m_previewSize := m_previewSize a;
     m_previewWindow := m_previewWindow a; m_previewChain := m_previewChain a;
     m_lastPreviewRender := m_lastPreviewRender a; m_thread := m_thread a |}.
Definition set_previewSize (s : QSize) (a : Adapter) : Adapter :=
  {| m_model := m_model a; m_hasPreview := m_hasPreview a; m_previewSize := s;
     m_previewWindow := m_previewWindow a; m_previewChain := m_previewChain a;
     m_lastPreviewRender := m_lastPreviewRender a; m_thread := m_thread a |}.
Definition set_previewWindow (win : option nat) (a : Adapter) : Adapter :=
  {| m_model := m_model a; m_hasPreview := m_hasPreview a; m_previewSize := m_previewSize a;
     m_previewWindow := win; m_previewChain := m_previewChain a;
     m_lastPreviewRender := m_lastPreviewRender a; m_thread := m_thread a |}.
Definition set_previewChain (c : option nat) (a : Adapter) : Adapter :=
  {| m_model := m_model a; m_hasPreview := m_hasPreview a; m_previewSize := m_previewSize a;
     m_previewWindow := m_previewWindow a; m_previewChain := c;
     m_lastPreviewRender := m_lastPreviewRender a; m_thread := m_thread a |}.
Definition set_lastPreviewRender (r : gmap Z Z) (a : Adapter) : Adapter :=
  {| m_model := m_model a; m_hasPreview := m_hasPreview a; m_previewSize := m_previewSize a;
     m_previewWindow := m_previewWindow a; m_previewChain := m_previewChain a;
     m_lastPreviewRender := r; m_thread := m_thread a |}.

(** What the adapter does that others can see, in program order: taking and
    releasing [m_previewLock], writing the members that lock guards, its
    calls into the model, the signals it emits, and its connections to the
    preview window. *)
Inductive Event :=
  | lock_previewLock
  | unlock_previewLock
  | write_previewSize (size : QSize)
  | write_previewChain (chain : option nat)
  | write_previewWindow (window : option nat)
  | call_removeChain (mp : nat) (chain : option nat)
  | call_addChain (mp : nat) (chain : option nat)
  | modelChanged (model : option nat)
  | previewSizeChanged (size : QSize)
  | previewWindowChanged (window : option nat)
  | connect_beforeSynchronizing (window : nat)
  | disconnect_beforeSynchronizing (window : nat).

Record State := {
  adapter : Adapter;
  world : World;
  trace : list Event
}.

(** [Q_ASSERT(cond)] in a debug build: a failed assertion aborts, which is a
    call that does not return.  Built with [QT_NO_DEBUG] the macro expands
    to nothing and the call goes on; the facts below are about calls whose
    assertions hold, where the two builds agree. *)
Definition Q_ASSERT (b : bool) : option unit := if b then Some () else None.

(** [QQuickPreviewAdapter::QQuickPreviewAdapter(bool hasPreview)], on the
    thread [thread]. *)
Definition QQuickPreviewAdapter (thread : nat) (hasPreview : bool) (w : World) : State :=
  let size := {| size_width := 300; size_height := 300 |} in
  let a := {| m_model := None; m_hasPreview := hasPreview; m_previewSize := size;
              m_previewWindow := None; m_previewChain := None;
              m_lastPreviewRender := ∅; m_thread := thread |} in
  if hasPreview then
    let '(c, w') := new_Chain size w in
    {| adapter := set_previewChain (Some c) a; world := w'; trace := [] |}
  else {| adapter := a; world := w; trace := [] |}.

(** [QQuickPreviewAdapter::~QQuickPreviewAdapter()]: what is left is the
    world and the trace. *)
Definition destroy (st : State) : option (World * list Event) :=
  let a := adapter st in
  match m_model a with
  | Some mp =>
      if m_hasPreview a then
        w ← removeChain (m_previewChain a) mp (world st);
        Some (w, trace st ++ [call_removeChain mp (m_previewChain a)])
      else Some (world st, trace st)
  | None => Some (world st, trace st)
  end.

(** [Model *QQuickPreviewAdapter::model()] *)
Definition model (caller : nat) (st : State) : option (option nat) :=
  Q_ASSERT (bool_decide (caller = m_thread (adapter st)));;
  Some (m_model (adapter st)).

(** [void QQuickPreviewAdapter::setModel(Model *model)] *)
Definition setModel (caller : nat) (model : option nat) (st : State) : option State :=
  let a := adapter st in
  Q_ASSERT (bool_decide (caller = m_thread a));;
  if decide (m_model a ≠ model) then
    '(w1, t1) ← match m_model a with
                | Some mp =>
                    if m_hasPreview a then
                      w ← removeChain (m_previewChain a) mp (world st);
                      Some (w, [call_removeChain mp (m_previewChain a)])
                    else Some (world st, [])
                | None => Some (world st, [])
                end;
    '(w2, t2) ← match model with
                | Some mp =>
                    if m_hasPreview a then
                      w ← addChain (m_previewChain a) mp w1;
                      Some (w, [call_addChain mp (m_previewChain a)])
                    else Some (w1, [])
                | None => Some (w1, [])
                end;
    Some {| adapter := set_model model a; world := w2;
            trace := trace st ++ t1 ++ t2 ++ [modelChanged model] |}
  else Some st.

(** [QSize QQuickPreviewAdapter::previewSize()] *)
Definition previewSize (st : State) : option (QSize * State) :=
  Q_ASSERT (m_hasPreview (adapter st));;
  Some (m_previewSize (adapter st),
        {| adapter := adapter st; world := world st;
           trace := trace st ++ [lock_previewLock; unlock_previewLock] |}).

(** [void QQuickPreviewAdapter::setPreviewSize(QSize size)] *)
Definition setPreviewSize (caller : nat) (size : QSize) (st : State) : option State :=
  let a := adapter st in
  Q_ASSERT (m_hasPreview a);;
  Q_ASSERT (bool_decide (caller = m_thread a));;
  if decide (size ≠ m_previewSize a) then
    let '(c, w1) := new_Chain size (world st) in
    '(w2, t) ← match m_model a with
               | Some mp =>
                   w ← removeChain (m_previewChain a) mp w1;
                   w' ← addChain (Some c) mp w;
                   Some (w', [call_removeChain mp (m_previewChain a);
                              call_addChain mp (Some c)])
               | None => Some (w1, [])
               end;
    Some {| adapter := set_previewChain (Some c) (set_previewSize size a);
            world := w2;
            trace := trace st ++ [lock_previewLock; write_previewSize size] ++ t ++
                     [write_previewChain (Some c); unlock_previewLock;
                      previewSizeChanged size] |}
  else Some st.

(** [QQuickWindow *QQuickPreviewAdapter::previewWindow()] *)
Definition previewWindow (st : State) : option nat := m_previewWindow (adapter st).

(** [void QQuickPreviewAdapter::setPreviewWindow(QQuickWindow *window)] *)
Definition setPreviewWindow (caller : nat) (window : option nat) (st : State)
    : option State :=
  let a := adapter st in
  Q_ASSERT (m_hasPreview a);;
  Q_ASSERT (bool_decide (caller = m_thread a));;
  Some {| adapter := set_previewWindow window a; world := world st;
          trace := trace st ++ [lock_previewLock] ++
                   match m_previewWindow a with
                   | Some old => [disconnect_beforeSynchronizing old]
                   | None => []
                   end ++ [write_previewWindow window] ++
                   match window with
                   | Some new => [connect_beforeSynchronizing new]
                   | None => []
                   end ++
                   [unlock_previewLock; previewWindowChanged window] |}.

Section Rendering.

Variable paint : VideoNode → Chain → list Z → Z.
Variable blankTexture : Chain → Z.

(** [void QQuickPreviewAdapter::onBeforeSynchronizing()]: copy the model,
    render the copy, keep the result; the copy is a local and goes away.  A
    null [m_model] is a crash. *)
Definition onBeforeSynchronizing (st : State) : option State :=
  let a := adapter st in
  Q_ASSERT (m_hasPreview a);;
  mp ← m_model a;
  '(w1, modelCopy) ← createCopyForRendering (m_previewChain a) mp (world st);
  result ← render paint blankTexture modelCopy (m_previewChain a) w1;
  Some {| adapter := set_lastPreviewRender result a;
          world := discard modelCopy w1;
          trace := trace st |}.

End Rendering.

(** [GLuint QQuickPreviewAdapter::previewTexture(int videoNodeId)]:
    [m_lastPreviewRender.value(videoNodeId, 0)]. *)
Definition previewTexture (videoNodeId : Z) (st : State) : option (Z * State) :=
  Q_ASSERT (m_hasPreview (adapter st));;
  Some (default 0 (m_lastPreviewRender (adapter st) !! videoNodeId), st).


(** *** Histories of calls *)

(** The calls on the adapter that do not render. *)
Inductive Call :=
  | do_setModel (caller : nat) (model : option nat)
  | do_setPreviewSize (caller : nat) (size : QSize)
  | do_setPreviewWindow (caller : nat) (window : option nat)
  | do_previewSize.

Definition run_call (c : Call) (st : State) : option State :=
  match c with
  | do_setModel caller m => setModel caller m st
  | do_setPreviewSize caller size => setPreviewSize caller size st
  | do_setPreviewWindow caller win => setPreviewWindow caller win st
  | do_previewSize => snd <$> previewSize st
  end.

Fixpoint run_calls (cs : list Call) (st : State) : option State :=
  match cs with
  | [] => Some st
  | c :: cs' => st' ← run_call c st; run_calls cs' st'
  end.

(** A call made on the adapter's thread, with a model pointer that is null
    or points to a model of the world [w]. *)
Definition good_call (thread : nat) (w : World) (c : Call) : Prop :=
  match c with
  | do_setModel caller m =>
      caller = thread ∧ ∀ mp, m = Some mp → is_Some (w_models w !! mp)
  | do_setPreviewSize caller _ => caller = thread
  | do_setPreviewWindow caller _ => caller = thread
  | do_previewSize => True
  end.

(** [chain] is in the registry of the model at [mp]. *)
Definition registered (chain : option nat) (mp : nat) (w : World) : Prop :=
  ∃ m, w_models w !! mp = Some m ∧ chain ∈ model_chains m.

(** The preview chain is registered with a model exactly when that model is
    the adapter's current one. *)
Definition chain_invariant (st : State) : Prop :=
  ∀ mp, registered (m_previewChain (adapter st)) mp (world st) ↔
        m_model (adapter st) = Some mp.

(** Shared pointers keep their target alive: every registered chain is a
    chain object of the heap. *)
Definition chains_allocated (w : World) : Prop :=
  ∀ mp m c, w_models w !! mp = Some m → Some c ∈ model_chains m →
            c ∈ dom (w_chains w).

(** Every node a model owns is a node object of the heap. *)
Definition nodes_allocated (w : World) : Prop :=
  ∀ mp m l, w_models w !! mp = Some m → l ∈ model_vertices m →
            l ∈ dom (w_nodes w).

(** What holds of an adapter with a preview and its world between calls. *)
Record adapter_ok (st : State) : Prop := {
  ok_hasPreview : m_hasPreview (adapter st) = true;
  ok_chain : ∃ c, m_previewChain (adapter st) = Some c ∧ c ∈ dom (w_chains (world st));
  ok_allocated : chains_allocated (world st);
  ok_model : ∀ mp, m_model (adapter st) = Some mp → is_Some (w_models (world st) !! mp);
  ok_registered : chain_invariant st
}.

(** The nodes at the addresses [ls] are allocated and owned by no model. *)
Definition copy_safe (ls : list nat) (w : World) : Prop :=
  ∀ l, l ∈ ls →
    is_Some (w_nodes w !! l) ∧
    ∀ mp m, w_models w !! mp = Some m → l ∉ model_vertices m.

(** [w'] has the nodes of [w] at the addresses [ls], and the chains of [w]. *)
Definition agree (ls : list nat) (w w' : World) : Prop :=
  (∀ l, l ∈ ls → w_nodes w' !! l = w_nodes w !! l) ∧ w_chains w' = w_chains w.

(** A small world: one model at address 0 with a source feeding an effect,
    the effect listed first. *)
Definition source_node : VideoNode :=
  {| vn_id := 10; vn_inputCount := 0; vn_parameters := 5; vn_cache := ∅ |}.
Definition effect_node : VideoNode :=
  {| vn_id := 11; vn_inputCount := 1; vn_parameters := 7; vn_cache := ∅ |}.
Definition demo_model : Model :=
  {| model_vertices := [0%nat; 1%nat];
     model_edges := [ {| fromNode := 10; toNode := 11; toInputIndex := 0 |} ];
     model_chains := ∅ |}.
Definition demo_world : World :=
  {| w_chains := ∅;
     w_nodes := {[ 0%nat := effect_node; 1%nat := source_node ]};
     w_models := {[ 0%nat := demo_model ]};
     w_nextId := 12 |}.
Definition demo_paint (n : VideoNode) (c : Chain) (inputs : list Z) : Z :=
  vn_id n * 1000 + vn_parameters n * 100 + foldr Z.add 0 inputs + size_width (chain_size c).
Definition demo_blank (c : Chain) : Z := 1.
Definition demo_chain_world : World :=
  (new_Chain {| size_width := 300; size_height := 300 |} demo_world).2.
Definition demo_edits_before : list (nat * Mutation) :=
  [ (0%nat, setParameter 10 99); (0%nat, removeNode 11) ].
Definition demo_edits_during : list (list (nat * Mutation)) :=
  [ [ (0%nat, addNode 1 1) ]; [ (0%nat, unregisterChain (Some 0%nat)) ] ].
Definition demo_attached : option State :=
  setModel 7 (Some 0%nat) (QQuickPreviewAdapter 7 true demo_world).
Definition demo_rendered : option State :=
  st ← demo_attached; onBeforeSynchronizing demo_paint demo_blank st.

(** *** Further notions for the facts below *)

(** Replay a trace against [m_previewLock]: [held] tells whether the lock is
    held.  The result is [None] when the trace takes the lock while it is
    held, releases it while it is free, writes a guarded member without
    holding it, or emits a signal while holding it; otherwise it tells
    whether the lock is held at the end. *)
Fixpoint replay_lock (held : bool) (t : list Event) : option bool :=
  match t with
  | [] => Some held
  | e :: t' =>
      match e with
      | lock_previewLock => if held then None else replay_lock true t'
      | unlock_previewLock => if held then replay_lock false t' else None
      | write_previewSize _ | write_previewChain _ | write_previewWindow _ =>
          if held then replay_lock held t' else None
      | modelChanged _ | previewSizeChanged _ | previewWindowChanged _ =>
          if held then None else replay_lock held t'
      | call_removeChain _ _ | call_addChain _ _
      | connect_beforeSynchronizing _ | disconnect_beforeSynchronizing _ =>
          replay_lock held t'
      end
  end.

(** The preview chain is a chain object of the preview size. *)
Definition chain_has_preview_size (st : State) : Prop :=
  ∃ c, m_previewChain (adapter st) = Some c ∧
       w_chains (world st) !! c = Some {| chain_size := m_previewSize (adapter st) |}.

End Preview.

(* ===================================================================== *)
(** ** Flickable: the surface that is dragged *)
(* ===================================================================== *)

Module Flickable.

(** JavaScript numbers are kept abstract: the type, the constants [0] and
    [0.5], [NaN] (which is what arithmetic on [undefined] gives), and the
    operations the class applies to numbers: [+], [-], [*], [Math.max],
    [Math.abs], [Math.sign] and [>]. *)
Class JsNumber (number : Type) := {
  num_zero : number;
  num_half : number;
  num_NaN : number;
  num_add : number → number → number;
  num_sub : number → number → number;
  num_mul : number → number → number;
  num_max : number → number → number;
  num_abs : number → number;
  num_sign : number → number;
  num_gt : number → number → bool
}.

(** The fields of the element.  The three flags and the data of the drag are
    [undefined] ([None]) until they are first assigned.  [transform] is the
    translation last written to [inner.style.transform]. *)
Record State (number : Type) := {
  offsetX : number;
  offsetY : number;
  dragging : option bool;
  mouseDrag : option bool;
  touchDrag : option bool;
  startDragX : option number;
  startDragY : option number;
  startDragOffsetX : option number;
  startDragOffsetY : option number;
  touchId : option Z;
  transform : option (number * number)
}.
Arguments offsetX {number}.
Arguments offsetY {number}.
Arguments dragging {number}.
Arguments mouseDrag {number}.
Arguments touchDrag {number}.
Arguments touchId {number}.
Arguments transform {number}.
Arguments startDragX {number}.
Arguments startDragY {number}.
Arguments startDragOffsetX {number}.
Arguments startDragOffsetY {number}.

(** What the layout reports when a handler runs. *)
Record Layout (number : Type) := {
  inner_offsetWidth : number;
  inner_offsetHeight : number;
  outer_clientWidth : number;
  outer_clientHeight : number
}.
Arguments inner_offsetWidth {number}.
Arguments inner_offsetHeight {number}.
Arguments outer_clientWidth {number}.
Arguments outer_clientHeight {number}.

(** A [Touch] of [changedTouches], with whether its target is [outer] or
    [inner]. *)
Record Touch (number : Type) := {
  identifier : Z;
  touch_on_surface : bool;
  touch_pageX : number;
  touch_pageY : number
}.
Arguments identifier {number}.
Arguments touch_on_surface {number}.
Arguments touch_pageX {number}.
Arguments touch_pageY {number}.

(** What can reach the element once it is connected: the six DOM events it
    listens for, and the callback of its [ResizeObserver].  [on_surface]
    says that [event.target] is [outer] or [inner]. *)
Inductive Event (number : Type) :=
  | mousedown (on_surface : bool) (buttons : Z) (pageX pageY : number)
  | mouseup (buttons : Z)
  | mousemove (pageX pageY : number)
  | touchstart (changedTouches : list (Touch number))
  | touchend (changedTouches : list (Touch number))
  | touchmove (changedTouches : list (Touch number))
  | resized.
Arguments mousedown {number}.
Arguments mouseup {number}.
Arguments mousemove {number}.
Arguments touchstart {number}.
Arguments touchend {number}.
Arguments touchmove {number}.
Arguments resized {number}.

Section Numbers.
Context {number : Type} `{!JsNumber number}.

(** A JavaScript value used as a condition. *)
Definition truthy (flag : option bool) : bool := default false flag.

(** The fields as [connectedCallback] leaves them. *)
Definition connected : State number :=
  {| offsetX := num_zero; offsetY := num_zero;
     dragging := None; mouseDrag := None; touchDrag := None;
     startDragX := None; startDragY := None;
     startDragOffsetX := None; startDragOffsetY := None;
     touchId := None; transform := None |}.

Definition set_offsets (x y : number) (s : State number) : State number :=
  {| offsetX := x; offsetY := y;
     dragging := dragging s; mouseDrag := mouseDrag s; touchDrag := touchDrag s;
     startDragX := startDragX s; startDragY := startDragY s;
     startDragOffsetX := startDragOffsetX s; startDragOffsetY := startDragOffsetY s;
     touchId := touchId s; transform := transform s |}.

Definition set_transform (t : number * number) (s : State number) : State number :=
  {| offsetX := offsetX s; offsetY := offsetY s;
     dragging := dragging s; mouseDrag := mouseDrag s; touchDrag := touchDrag s;
     startDragX := startDragX s; startDragY := startDragY s;
     startDragOffsetX := startDragOffsetX s; startDragOffsetY := startDragOffsetY s;
     touchId := touchId s; transform := Some t |}.

Definition set_dragging (b : bool) (s : State number) : State number :=
  {| offsetX := offsetX s; offsetY := offsetY s;
     dragging := Some b; mouseDrag := mouseDrag s; touchDrag := touchDrag s;
     startDragX := startDragX s; startDragY := startDragY s;
     startDragOffsetX := startDragOffsetX s; startDragOffsetY := startDragOffsetY s;
     touchId := touchId s; transform := transform s |}.

Definition set_mouseDrag (b : bool) (s : State number) : State number :=
  {| offsetX := offsetX s; offsetY := offsetY s;
     dragging := dragging s; mouseDrag := Some b; touchDrag := touchDrag s;
     startDragX := startDragX s; startDragY := startDragY s;
     startDragOffsetX := startDragOffsetX s; startDragOffsetY := startDragOffsetY s;
     touchId := touchId s; transform := transform s |}.

Definition set_touchDrag (b : bool) (s : State number) : State number :=
  {| offsetX := offsetX s; offsetY := offsetY s;
     dragging := dragging s; mouseDrag := mouseDrag s; touchDrag := Some b;
     startDragX := startDragX s; startDragY := startDragY s;
     startDragOffsetX := startDragOffsetX s; startDragOffsetY := startDragOffsetY s;
     touchId := touchId s; transform := transform s |}.

Definition set_touchId (id : Z) (s : State number) : State number :=
  {| offsetX := offsetX s; offsetY := offsetY s;
     dragging := dragging s; mouseDrag := mouseDrag s; touchDrag := touchDrag s;
     startDragX := startDragX s; startDragY := startDragY s;
     startDragOffsetX := startDragOffsetX s; startDragOffsetY := startDragOffsetY s;
     touchId := Some id; transform := transform s |}.

Definition set_startDrag (x y ox oy : number) (s : State number) : State number :=
  {| offsetX := offsetX s; offsetY := offsetY s;
     dragging := dragging s; mouseDrag := mouseDrag s; touchDrag := touchDrag s;
     startDragX := Some x; startDragY := Some y;
     startDragOffsetX := Some ox; startDragOffsetY := Some oy;
     touchId := touchId s; transform := transform s |}.

(** [applyTransformation()]. *)
Definition applyTransformation (dom : Layout number) (s : State number) : State number :=
  let rangeX := num_mul num_half (num_max num_zero (num_sub (inner_offsetWidth dom) (outer_clientWidth dom))) in
  let rangeY := num_mul num_half (num_max num_zero (num_sub (inner_offsetHeight dom) (outer_clientHeight dom))) in
  let x := if num_gt (num_abs (offsetX s)) rangeX then num_mul rangeX (num_sign (offsetX s)) else offsetX s in
  let y := if num_gt (num_abs (offsetY s)) rangeY then num_mul rangeY (num_sign (offsetY s)) else offsetY s in
  set_transform (x, y) (set_offsets x y s).

(** [startDrag(ptX, ptY)] and [endDrag()]. *)
Definition startDrag (ptX ptY : number) (s : State number) : State number :=
  set_startDrag ptX ptY (offsetX s) (offsetY s) (set_dragging true s).

Definition endDrag (s : State number) : State number := set_dragging false s.

(** [a + b - c] where [a] and [c] may be [undefined]. *)
Definition plus_minus (a : option number) (b : number) (c : option number) : number :=
  match a, c with
  | Some a, Some c => num_sub (num_add a b) c
  | _, _ => num_NaN
  end.

(** [drag(ptX, ptY)]. *)
Definition drag (dom : Layout number) (ptX ptY : number) (s : State number) : State number :=
  applyTransformation dom
    (set_offsets (plus_minus (startDragOffsetX s) ptX (startDragX s))
                 (plus_minus (startDragOffsetY s) ptY (startDragY s)) s).

(** The handlers give the new fields and whether [event.preventDefault()]
    was called.  [on_surface] says that [event.target] is [outer] or
    [inner]. *)
Definition mouseDown (on_surface : bool) (buttons : Z) (pageX pageY : number)
    (s : State number) : State number * bool :=
  if negb on_surface then (s, false)
  else if negb (truthy (dragging s)) && bool_decide (Z.land buttons 1 ≠ 0)
  then (startDrag pageX pageY (set_mouseDrag true s), true)
  else (s, false).

Definition mouseUp (buttons : Z) (s : State number) : State number * bool :=
  if truthy (dragging s) && truthy (mouseDrag s) && negb (bool_decide (Z.land buttons 1 ≠ 0))
  then (endDrag (set_mouseDrag false s), true)
  else (s, false).

Definition mouseMove (dom : Layout number) (pageX pageY : number) (s : State number) : State number * bool :=
  if truthy (dragging s) && truthy (mouseDrag s)
  then (drag dom pageX pageY s, true)
  else (s, false).

(** [this.touchId == touch.identifier]. *)
Definition same_touch (s : State number) (touch : Touch number) : bool :=
  bool_decide (touchId s = Some (identifier touch)).

Fixpoint touchStart (changedTouches : list (Touch number)) (s : State number) : State number * bool :=
  match changedTouches with
  | [] => (s, false)
  | touch :: rest =>
      if negb (touch_on_surface touch) then touchStart rest s
      else if negb (truthy (dragging s))
      then let (s', _) :=
             touchStart rest
               (startDrag (touch_pageX touch) (touch_pageY touch)
                  (set_touchId (identifier touch) (set_touchDrag true s))) in
           (s', true)
      else touchStart rest s
  end.

Fixpoint touchEnd (changedTouches : list (Touch number)) (s : State number) : State number * bool :=
  match changedTouches with
  | [] => (s, false)
  | touch :: rest =>
      if truthy (dragging s) && truthy (touchDrag s) && same_touch s touch
      then touchEnd rest (endDrag (set_touchDrag false s))
      else touchEnd rest s
  end.

Fixpoint touchMove (dom : Layout number) (changedTouches : list (Touch number)) (s : State number) : State number * bool :=
  match changedTouches with
  | [] => (s, false)
  | touch :: rest =>
      if truthy (dragging s) && truthy (touchDrag s) && same_touch s touch
      then touchMove dom rest (drag dom (touch_pageX touch) (touch_pageY touch) s)
      else touchMove dom rest s
  end.

Definition handle (dom : Layout number) (ev : Event number) (s : State number) : State number * bool :=
  match ev with
  | mousedown on_surface buttons pageX pageY => mouseDown on_surface buttons pageX pageY s
  | mouseup buttons => mouseUp buttons s
  | mousemove pageX pageY => mouseMove dom pageX pageY s
  | touchstart touches => touchStart touches s
  | touchend touches => touchEnd touches s
  | touchmove touches => touchMove dom touches s
  | resized => (applyTransformation dom s, false)
  end.

(** The fields after a run of events, each with the layout of its time. *)
Fixpoint run (evs : list (Layout number * Event number)) (s : State number) : State number :=
  match evs with
  | [] => s
  | (dom, ev) :: evs' => run evs' (fst (handle dom ev s))
  end.

(** *** Notions for the facts about the element *)

(** A drag is in progress exactly when the mouse or a touch drags, and the
    two never drag at once. *)
Definition flags_consistent (s : State number) : Prop :=
  truthy (dragging s) = xorb (truthy (mouseDrag s)) (truthy (touchDrag s)) ∧
  (truthy (mouseDrag s) && truthy (touchDrag s) = false) ∧
  (truthy (touchDrag s) = true → is_Some (touchId s)).

Definition is_mouse_event (ev : Event number) : Prop :=
  match ev with mousedown _ _ _ _ | mouseup _ | mousemove _ _ => True | _ => False end.

Definition is_touch_event (ev : Event number) : Prop :=
  match ev with touchstart _ | touchend _ | touchmove _ => True | _ => False end.

Definition touches_of (ev : Event number) : list (Touch number) :=
  match ev with
  | touchstart ts | touchend ts | touchmove ts => ts
  | _ => []
  end.

End Numbers.

Arguments truthy : simpl never.

(** Rational numbers, for the examples. *)
Definition Q_sign (a : Q) : Q :=
  match Qcompare a 0 with Lt => (-1)%Q | Eq => 0%Q | Gt => 1%Q end.
Definition Q_max (a b : Q) : Q := if Qle_bool a b then b else a.
Definition Q_abs (a : Q) : Q := if Qle_bool 0 a then a else Qopp a.
Definition Q_gt (a b : Q) : bool := negb (Qle_bool a b).
#[export] Instance Q_number : JsNumber Q :=
  {| num_zero := 0%Q; num_half := (1 # 2)%Q; num_NaN := 0%Q;
     num_add := Qplus; num_sub := Qminus; num_mul := Qmult;
     num_max := Q_max; num_abs := Q_abs; num_sign := Q_sign; num_gt := Q_gt |}.
Definition Q_layout : Layout Q :=
  {| inner_offsetWidth := 1000%Q; inner_offsetHeight := 600%Q;
     outer_clientWidth := 640%Q; outer_clientHeight := 480%Q |}.

End Flickable.

(* ===================================================================== *)
(** ** Facts about OutputWindow *)
(* ===================================================================== *)

Section OutputWindowFacts.
Import OutputWindow.

Lemma reload_unfold fuel screens w :
  reload (S fuel) screens w =
    '(w', fnd) ← reload_loop (setScreen fuel screens) screens w false;
    Some (reload_finish w' fnd).
Proof. reflexivity. Qed.

Lemma reload_loop_attached setS (s : QScreen) l w fnd :
  w_screen w = Some s →
  (∀ s', s' ∈ l → screen_name s' = m_screenName w → s' = s) →
  reload_loop setS l w fnd =
    Some (w, if decide (s ∈ l ∧ screen_name s = m_screenName w) then true else fnd).
Proof.
  intros Hat. revert fnd. induction l as [|h l IH]; intros fnd Huniq; cbn [reload_loop].
  - case_decide as H; [|done]. destruct H as [H _]. by apply elem_of_nil in H.
  - destruct (decide (screen_name h = m_screenName w)) as [Hn|Hn].
    + assert (h = s) as -> by (apply Huniq; [left | done]).
      destruct (decide (w_screen w ≠ Some s)); [done|]. simpl.
      rewrite IH by (intros; apply Huniq; [by right | done]).
      rewrite (decide_True (P := s ∈ s :: l ∧ _)) by (split; [left | done]).
      by case_decide.
    + rewrite IH by (intros; apply Huniq; [by right | done]).
      destruct (decide (s ∈ l ∧ _)) as [[Hl Hs]|Hl];
        destruct (decide (s ∈ h :: l ∧ _)) as [[Hl' Hs']|Hl']; try done.
      * exfalso. apply Hl'. split; [by right | done].
      * exfalso. apply elem_of_cons in Hl' as [->|?]; [done | by apply Hl].
Qed.

Lemma reload_loop_attach setS (s : QScreen) l w w2 fnd :
  screen_name s = m_screenName w →
  s ∈ l →
  (∀ s', s' ∈ l → screen_name s' = m_screenName w → s' = s) →
  w_screen w ≠ Some s →
  setS s w = Some w2 →
  w_screen w2 = Some s →
  m_screenName w2 = m_screenName w →
  reload_loop setS l w fnd = Some (w2, true).
Proof.
  intros Hn Hin Huniq Hne HS Hat2 Hn2. revert fnd Hin Huniq.
  induction l as [|h l IH]; intros fnd Hin Huniq; cbn [reload_loop].
  - by apply elem_of_nil in Hin.
  - destruct (decide (screen_name h = m_screenName w)) as [Hh|Hh].
    + assert (h = s) as -> by (apply Huniq; [left | done]).
      destruct (decide (w_screen w ≠ Some s)); [|done]. rewrite HS. simpl.
      rewrite (reload_loop_attached _ s); [by case_decide | done |].
      intros s' ??; apply Huniq; [by right | congruence].
    + apply IH.
      * apply elem_of_cons in Hin as [->|?]; [congruence | done].
      * intros; apply Huniq; [by right | done].
Qed.

Lemma reload_loop_absent setS l w fnd :
  (∀ s', s' ∈ l → screen_name s' ≠ m_screenName w) →
  reload_loop setS l w fnd = Some (w, fnd).
Proof.
  revert fnd. induction l as [|h l IH]; intros fnd Hno; cbn [reload_loop]; [done|].
  rewrite decide_False by (apply Hno; left).
  apply IH. intros; apply Hno; by right.
Qed.

Lemma reload_loop_stuck setS (n : string) l w fnd :
  (∀ s w, m_screenName w = n → w_screen w ≠ Some s → setS s w = None) →
  m_screenName w = n →
  (∃ t, t ∈ l ∧ screen_name t = n ∧ w_screen w ≠ Some t) →
  reload_loop setS l w fnd = None.
Proof.
  intros HS Hn. revert fnd.
  induction l as [|h l IH]; intros fnd (t & Hin & Ht & Hne); cbn [reload_loop].
  - by apply elem_of_nil in Hin.
  - destruct (decide (screen_name h = m_screenName w)) as [Hh|Hh].
    + destruct (decide (w_screen w ≠ Some h)) as [Hat|Hat]; simpl.
      * by rewrite HS.
      * apply IH. exists t. split_and!; try done.
        apply elem_of_cons in Hin as [->|?]; [|done].
        by apply dec_stable in Hat.
    + apply IH. exists t. split_and!; try done.
      apply elem_of_cons in Hin as [->|?]; [congruence | done].
Qed.

(** With two different screens of the configured name among the available
    ones, [reload] does not return, whatever the nesting depth allowed. *)
Lemma reload_two_matches (s1 s2 : QScreen) screens w :
  s1 ∈ screens → s2 ∈ screens → s1 ≠ s2 →
  screen_name s1 = m_screenName w → screen_name s2 = m_screenName w →
  ∀ fuel, reload fuel screens w = None.
Proof.
  intros H1 H2 Hne Hn1 Hn2 fuel. revert w Hn1 Hn2.
  induction fuel as [|fuel IH]; intros w Hn1 Hn2; [done|].
  rewrite reload_unfold.
  rewrite (reload_loop_stuck _ (m_screenName w)); [done | | done |].
  - intros s w' Hw' Hat. unfold setScreen.
    rewrite decide_False by done. simpl.
    rewrite IH; [done | simpl; congruence ..].
  - destruct (decide (w_screen w = Some s1)) as [Hat|Hat].
    + exists s2. split_and!; [done | done | congruence].
    + by exists s1.
Qed.


(** *** What a poll leaves alone *)

Lemma poll_frame_refl w : poll_frame w w.
Proof. repeat split. exists []. by rewrite app_nil_r. Qed.

Lemma poll_frame_trans w1 w2 w3 :
  poll_frame w1 w2 → poll_frame w2 w3 → poll_frame w1 w3.
Proof.
  intros (?&?&?&?&ev1&E1&N1) (?&?&?&?&ev2&E2&N2).
  repeat split; try congruence.
  exists (ev1 ++ ev2). rewrite E2, E1, <-app_assoc. split; [done|].
  unfold screenNameChanged_of in *. by rewrite omap_app, N1, N2.
Qed.

Lemma poll_frame_finish w fnd : poll_frame w (reload_finish w fnd).
Proof.
  unfold reload_finish. case_decide; [|apply poll_frame_refl].
  repeat split. by exists [foundChanged fnd].
Qed.

Lemma poll_frame_putOnScreen w w' : putOnScreen w = Some w' → poll_frame w w'.
Proof.
  unfold putOnScreen. destruct (w_screen w); [|done]. intros [= <-].
  repeat split. exists []. by rewrite app_nil_r.
Qed.

Lemma reload_loop_frame setS l w fnd w' fnd' :
  (∀ s v v', setS s v = Some v' → poll_frame v v') →
  reload_loop setS l w fnd = Some (w', fnd') → poll_frame w w'.
Proof.
  intros HS. revert w fnd. induction l as [|h l IH]; intros w fnd; cbn [reload_loop].
  - intros [= <- <-]. apply poll_frame_refl.
  - case_decide; [|by apply IH].
    case_decide.
    + destruct (setS h w) as [v|] eqn:E; [|done]. simpl. intros Hl.
      eapply poll_frame_trans; [by eapply HS | by eapply IH].
    + simpl. apply IH.
Qed.

Lemma setScreen_frame fuel screens s w w' :
  (∀ v v', reload fuel screens v = Some v' → poll_frame v v') →
  setScreen fuel screens s w = Some w' → poll_frame w w'.
Proof.
  intros IH. unfold setScreen. case_decide.
  - intros [= <-]. apply poll_frame_refl.
  - simpl. destruct (reload fuel screens _) as [v|] eqn:E; [|done]. simpl.
    intros Hp. apply IH in E. apply poll_frame_putOnScreen in Hp.
    eapply poll_frame_trans; [|exact Hp].
    eapply poll_frame_trans; [|exact E].
    repeat split. by exists [screenChanged s].
Qed.

Lemma reload_frame fuel screens w w' :
  reload fuel screens w = Some w' → poll_frame w w'.
Proof.
  revert w w'. induction fuel as [|fuel IH]; intros w w'; [done|].
  rewrite reload_unfold.
  destruct (reload_loop _ _ _ _) as [[v fnd]|] eqn:E; [|done]. simpl.
  intros [= <-].
  eapply poll_frame_trans; [|apply poll_frame_finish].
  eapply reload_loop_frame; [|exact E].
  intros. by eapply setScreen_frame.
Qed.

(** *** Polls that return *)

Lemma reload_absent fuel screens w :
  (∀ s, s ∈ screens → screen_name s ≠ m_screenName w) →
  reload (S fuel) screens w = Some (reload_finish w false).
Proof. intros Hno. rewrite reload_unfold. by rewrite reload_loop_absent. Qed.

Lemma reload_attached fuel screens (s : QScreen) w :
  w_screen w = Some s → s ∈ screens → screen_name s = m_screenName w →
  (∀ s', s' ∈ screens → screen_name s' = m_screenName w → s' = s) →
  reload (S fuel) screens w = Some (reload_finish w true).
Proof.
  intros Hat Hin Hn Huniq. rewrite reload_unfold.
  rewrite (reload_loop_attached _ s) by done.
  by rewrite decide_True.
Qed.

Lemma reload_attach fuel screens (s : QScreen) w :
  w_screen w ≠ Some s → s ∈ screens → screen_name s = m_screenName w →
  (∀ s', s' ∈ screens → screen_name s' = m_screenName w → s' = s) →
  reload (S (S fuel)) screens w =
    Some (setGeometry (screen_geometry s)
            (reload_finish (emit (screenChanged s) (set_screen (Some s) w)) true)).
Proof.
  intros Hat Hin Hn Huniq. rewrite reload_unfold.
  set (w1 := emit (screenChanged s) (set_screen (Some s) w)).
  set (w2 := setGeometry (screen_geometry s) (reload_finish w1 true)).
  assert (w_screen (reload_finish w1 true) = Some s) as Hs1.
  { unfold reload_finish. by case_decide. }
  assert (m_found (reload_finish w1 true) = true) as Hf1.
  { unfold reload_finish. by case_decide. }
  assert (m_screenName (reload_finish w1 true) = m_screenName w) as Hn1.
  { unfold reload_finish. by case_decide. }
  rewrite (reload_loop_attach _ s _ _ w2); try done.
  - simpl. unfold reload_finish at 1. rewrite decide_False; [done|].
    intros Hf. apply Hf. unfold w2. cbn [m_found setGeometry]. by rewrite Hf1.
  - unfold setScreen. rewrite decide_False by done. cbv zeta. fold w1.
    rewrite (reload_attached _ _ s) by done. cbn [mbind option_bind].
    unfold putOnScreen. by rewrite Hs1.
Qed.


Lemma foundChanged_of_finish w fnd :
  foundChanged_of (emitted (reload_finish w fnd)) =
    foundChanged_of (emitted w) ++ (if decide (fnd = m_found w) then [] else [fnd]).
Proof.
  unfold reload_finish. case_decide as H.
  - rewrite decide_False by done. cbn [emitted emit set_found].
    unfold foundChanged_of. by rewrite omap_app.
  - rewrite decide_True by done. by rewrite app_nil_r.
Qed.

Lemma m_found_finish w fnd : m_found (reload_finish w fnd) = fnd.
Proof. unfold reload_finish. by case_decide. Qed.

(** A poll in an environment where at most one screen bears the configured
    name returns, leaves [found()] equal to the availability of the name, and
    emits [foundChanged] exactly when that value is new. *)
Lemma reload_found_iff fuel screens w :
  (∀ s1 s2, s1 ∈ screens → s2 ∈ screens →
     screen_name s1 = m_screenName w → screen_name s2 = m_screenName w → s1 = s2) →
  ∃ w', reload (S (S fuel)) screens w = Some w' ∧
        found w' = name_available (m_screenName w) screens ∧
        foundChanged_of (emitted w') =
          foundChanged_of (emitted w) ++
          (if decide (name_available (m_screenName w) screens = m_found w) then []
           else [name_available (m_screenName w) screens]).
Proof.
  intros Huniq. unfold name_available, found.
  destruct (decide (Exists (λ s, screen_name s = m_screenName w) screens)) as [Hex|Hex].
  - rewrite (bool_decide_eq_true_2 _ Hex).
    apply Exists_exists in Hex as (s & Hin & Hn).
    assert (∀ s', s' ∈ screens → screen_name s' = m_screenName w → s' = s) as Hs
      by (intros; by apply Huniq).
    destruct (decide (w_screen w = Some s)) as [Hat|Hat].
    + eexists. split; [by apply (reload_attached _ _ s)|].
      split; [apply m_found_finish | apply foundChanged_of_finish].
    + eexists. split; [by apply (reload_attach _ _ s)|].
      split; [apply m_found_finish|]. cbn [emitted setGeometry].
      rewrite foundChanged_of_finish. simpl.
      unfold foundChanged_of at 1. by rewrite omap_app, app_nil_r.
  - rewrite (bool_decide_eq_false_2 _ Hex).
    eexists. split; [apply reload_absent|].
    + intros s Hin Hn. apply Hex, Exists_exists. eauto.
    + split; [apply m_found_finish | apply foundChanged_of_finish].
Qed.

(** The constructor leaves a running, repeating timer of 1000 ms whose expiry
    calls [reload], and nothing a poll does changes that. *)
Lemma constructor_timer fuel screens primary geom0 w :
  OutputWindow fuel screens primary geom0 = Some w →
  timer_interval (m_reloader w) = 1000 ∧ timer_active (m_reloader w) = true ∧
  timer_singleShot (m_reloader w) = false ∧
  timer_timeout (m_reloader w) = [slot_reload] ∧
  m_screenName w = "" ∧
  ∀ fuel' screens', timeout fuel' screens' w = reload fuel' screens' w.
Proof.
  unfold OutputWindow. destruct primary as [p|]; [|done]. cbn [mbind option_bind putOnScreen w_screen setWindowState setFlags].
  destruct (reload fuel screens _) as [w3|] eqn:E; [|done].
  apply reload_frame in E as (Hn & Hr & _). simpl in Hn, Hr.
  intros [= <-]. cbn. rewrite Hr. cbn. split_and!; try done.
Qed.

Lemma timeout_reload fuel screens w :
  timer_timeout (m_reloader w) = [slot_reload] →
  timeout fuel screens w = reload fuel screens w.
Proof. unfold timeout. by intros ->. Qed.


(** C2.  A window built by the constructor, configured for "HDMI-1" while
    only the laptop panel is there, then bound by a timer poll once a screen
    of that name appears: [found()] is true.  When a second screen of the
    same name appears, the next timer poll never returns: each [setScreen]
    re-enters [reload] through [screenChanged], which finds the other screen
    of that name and calls [setScreen] again.  So after that poll there is no
    value of [found()] at all, where the claim wants it true. *)
Theorem C2_poll_diverges_on_shared_name :
  ∃ w, bound_window = Some w ∧ found w = true ∧ w_screen w = Some hdmi_a ∧
       timer_interval (m_reloader w) = 1000 ∧ timer_active (m_reloader w) = true ∧
       timer_singleShot (m_reloader w) = false ∧
       name_available (screenName w) [laptop; hdmi_a; hdmi_b] = true ∧
       ∀ fuel, timeout fuel [laptop; hdmi_a; hdmi_b] w = None.
Proof.
  eexists. split; [vm_compute; reflexivity|].
  split_and!; try reflexivity.
  intros fuel. rewrite timeout_reload by reflexivity.
  apply (reload_two_matches hdmi_a hdmi_b); try reflexivity.
  - set_solver.
  - set_solver.
  - discriminate.
Qed.

(** With a single available screen [s] of the configured name, which is
    another screen object than the one the window is on, the poll returns
    with the window attached to [s] and its geometry equal to the geometry
    [s] reports. *)
Lemma reload_attaches_single_match screens w (s : QScreen) fuel :
  s ∈ screens →
  screen_name s = screenName w →
  (∀ s', s' ∈ screens → screen_name s' = screenName w → s' = s) →
  screen_ptr <$> w_screen w ≠ Some (screen_ptr s) →
  ∃ w', reload (S (S fuel)) screens w = Some w' ∧
        w_screen w' = Some s ∧
        w_geometry w' = screen_geometry s.
Proof.
  intros Hin Hn Huniq Hptr.
  assert (w_screen w ≠ Some s) as Hat by (intros Heq; apply Hptr; by rewrite Heq).
  eexists. split; [by apply reload_attach|].
  split; [|done]. cbn [w_screen setGeometry]. unfold reload_finish. by case_decide.
Qed.

(** The loop of [reload] does call [setScreen(hdmi_b)]: run on its own, with
    a [setScreen] that stores the screen, emits [screenChanged] and lets
    [putOnScreen] run but does not re-enter [reload], it ends with the
    window attached to [hdmi_b], with that screen's geometry, and the local
    [found] true. *)
Lemma reload_loop_alone_attaches :
  ∃ w w', bound_window = Some w ∧
          reload_loop (λ s w0, putOnScreen (emit (screenChanged s) (set_screen (Some s) w0)))
            [laptop; hdmi_a; hdmi_b] w false = Some (w', true) ∧
          w_screen w' = Some hdmi_b ∧ w_geometry w' = screen_geometry hdmi_b.
Proof.
  eexists _, _. split; [vm_compute; reflexivity|].
  split; [vm_compute; reflexivity|]. split; reflexivity.
Qed.

(** C8.  A window built by the constructor, configured for "HDMI-1" and
    attached to the screen object [hdmi_a] of that name, is polled while the
    available screens are three distinct objects, [laptop], [hdmi_a] and
    [hdmi_b], the last two both named "HDMI-1".  The poll finds [hdmi_b],
    whose name is the configured one and to which the window is not
    attached.  The claim wants the window attached to [hdmi_b] with its
    geometry.  The poll never returns, whatever nesting depth is allowed, so
    no run of it ends with the window attached to [hdmi_b]. *)
Theorem C8_poll_never_attaches_on_shared_name :
  ∃ w, bound_window = Some w ∧
       NoDup (screen_ptr <$> [laptop; hdmi_a; hdmi_b]) ∧
       hdmi_b ∈ [laptop; hdmi_a; hdmi_b] ∧
       screen_name hdmi_b = screenName w ∧
       screen_ptr <$> w_screen w ≠ Some (screen_ptr hdmi_b) ∧
       (∀ fuel, reload fuel [laptop; hdmi_a; hdmi_b] w = None) ∧
       ¬ ∃ fuel w', reload fuel [laptop; hdmi_a; hdmi_b] w = Some w' ∧
                    w_screen w' = Some hdmi_b ∧
                    w_geometry w' = screen_geometry hdmi_b.
Proof.
  assert (∀ w, screenName w = "HDMI-1" →
               ∀ fuel, reload fuel [laptop; hdmi_a; hdmi_b] w = None) as Hnone.
  { intros w Hn fuel. unfold screenName in Hn.
    apply (reload_two_matches hdmi_a hdmi_b);
      [set_solver | set_solver | discriminate | by rewrite Hn | by rewrite Hn]. }
  eexists. split; [vm_compute; reflexivity|].
  split_and!.
  - cbn. apply (bool_decide_unpack _). by vm_compute.
  - set_solver.
  - reflexivity.
  - discriminate.
  - by apply Hnone.
  - intros (fuel & w' & Hr & _). by rewrite Hnone in Hr.
Qed.

(** C10.  [setScreenName] with the configured name returns the window as it
    was, whatever the screens and without running [reload] (no fuel is
    needed).  With another name it is [reload] run on the window with the
    name stored and [screenNameChanged] emitted; whatever that poll returns
    still has the new name, the timer, flags and window state of before, and
    exactly one more [screenNameChanged] in its log, carrying the new name. *)
Theorem C10_setScreenName_frame fuel screens w n :
  setScreenName fuel screens (screenName w) w = Some w ∧
  (n ≠ screenName w →
     setScreenName fuel screens n w =
       reload fuel screens (emit (screenNameChanged n) (set_screenName n w)) ∧
     ∀ w', setScreenName fuel screens n w = Some w' →
       screenName w' = n ∧ m_reloader w' = m_reloader w ∧
       w_flags w' = w_flags w ∧ w_windowState w' = w_windowState w ∧
       screenNameChanged_of (emitted w') = screenNameChanged_of (emitted w) ++ [n]).
Proof.
  unfold screenName, setScreenName. split; [by rewrite decide_False by (by intros ?)|].
  intros Hne. rewrite decide_True by done. split; [done|].
  intros w' (Hn & Hr & Hf & Hs & ev & Hev & Hnone)%reload_frame.
  simpl in *. split_and!; try done.
  rewrite Hev. unfold screenNameChanged_of in *.
  by rewrite !omap_app, Hnone, app_nil_r.
Qed.

Lemma C10_setScreenName_witness :
  ∃ w, OutputWindow 1 [laptop] (Some laptop) geom_laptop = Some w ∧
  setScreenName 0 [] "" w = Some w ∧
  ∃ w', setScreenName 2 [laptop; hdmi_a] "HDMI-1" w = Some w' ∧
        screenName w' = "HDMI-1" ∧
        screenNameChanged_of (emitted w') = ["HDMI-1"%string].
Proof.
  eexists. split; [vm_compute; reflexivity|].
  match goal with |- setScreenName _ _ _ ?w = _ ∧ _ =>
    destruct (C10_setScreenName_frame 0 [] w "") as [Hsame _];
    destruct (C10_setScreenName_frame 2 [laptop; hdmi_a] w "HDMI-1") as [_ Hdiff]
  end.
  split; [exact Hsame|].
  destruct Hdiff as [_ Hpost]; [discriminate|].
  eexists. split; [vm_compute; reflexivity|].
  edestruct Hpost as (Hn & _ & _ & _ & Hlog); [vm_compute; reflexivity|].
  split; [exact Hn | exact Hlog].
Defined.

End OutputWindowFacts.

(* ===================================================================== *)
(** ** Facts about the edge loop *)
(* ===================================================================== *)

Section GraphFacts.
Import Graph.

Lemma processEdge_Ok st edge st' :
  processEdge st edge = Ok st' →
  ∃ inputs,
    0 ≤ toVertex edge ∧ 0 ≤ toInput edge ∧
    upstreamNodeVertices st !! Z.to_nat (toVertex edge) = Some inputs ∧
    inputs !! Z.to_nat (toInput edge) = Some None ∧
    st' = {| upstreamNodeVertices :=
               <[Z.to_nat (toVertex edge) :=
                   <[Z.to_nat (toInput edge) := Some (fromVertex edge)]> inputs]>
                 (upstreamNodeVertices st);
             startNodeVertices :=
               remove_first (fromVertex edge) (startNodeVertices st) |}.
Proof.
  unfold processEdge, js_index.
  destruct (decide (0 ≤ toVertex edge)) as [Hv|]; [|done].
  destruct (upstreamNodeVertices st !! _) as [inputs|] eqn:Hin; [|done].
  destruct (decide (Z.of_nat (length inputs) ≤ _)); [done|].
  destruct (decide (0 ≤ toInput edge)) as [Hi|]; [|done].
  destruct (inputs !! _) as [[u|]|] eqn:Hs; try done.
  intros [= <-]. by exists inputs.
Qed.

Lemma processEdge_shape st edge st' :
  processEdge st edge = Ok st' → shape st' = shape st.
Proof.
  intros (inputs & _ & _ & Hin & _ & ->)%processEdge_Ok. unfold shape. simpl.
  rewrite list_fmap_insert, length_insert.
  apply list_insert_id. by rewrite list_lookup_fmap, Hin.
Qed.

Lemma processEdges_shape es st st' :
  processEdges st es = Ok st' → shape st' = shape st.
Proof.
  revert st. induction es as [|e es IH]; intros st; simpl; [by intros [= <-]|].
  destruct (processEdge st e) as [st1|] eqn:E; [|done].
  intros ->%IH. by eapply processEdge_shape.
Qed.

Lemma shape_init m : shape (init m) = nInputs <$> vertices m.
Proof.
  unfold shape, init. simpl. rewrite <-list_fmap_compose.
  apply list_fmap_ext. intros _ v _. simpl. apply length_replicate.
Qed.

Lemma processEdges_app es1 es2 st :
  processEdges st (es1 ++ es2) =
    match processEdges st es1 with
    | Ok st' => processEdges st' es2
    | Throw e => Throw e
    end.
Proof.
  revert st. induction es1 as [|e es1 IH]; intros st; simpl; [done|].
  by destruct (processEdge st e).
Qed.

(** A slot that holds an upstream vertex keeps it. *)
Lemma processEdge_keeps st edge st' v i u :
  slot st v i = Some (Some u) →
  processEdge st edge = Ok st' →
  slot st' v i = Some (Some u).
Proof.
  intros Hs (inputs & Hv & Hi & Hin & Hnull & ->)%processEdge_Ok.
  revert Hs. unfold slot, js_index. simpl.
  destruct (decide (0 ≤ v)); [|done].
  destruct (decide (Z.to_nat v = Z.to_nat (toVertex edge))) as [Ev|Ev].
  - rewrite Ev, Hin, list_lookup_insert_eq by (by eapply lookup_lt_Some). simpl.
    destruct (decide (0 ≤ i)); [|done].
    destruct (decide (Z.to_nat i = Z.to_nat (toInput edge))) as [Ei|Ei].
    + rewrite Ei, Hnull. done.
    + by rewrite list_lookup_insert_ne.
  - by rewrite list_lookup_insert_ne.
Qed.

Lemma processEdges_keeps es st st' v i u :
  slot st v i = Some (Some u) →
  processEdges st es = Ok st' →
  slot st' v i = Some (Some u).
Proof.
  revert st. induction es as [|e es IH]; intros st Hs; simpl; [by intros [= <-]|].
  destruct (processEdge st e) as [st1|] eqn:E; [|done].
  apply IH. by eapply processEdge_keeps.
Qed.

(** An edge that is accepted fills its slot. *)
Lemma processEdge_fills st edge st' :
  processEdge st edge = Ok st' →
  slot st (toVertex edge) (toInput edge) = Some None ∧
  slot st' (toVertex edge) (toInput edge) = Some (Some (fromVertex edge)).
Proof.
  intros (inputs & Hv & Hi & Hin & Hnull & ->)%processEdge_Ok.
  unfold slot, js_index. simpl. rewrite !decide_True by done.
  rewrite Hin, list_lookup_insert_eq by (by eapply lookup_lt_Some). simpl.
  rewrite !decide_True by done.
  by rewrite Hnull, list_lookup_insert_eq by (by eapply lookup_lt_Some).
Qed.

(** An edge into a slot that already holds a vertex is refused. *)
Lemma processEdge_occupied st edge u :
  slot st (toVertex edge) (toInput edge) = Some (Some u) →
  processEdge st edge = Throw (MultipleUpstream (toVertex edge) (toInput edge)).
Proof.
  unfold slot, processEdge.
  destruct (js_index (upstreamNodeVertices st) _) as [inputs|]; [|done]. simpl.
  intros Hs. rewrite Hs.
  rewrite decide_False; [done|].
  revert Hs. unfold js_index. case_decide; [|done].
  intros ?%lookup_lt_Some. lia.
Qed.

(** C4.  When the edge list holds two edges into the same
    [(toVertex, toInput)], the loop throws.  If it gets as far as the second
    of them, the slot then holds the first edge's [fromVertex], the second
    edge is refused with the multiple-upstream error without being stored,
    and that error is what the loop throws. *)
Theorem C4_second_edge_into_a_slot_is_refused m pre e1 mid e2 post :
  edges m = pre ++ e1 :: mid ++ e2 :: post →
  toVertex e1 = toVertex e2 →
  toInput e1 = toInput e2 →
  (∃ err, modelChanged_edges m = Throw err) ∧
  (∀ st, processEdges (init m) (pre ++ e1 :: mid) = Ok st →
     slot st (toVertex e2) (toInput e2) = Some (Some (fromVertex e1)) ∧
     processEdge st e2 = Throw (MultipleUpstream (toVertex e2) (toInput e2)) ∧
     modelChanged_edges m = Throw (MultipleUpstream (toVertex e2) (toInput e2))).
Proof.
  intros Hes Hv Hi.
  assert (∀ st, processEdges (init m) (pre ++ e1 :: mid) = Ok st →
     slot st (toVertex e2) (toInput e2) = Some (Some (fromVertex e1))) as Hslot.
  { intros st. rewrite processEdges_app. simpl.
    destruct (processEdges (init m) pre) as [st0|]; [|done].
    destruct (processEdge st0 e1) as [st1|] eqn:E1; [|done].
    apply processEdges_keeps. rewrite <-Hv, <-Hi.
    by apply processEdge_fills in E1 as [_ ?]. }
  assert (modelChanged_edges m =
    match processEdges (init m) (pre ++ e1 :: mid) with
    | Ok st => match processEdge st e2 with
               | Ok st' => processEdges st' post
               | Throw e => Throw e
               end
    | Throw e => Throw e
    end) as Hrun.
  { unfold modelChanged_edges. rewrite Hes.
    replace (pre ++ e1 :: mid ++ e2 :: post) with ((pre ++ e1 :: mid) ++ e2 :: post)
      by (by rewrite <-app_assoc).
    by rewrite processEdges_app. }
  split.
  - rewrite Hrun. destruct (processEdges _ (pre ++ _)) as [st|err] eqn:E; [|by eauto].
    rewrite (processEdge_occupied _ _ (fromVertex e1)) by by apply Hslot. by eauto.
  - intros st Hst. pose proof (Hslot _ Hst) as Hs.
    split_and!; [done | by eapply processEdge_occupied |].
    rewrite Hrun, Hst. by rewrite (processEdge_occupied _ _ (fromVertex e1)).
Qed.


Lemma C4_second_edge_witness :
  modelChanged_edges demo_two_into_one = Throw (MultipleUpstream 2 0) ∧
  ∃ st, processEdges (init demo_two_into_one)
          [ {| fromVertex := 0; toVertex := 2; toInput := 0 |} ] = Ok st ∧
        slot st 2 0 = Some (Some 0).
Proof.
  destruct (C4_second_edge_into_a_slot_is_refused demo_two_into_one
              [] {| fromVertex := 0; toVertex := 2; toInput := 0 |}
              [] {| fromVertex := 1; toVertex := 2; toInput := 0 |} [])
    as [_ Hsecond]; [reflexivity | reflexivity | reflexivity |].
  edestruct Hsecond as (Hslot & _ & Hrun); [reflexivity|].
  split; [exact Hrun|]. eexists. split; [reflexivity | exact Hslot].
Defined.

(** An edge whose input index is at or beyond the length of its destination's
    input array is refused. *)
Lemma processEdge_beyond st edge inputs :
  js_index (upstreamNodeVertices st) (toVertex edge) = Some inputs →
  Z.of_nat (length inputs) ≤ toInput edge →
  processEdge st edge = Throw (NonexistentInput (toInput edge) (toVertex edge)).
Proof. unfold processEdge. intros -> ?. by rewrite decide_True. Qed.

Lemma js_index_shape st st0 (vs : list Vertex) k node :
  shape st0 = nInputs <$> vs → shape st = shape st0 →
  js_index vs k = Some node →
  ∃ inputs, js_index (upstreamNodeVertices st) k = Some inputs ∧
            length inputs = nInputs node.
Proof.
  unfold js_index, shape. intros H0 Hst. case_decide; [|done]. intros Hk.
  assert ((length <$> upstreamNodeVertices st) !! Z.to_nat k = Some (nInputs node)) as Hl
    by (by rewrite Hst, H0, list_lookup_fmap, Hk).
  rewrite list_lookup_fmap in Hl.
  destruct (upstreamNodeVertices st !! Z.to_nat k) as [inputs|]; [|done].
  exists inputs. split; [done|]. by injection Hl.
Qed.

(** C5.  An edge whose input index is at least the number of inputs its
    destination vertex declares makes the loop throw; when the loop reaches
    that edge, the edge is refused with the nonexistent-input error, and
    that error is what the loop throws: no state with the edge stored ever
    results. *)
Theorem C5_edge_to_nonexistent_input_is_refused m pre e post node :
  edges m = pre ++ e :: post →
  js_index (vertices m) (toVertex e) = Some node →
  Z.of_nat (nInputs node) ≤ toInput e →
  (∃ err, modelChanged_edges m = Throw err) ∧
  (∀ st, processEdges (init m) pre = Ok st →
     processEdge st e = Throw (NonexistentInput (toInput e) (toVertex e)) ∧
     modelChanged_edges m = Throw (NonexistentInput (toInput e) (toVertex e))).
Proof.
  intros Hes Hnode Hge.
  assert (∀ st, processEdges (init m) pre = Ok st →
     processEdge st e = Throw (NonexistentInput (toInput e) (toVertex e))) as Hstep.
  { intros st Hst.
    destruct (js_index_shape st (init m) (vertices m) (toVertex e) node)
      as (inputs & Hin & Hlen); [apply shape_init | by eapply processEdges_shape | done |].
    eapply processEdge_beyond; [done | lia]. }
  unfold modelChanged_edges. rewrite Hes, processEdges_app. simpl. split.
  - destruct (processEdges (init m) pre) as [st|err] eqn:E; [|by eauto].
    rewrite Hstep by done. by eauto.
  - intros st Hst. rewrite Hst. by rewrite Hstep.
Qed.

Lemma C5_edge_to_nonexistent_input_witness :
  modelChanged_edges demo_bad_input = Throw (NonexistentInput 1 2).
Proof.
  destruct (C5_edge_to_nonexistent_input_is_refused demo_bad_input
              [ {| fromVertex := 0; toVertex := 1; toInput := 0 |} ]
              {| fromVertex := 1; toVertex := 2; toInput := 1 |} []
              {| uid := 300; nInputs := 1 |})
    as [_ Hreach]; [reflexivity | reflexivity | simpl; lia |].
  edestruct Hreach as [_ Hrun]; [reflexivity | exact Hrun].
Defined.

End GraphFacts.

(* ===================================================================== *)
(** ** Facts about the preview adapter *)
(* ===================================================================== *)

Section PreviewFacts.
Import Preview.

#[local] Arguments addChain : simpl never.
#[local] Arguments removeChain : simpl never.
#[local] Arguments new_Chain : simpl never.

(** *** The registry calls *)

Lemma foldr_alter_notin (f : VideoNode → VideoNode) ls (ns : gmap nat VideoNode) l :
  l ∉ ls → foldr (alter f) ns ls !! l = ns !! l.
Proof.
  induction ls as [|l0 ls IH]; simpl; [done|].
  intros [Hne Hnotin]%not_elem_of_cons. by rewrite lookup_alter_ne, IH.
Qed.

Lemma foldr_alter_dom (f : VideoNode → VideoNode) ls (ns : gmap nat VideoNode) :
  dom (foldr (alter f) ns ls) = dom ns.
Proof.
  induction ls as [|l0 ls IH]; simpl; [done|]. by rewrite dom_alter_L.
Qed.

Lemma foldr_release_cache c ls (ns : gmap nat VideoNode) l n :
  l ∈ ls → foldr (alter (release_cache c)) ns ls !! l = Some n →
  vn_cache n !! c = None.
Proof.
  induction ls as [|l0 ls IH]; simpl; [by intros ?%elem_of_nil|].
  intros Hin. destruct (decide (l0 = l)) as [->|Hne].
  - rewrite lookup_alter_eq.
    destruct (foldr _ _ _ !! l) as [n0|]; [|done]. simpl. intros [= <-].
    simpl. apply lookup_delete_eq.
  - rewrite lookup_alter_ne by done. apply IH.
    apply elem_of_cons in Hin as [->|?]; done.
Qed.

Lemma addChain_Some chain mp w m :
  w_models w !! mp = Some m →
  addChain chain mp w =
    Some (set_models (<[mp := set_model_chains ({[chain]} ∪ model_chains m) m]> (w_models w)) w).
Proof. unfold addChain. by intros ->. Qed.

Lemma removeChain_Some chain mp w m :
  w_models w !! mp = Some m →
  removeChain chain mp w =
    Some (set_nodes (foldr (alter (release_cache chain)) (w_nodes w) (model_vertices m))
           (set_models (<[mp := set_model_chains (model_chains m ∖ {[chain]}) m]> (w_models w)) w)).
Proof. unfold removeChain. by intros ->. Qed.

Lemma registered_addChain chain mp w w' c mp' :
  addChain chain mp w = Some w' →
  registered c mp' w' ↔ registered c mp' w ∨ (c = chain ∧ mp' = mp).
Proof.
  unfold addChain, registered. destruct (w_models w !! mp) as [m|] eqn:Hm; [|done].
  simpl. intros [= <-]. simpl.
  destruct (decide (mp = mp')) as [->|Hne].
  - rewrite lookup_insert_eq. split.
    + intros (m' & [= <-] & Hin). simpl in Hin.
      apply elem_of_union in Hin as [->%elem_of_singleton|Hin]; [by right | left; eauto].
    + intros [(m' & Hm' & Hin)|[-> _]]; eexists; (split; [done|]); simpl; set_solver.
  - rewrite lookup_insert_ne by done. split; [by left|].
    intros [?|[_ ?]]; [done | congruence].
Qed.

Lemma registered_removeChain chain mp w w' c mp' :
  removeChain chain mp w = Some w' →
  registered c mp' w' ↔ registered c mp' w ∧ ¬ (c = chain ∧ mp' = mp).
Proof.
  unfold removeChain, registered. destruct (w_models w !! mp) as [m|] eqn:Hm; [|done].
  simpl. intros [= <-]. simpl.
  destruct (decide (mp = mp')) as [->|Hne].
  - rewrite lookup_insert_eq. split.
    + intros (m' & [= <-] & Hin). simpl in Hin.
      apply elem_of_difference in Hin as [Hin Hne]. split; [eauto|].
      intros [-> _]. apply Hne. by apply elem_of_singleton.
    + intros [(m' & Hm' & Hin) Hno]. eexists. split; [done|]. simpl.
      apply elem_of_difference. split; [congruence|].
      intros ->%elem_of_singleton. by apply Hno.
  - rewrite lookup_insert_ne by done. split; [|by intros [? _]].
    intros ?. split; [done|]. intros [_ ?]. congruence.
Qed.

Lemma addChain_frame chain mp w w' :
  addChain chain mp w = Some w' →
  w_chains w' = w_chains w ∧ w_nodes w' = w_nodes w ∧
  (∀ mp', is_Some (w_models w' !! mp') ↔ is_Some (w_models w !! mp')).
Proof.
  unfold addChain. destruct (w_models w !! mp) as [m|] eqn:Hm; [|done].
  simpl. intros [= <-]. simpl. split_and!; try done.
  intros mp'. destruct (decide (mp = mp')) as [->|Hne].
  - rewrite lookup_insert_eq, Hm. split; eauto.
  - by rewrite lookup_insert_ne.
Qed.

Lemma removeChain_frame chain mp w w' :
  removeChain chain mp w = Some w' →
  w_chains w' = w_chains w ∧
  (∀ mp', is_Some (w_models w' !! mp') ↔ is_Some (w_models w !! mp')).
Proof.
  unfold removeChain. destruct (w_models w !! mp) as [m|] eqn:Hm; [|done].
  simpl. intros [= <-]. simpl. split_and!; try done.
  intros mp'. destruct (decide (mp = mp')) as [->|Hne].
  - rewrite lookup_insert_eq, Hm. split; eauto.
  - by rewrite lookup_insert_ne.
Qed.


Lemma chains_allocated_addChain c mp w w' :
  chains_allocated w → c ∈ dom (w_chains w) → addChain (Some c) mp w = Some w' →
  chains_allocated w'.
Proof.
  intros Hall Hc Hadd mp' m' c' Hm' Hin.
  destruct (addChain_frame _ _ _ _ Hadd) as (-> & _ & _).
  assert (registered (Some c') mp' w') as Hreg by (by exists m').
  apply (registered_addChain _ _ _ _ _ _ Hadd) in Hreg as [(m & Hm & Hin')|[[= ->] _]];
    [by eapply Hall | done].
Qed.

Lemma chains_allocated_removeChain chain mp w w' :
  chains_allocated w → removeChain chain mp w = Some w' → chains_allocated w'.
Proof.
  intros Hall Hrem mp' m' c' Hm' Hin.
  destruct (removeChain_frame _ _ _ _ Hrem) as (-> & _).
  assert (registered (Some c') mp' w') as Hreg by (by exists m').
  apply (registered_removeChain _ _ _ _ _ _ Hrem) in Hreg as [(m & Hm & Hin') _].
  by eapply Hall.
Qed.

Lemma new_Chain_spec size w c w' :
  new_Chain size w = (c, w') →
  (c ∉ dom (w_chains w)) ∧
  w_chains w' = <[c := {| chain_size := size |}]> (w_chains w) ∧
  w_nodes w' = w_nodes w ∧ w_models w' = w_models w ∧ w_nextId w' = w_nextId w.
Proof. unfold new_Chain. intros [= <- <-]. split; [apply is_fresh | done]. Qed.


Lemma chains_allocated_new_Chain size w c w' :
  new_Chain size w = (c, w') → chains_allocated w →
  chains_allocated w' ∧ c ∈ dom (w_chains w') ∧ ∀ mp, ¬ registered (Some c) mp w'.
Proof.
  intros Hnew Hall. apply new_Chain_spec in Hnew as (Hf & Hch & _ & Hms & _). split_and!.
  - intros mp m c' Hm Hin. rewrite Hch, dom_insert_L. apply elem_of_union_r.
    rewrite Hms in Hm. by eapply Hall.
  - rewrite Hch, dom_insert_L. set_solver.
  - intros mp (m & Hm & Hin). rewrite Hms in Hm. apply Hf. by eapply Hall.
Qed.

Lemma constructor_ok thread w :
  chains_allocated w → adapter_ok (QQuickPreviewAdapter thread true w).
Proof.
  intros Hall. unfold QQuickPreviewAdapter.
  destruct (new_Chain _ w) as [c w'] eqn:E.
  destruct (chains_allocated_new_Chain _ _ _ _ E Hall) as (Hall' & Hc & Hreg).
  split; simpl; try done.
  - by exists c.
  - intros mp. split; [|done]. simpl. intros Hr. by apply Hreg in Hr.
Qed.

Lemma setModel_same caller st :
  caller = m_thread (adapter st) →
  setModel caller (m_model (adapter st)) st = Some st.
Proof.
  intros ->. unfold setModel, Q_ASSERT. rewrite bool_decide_eq_true_2 by done. simpl.
  by rewrite decide_False by (by intros ?).
Qed.

Lemma setModel_ok caller m st :
  adapter_ok st → caller = m_thread (adapter st) →
  (∀ mp, m = Some mp → is_Some (w_models (world st) !! mp)) →
  m ≠ m_model (adapter st) →
  ∃ st', setModel caller m st = Some st' ∧ adapter_ok st' ∧
         m_model (adapter st') = m ∧
         m_previewChain (adapter st') = m_previewChain (adapter st) ∧
         m_thread (adapter st') = m_thread (adapter st) ∧
         (∀ mp, is_Some (w_models (world st') !! mp) ↔ is_Some (w_models (world st) !! mp)) ∧
         trace st' = trace st ++
           match m_model (adapter st) with
           | Some old => [call_removeChain old (m_previewChain (adapter st))]
           | None => []
           end ++
           match m with
           | Some new => [call_addChain new (m_previewChain (adapter st))]
           | None => []
           end ++ [modelChanged m].
Proof.
  intros [Hhas (c & Hc & Hcdom) Hall Hlive Hinv] -> Hm Hne.
  unfold setModel, Q_ASSERT. rewrite bool_decide_eq_true_2 by done. simpl.
  rewrite decide_True by done. rewrite Hhas.
  (* first half: leave the old model *)
  assert (∃ w1, match m_model (adapter st) with
                | Some mp => w ← removeChain (m_previewChain (adapter st)) mp (world st);
                             Some (w, [call_removeChain mp (m_previewChain (adapter st))])
                | None => Some (world st, [])
                end = Some (w1, match m_model (adapter st) with
                                | Some old => [call_removeChain old (m_previewChain (adapter st))]
                                | None => [] end) ∧
                w_chains w1 = w_chains (world st) ∧
                chains_allocated w1 ∧
                (∀ mp, is_Some (w_models w1 !! mp) ↔ is_Some (w_models (world st) !! mp)) ∧
                (∀ mp, ¬ registered (m_previewChain (adapter st)) mp w1)) as (w1 & -> & Hch1 & Hall1 & Hdom1 & Hreg1).
  { destruct (m_model (adapter st)) as [old|] eqn:Hold.
    - destruct (Hlive old eq_refl) as [mo Hmo].
      rewrite (removeChain_Some _ _ _ _ Hmo). simpl. eexists. split; [reflexivity|].
      pose proof (removeChain_Some (m_previewChain (adapter st)) _ _ _ Hmo) as Hrem.
      split_and!.
      + done.
      + by eapply chains_allocated_removeChain.
      + by apply (removeChain_frame _ _ _ _ Hrem).
      + intros mp [Hreg Hno]%(registered_removeChain _ _ _ _ _ _ Hrem).
        apply Hno. split; [done|]. apply Hinv in Hreg. congruence.
    - exists (world st). split_and!; try done.
      intros mp Hreg%Hinv. congruence. }
  simpl.
  destruct m as [new|].
  - destruct (proj2 (Hdom1 new) (Hm new eq_refl)) as [mn Hmn].
    pose proof (addChain_Some (m_previewChain (adapter st)) _ _ _ Hmn) as Hadd.
    rewrite Hadd. simpl. eexists. split; [reflexivity|].
    destruct (addChain_frame _ _ _ _ Hadd) as (Hch2 & _ & Hdom2).
    split_and!; try done.
    + split; simpl; try done.
      * exists c. split; [done|]. by rewrite Hch1.
      * rewrite Hc in Hadd |- *.
        eapply (chains_allocated_addChain c new w1); [exact Hall1 | by rewrite Hch1 | exact Hadd].
      * intros mp [= <-]. rewrite lookup_insert_eq. by eexists.
      * intros mp. rewrite (registered_addChain _ _ _ _ _ _ Hadd). split.
        -- intros [Hreg|[_ ->]]; [by apply Hreg1 in Hreg | done].
        -- intros [= ->]. by right.
    + intros mp. by rewrite <-Hdom1, <-(Hdom2 mp).
  - simpl. eexists. split; [reflexivity|]. split_and!; try done.
    split; simpl; try done.
    + exists c. split; [done|]. by rewrite Hch1.
    + intros mp. split; [|done]. intros Hreg. by apply Hreg1 in Hreg.
Qed.


Lemma setPreviewSize_same caller st :
  m_hasPreview (adapter st) = true → caller = m_thread (adapter st) →
  setPreviewSize caller (m_previewSize (adapter st)) st = Some st.
Proof.
  intros Hhas ->. unfold setPreviewSize, Q_ASSERT.
  rewrite Hhas, bool_decide_eq_true_2 by done. simpl.
  by rewrite decide_False by (by intros ?).
Qed.

(** [setPreviewSize] with a new size, step by step. *)
Lemma setPreviewSize_steps caller size st :
  m_hasPreview (adapter st) = true → caller = m_thread (adapter st) →
  size ≠ m_previewSize (adapter st) →
  (∀ mp, m_model (adapter st) = Some mp → is_Some (w_models (world st) !! mp)) →
  ∃ c w1 st',
    new_Chain size (world st) = (c, w1) ∧
    setPreviewSize caller size st = Some st' ∧
    adapter st' = set_previewChain (Some c) (set_previewSize size (adapter st)) ∧
    match m_model (adapter st) with
    | Some mp =>
        (∃ w2, removeChain (m_previewChain (adapter st)) mp w1 = Some w2 ∧
               addChain (Some c) mp w2 = Some (world st')) ∧
        trace st' = trace st ++
          [lock_previewLock; write_previewSize size;
           call_removeChain mp (m_previewChain (adapter st)); call_addChain mp (Some c);
           write_previewChain (Some c); unlock_previewLock; previewSizeChanged size]
    | None =>
        world st' = w1 ∧
        trace st' = trace st ++
          [lock_previewLock; write_previewSize size; write_previewChain (Some c);
           unlock_previewLock; previewSizeChanged size]
    end.
Proof.
  intros Hhas -> Hne Hlive. unfold setPreviewSize, Q_ASSERT.
  rewrite Hhas, bool_decide_eq_true_2 by done. cbn [mbind option_bind].
  rewrite decide_True by done.
  destruct (new_Chain size (world st)) as [c w1] eqn:Hnew.
  pose proof (new_Chain_spec _ _ _ _ Hnew) as (_ & _ & _ & Hms & _).
  exists c, w1.
  destruct (m_model (adapter st)) as [mp|] eqn:Hmp.
  - destruct (Hlive mp eq_refl) as [m Hm]. rewrite <-Hms in Hm.
    pose proof (removeChain_Some (m_previewChain (adapter st)) _ _ _ Hm) as Hrem.
    match type of Hrem with _ = Some ?w => set (w2 := w) in * end.
    rewrite Hrem. cbn [mbind option_bind].
    assert (is_Some (w_models w2 !! mp)) as [m2 Hm2].
    { apply (removeChain_frame _ _ _ _ Hrem). eauto. }
    pose proof (addChain_Some (Some c) _ _ _ Hm2) as Hadd. rewrite Hadd.
    cbn [mbind option_bind].
    eexists. split_and!; [done | reflexivity | done | | done].
    by exists w2.
  - simpl. eexists. split_and!; [done | reflexivity | done | done | done].
Qed.

Lemma setPreviewSize_ok caller size st :
  adapter_ok st → caller = m_thread (adapter st) →
  size ≠ m_previewSize (adapter st) →
  ∃ st', setPreviewSize caller size st = Some st' ∧ adapter_ok st' ∧
         m_model (adapter st') = m_model (adapter st) ∧
         m_thread (adapter st') = m_thread (adapter st) ∧
         (∀ mp, is_Some (w_models (world st') !! mp) ↔ is_Some (w_models (world st) !! mp)).
Proof.
  intros [Hhas (c0 & Hc0 & Hc0dom) Hall Hlive Hinv] Hcaller Hne.
  destruct (setPreviewSize_steps caller size st) as (c & w1 & st' & Hnew & Hrun & Had & Hw);
    try done.
  exists st'. split; [done|].
  destruct (chains_allocated_new_Chain _ _ _ _ Hnew Hall) as (Hall1 & Hc1 & Hreg1).
  pose proof (new_Chain_spec _ _ _ _ Hnew) as (_ & _ & _ & Hms & _).
  rewrite Had. simpl.
  destruct (m_model (adapter st)) as [mp|] eqn:Hmp.
  - destruct Hw as [(w2 & Hrem & Hadd) _].
    destruct (removeChain_frame _ _ _ _ Hrem) as (Hch2 & Hdom2).
    destruct (addChain_frame _ _ _ _ Hadd) as (Hch3 & _ & Hdom3).
    split_and!; try done.
    + split; rewrite ?Had; simpl; try done.
      * exists c. split; [done|]. by rewrite Hch3, Hch2.
      * eapply chains_allocated_addChain; [| |exact Hadd].
        -- by eapply chains_allocated_removeChain.
        -- by rewrite Hch2.
      * intros mp' Hmp'. rewrite Hmp in Hmp'. injection Hmp' as <-.
        apply Hdom3, Hdom2. rewrite Hms. by apply Hlive.
      * intros mp'. unfold chain_invariant. rewrite ?Had. simpl. rewrite ?Hmp.
        rewrite (registered_addChain _ _ _ _ _ _ Hadd),
          (registered_removeChain _ _ _ _ _ _ Hrem). split.
        -- intros [[Hreg _]|[_ ->]]; [by apply Hreg1 in Hreg | done].
        -- intros [= ->]. by right.
    + intros mp'. by rewrite Hdom3, Hdom2, Hms.
  - destruct Hw as [Hw _]. split_and!; try done.
    + split; rewrite ?Had, ?Hw; simpl; try done.
      * by exists c.
      * intros mp' Hmp'. by rewrite Hmp in Hmp'.
      * intros mp'. rewrite ?Had. simpl. rewrite ?Hmp.
        split; [|done]. intros Hreg. rewrite Hw in Hreg. by apply Hreg1 in Hreg.
    + intros mp'. by rewrite Hw, Hms.
Qed.

Lemma destroy_ok st :
  adapter_ok st →
  ∃ w' t, destroy st = Some (w', t) ∧
          (∀ mp, ¬ registered (m_previewChain (adapter st)) mp w') ∧
          t = trace st ++ match m_model (adapter st) with
                          | Some mp => [call_removeChain mp (m_previewChain (adapter st))]
                          | None => []
                          end.
Proof.
  intros [Hhas _ _ Hlive Hinv]. unfold destroy. rewrite Hhas.
  destruct (m_model (adapter st)) as [mp|] eqn:Hmp.
  - destruct (Hlive mp eq_refl) as [m Hm].
    pose proof (removeChain_Some (m_previewChain (adapter st)) _ _ _ Hm) as Hrem.
    rewrite Hrem. simpl. eexists _, _. split_and!; [reflexivity | | done].
    intros mp' [Hreg Hno]%(registered_removeChain _ _ _ _ _ _ Hrem).
    apply Hno. split; [done|]. apply Hinv in Hreg. congruence.
  - eexists _, _. split_and!; [reflexivity | | by rewrite app_nil_r].
    intros mp' Hreg%Hinv. congruence.
Qed.


(** *** Histories *)

Ltac destruct_binds :=
  repeat match goal with
  | |- context [Q_ASSERT ?b] =>
      destruct b eqn:?; cbn [Q_ASSERT mbind option_bind]; [|done]
  | |- context [mbind _ ?x] =>
      destruct x as [?|] eqn:?; cbn [mbind option_bind]; [|done]
  | |- context [match ?x with _ => _ end] =>
      destruct x eqn:?; cbn [mbind option_bind]; try done
  end.

(** No call other than a render touches [m_lastPreviewRender] or
    [m_hasPreview]. *)
Lemma run_call_keeps c st st' :
  run_call c st = Some st' →
  m_lastPreviewRender (adapter st') = m_lastPreviewRender (adapter st) ∧
  m_hasPreview (adapter st') = m_hasPreview (adapter st).
Proof.
  destruct c as [caller m|caller size|caller win|]; cbn [run_call].
  - unfold setModel. destruct_binds; by intros [= <-].
  - unfold setPreviewSize. destruct_binds; by intros [= <-].
  - unfold setPreviewWindow. destruct_binds; by intros [= <-].
  - unfold previewSize. destruct_binds; by intros [= <-].
Qed.

Lemma run_calls_keeps cs st st' :
  run_calls cs st = Some st' →
  m_lastPreviewRender (adapter st') = m_lastPreviewRender (adapter st) ∧
  m_hasPreview (adapter st') = m_hasPreview (adapter st).
Proof.
  revert st. induction cs as [|c cs IH]; intros st; cbn [run_calls].
  - by intros [= <-].
  - destruct (run_call c st) as [st1|] eqn:E; [|done]. cbn [mbind option_bind].
    intros (-> & ->)%IH. by eapply run_call_keeps.
Qed.

Lemma run_call_ok thread w0 c st :
  adapter_ok st → m_thread (adapter st) = thread →
  (∀ mp, is_Some (w_models (world st) !! mp) ↔ is_Some (w_models w0 !! mp)) →
  good_call thread w0 c →
  ∃ st', run_call c st = Some st' ∧ adapter_ok st' ∧ m_thread (adapter st') = thread ∧
         (∀ mp, is_Some (w_models (world st') !! mp) ↔ is_Some (w_models w0 !! mp)).
Proof.
  intros Hok <- Hdom Hgood.
  destruct c as [caller m|caller size|caller win|]; cbn [run_call good_call] in *.
  - destruct Hgood as [Hcaller Hlive].
    destruct (decide (m = m_model (adapter st))) as [->|Hne].
    + exists st. by rewrite setModel_same.
    + destruct (setModel_ok caller m st) as (st' & Hrun & Hok' & _ & _ & Hth' & Hdom' & _);
        try done.
      { intros mp Hmp. apply Hdom. by apply Hlive. }
      exists st'. split_and!; try done.
      intros mp. by rewrite Hdom'.
  - destruct (decide (size = m_previewSize (adapter st))) as [->|Hne].
    + exists st. rewrite setPreviewSize_same; [done | by destruct Hok | done].
    + destruct (setPreviewSize_ok caller size st)
        as (st' & Hrun & Hok' & _ & Hth' & Hdom'); try done.
      exists st'. split_and!; try done. intros mp. by rewrite Hdom'.
  - unfold setPreviewWindow, Q_ASSERT.
    destruct Hok as [Hhas Hc Hall Hlive Hinv].
    rewrite Hhas, bool_decide_eq_true_2 by done. cbn [mbind option_bind].
    eexists. split; [reflexivity|]. split_and!; try done.
  - unfold previewSize, Q_ASSERT. destruct Hok as [Hhas Hc Hall Hlive Hinv].
    rewrite Hhas. cbn. eexists. split; [reflexivity|]. split_and!; try done.
Qed.

Lemma run_calls_ok thread w0 cs st :
  adapter_ok st → m_thread (adapter st) = thread →
  (∀ mp, is_Some (w_models (world st) !! mp) ↔ is_Some (w_models w0 !! mp)) →
  Forall (good_call thread w0) cs →
  ∃ st', run_calls cs st = Some st' ∧ adapter_ok st' ∧ m_thread (adapter st') = thread ∧
         (∀ mp, is_Some (w_models (world st') !! mp) ↔ is_Some (w_models w0 !! mp)).
Proof.
  intros Hok Hth Hdom Hgood. revert st Hok Hth Hdom.
  induction Hgood as [|c cs Hc Hcs IH]; intros st Hok Hth Hdom; cbn [run_calls].
  - by exists st.
  - destruct (run_call_ok thread w0 c st) as (st1 & -> & Hok1 & Hth1 & Hdom1); try done.
    cbn [mbind option_bind]. by apply IH.
Qed.


(** What [removeChain] followed by [addChain] leaves of a model. *)
Lemma removeChain_addChain old new mp w w2 w3 m :
  w_models w !! mp = Some m →
  removeChain old mp w = Some w2 → addChain new mp w2 = Some w3 →
  w_models w3 !! mp =
    Some (set_model_chains ({[new]} ∪ (model_chains m ∖ {[old]})) m) ∧
  w_nodes w3 = foldr (alter (release_cache old)) (w_nodes w) (model_vertices m) ∧
  w_chains w3 = w_chains w.
Proof.
  intros Hm. rewrite (removeChain_Some _ _ _ _ Hm). intros [= <-].
  erewrite addChain_Some by (cbn; apply lookup_insert_eq).
  intros [= <-]. cbn. by rewrite lookup_insert_eq.
Qed.

(** C3.  [setPreviewSize] with the current size returns the state as it
    was: nothing changes and the trace shows no signal.  With another size a
    chain object is built at an address not in use, at the new size; every
    chain object that existed, the old preview chain among them, stays as it
    was; the adapter stores the new chain and the new size.  When a model is
    set, the old chain leaves its registry and the new one enters it, no node
    of the model keeps a cached texture for the old chain, vertices and
    edges stay; when no model is set, no model and no node changes.  The
    trace shows the writes of the new size and of the new chain, and the
    calls into the model between them, all after the preview lock is taken
    and before it is released, and [previewSizeChanged] after the release. *)
Theorem C3_setPreviewSize_replaces_the_chain caller size st old :
  m_hasPreview (adapter st) = true →
  caller = m_thread (adapter st) →
  m_previewChain (adapter st) = Some old →
  old ∈ dom (w_chains (world st)) →
  (∀ mp, m_model (adapter st) = Some mp → is_Some (w_models (world st) !! mp)) →
  setPreviewSize caller (m_previewSize (adapter st)) st = Some st ∧
  (size ≠ m_previewSize (adapter st) →
   ∃ c st',
     setPreviewSize caller size st = Some st' ∧
     (c ∉ dom (w_chains (world st))) ∧ c ≠ old ∧
     w_chains (world st') = <[c := {| chain_size := size |}]> (w_chains (world st)) ∧
     w_chains (world st') !! old = w_chains (world st) !! old ∧
     m_previewChain (adapter st') = Some c ∧
     m_previewSize (adapter st') = size ∧
     m_model (adapter st') = m_model (adapter st) ∧
     match m_model (adapter st) with
     | Some mp =>
         (∀ m, w_models (world st) !! mp = Some m →
            ∃ m', w_models (world st') !! mp = Some m' ∧
                  model_chains m' = {[Some c]} ∪ (model_chains m ∖ {[Some old]}) ∧
                  (Some old ∉ model_chains m') ∧ Some c ∈ model_chains m' ∧
                  model_vertices m' = model_vertices m ∧
                  model_edges m' = model_edges m ∧
                  ∀ l n, l ∈ model_vertices m → w_nodes (world st') !! l = Some n →
                         vn_cache n !! Some old = None) ∧
         trace st' = trace st ++
           [lock_previewLock; write_previewSize size;
            call_removeChain mp (Some old); call_addChain mp (Some c);
            write_previewChain (Some c); unlock_previewLock; previewSizeChanged size]
     | None =>
         w_models (world st') = w_models (world st) ∧
         w_nodes (world st') = w_nodes (world st) ∧
         trace st' = trace st ++
           [lock_previewLock; write_previewSize size; write_previewChain (Some c);
            unlock_previewLock; previewSizeChanged size]
     end).
Proof.
  intros Hhas Hcaller Hold Holddom Hlive. split; [by apply setPreviewSize_same|].
  intros Hne.
  destruct (setPreviewSize_steps caller size st) as (c & w1 & st' & Hnew & Hrun & Had & Hw);
    try done.
  pose proof (new_Chain_spec _ _ _ _ Hnew) as (Hfresh & Hch & Hns & Hms & _).
  assert (c ≠ old) as Hco by (intros ->; done).
  exists c, st'. rewrite Had. cbn [m_previewChain m_previewSize m_model set_previewChain
    set_previewSize]. rewrite Hold in Hw.
  destruct (m_model (adapter st)) as [mp|] eqn:Hmp.
  - destruct Hw as [(w2 & Hrem & Hadd) Htrace].
    destruct (Hlive mp eq_refl) as [m Hm]. rewrite <-Hms in Hm.
    destruct (removeChain_addChain _ _ _ _ _ _ _ Hm Hrem Hadd) as (Hm3 & Hn3 & Hc3).
    split_and!; try done.
    + by rewrite Hc3.
    + by rewrite Hc3, Hch, lookup_insert_ne.
    + intros m0 Hm0. rewrite <-Hms, Hm in Hm0. injection Hm0 as <-.
      eexists. split; [exact Hm3|]. cbn. split_and!; try done.
      * intros [Hin%elem_of_singleton|[_ Hin]%elem_of_difference]%elem_of_union;
          [congruence | by apply Hin, elem_of_singleton].
      * by apply elem_of_union_l, elem_of_singleton.
      * intros l n Hl. rewrite Hn3. apply foldr_release_cache, Hl.
  - destruct Hw as [-> Htrace]. split_and!; try done.
    by rewrite Hch, lookup_insert_ne.
Qed.

Lemma C3_setPreviewSize_witness :
  ∃ st, demo_attached = Some st ∧
  ∃ st', setPreviewSize 7 {| size_width := 640; size_height := 480 |} st = Some st' ∧
         m_previewChain (adapter st) = Some 0%nat ∧
         m_previewChain (adapter st') = Some 1%nat ∧
         trace st' = trace st ++
           [lock_previewLock;
            write_previewSize {| size_width := 640; size_height := 480 |};
            call_removeChain 0 (Some 0%nat); call_addChain 0 (Some 1%nat);
            write_previewChain (Some 1%nat); unlock_previewLock;
            previewSizeChanged {| size_width := 640; size_height := 480 |}].
Proof.
  eexists. split; [vm_compute; reflexivity|].
  match goal with |- ∃ st', setPreviewSize _ _ ?st = _ ∧ _ =>
    destruct (C3_setPreviewSize_replaces_the_chain 7
                {| size_width := 640; size_height := 480 |} st 0%nat)
      as [_ Hnew]
  end.
  - reflexivity.
  - reflexivity.
  - reflexivity.
  - vm_compute. reflexivity.
  - intros mp [= <-]. vm_compute. eauto.
  - destruct Hnew as (c & st' & Hrun & _ & _ & _ & _ & Hc & _ & _ & _ & Htrace);
      [discriminate|].
    exists st'. split; [exact Hrun|]. split; [reflexivity|].
    assert (c = 1%nat) as ->.
    { revert Hrun Hc. vm_compute. intros [= <-]. by intros [= <-]. }
    split; [exact Hc | exact Htrace].
Defined.


(** C6.  Start from the constructor with a preview, in a world where every
    registered chain is allocated, and make any calls of [setModel],
    [setPreviewSize], [setPreviewWindow] and [previewSize] on the adapter's
    thread with model pointers that are null or valid.  The calls all
    return, and then: the preview chain is registered with a model exactly
    when that model is the adapter's current one; [setModel] with the
    current model returns the state unchanged, trace included; [setModel]
    with another model keeps the invariant, and its trace shows
    [removeChain] on the old model if there was one, [addChain] on the new
    one if there is one, then [modelChanged]; and destruction calls
    [removeChain] on the current model if there is one and leaves the chain
    registered with no model. *)
Theorem C6_chain_registered_with_current_model thread w calls :
  chains_allocated w →
  Forall (good_call thread w) calls →
  ∃ st,
    run_calls calls (QQuickPreviewAdapter thread true w) = Some st ∧
    chain_invariant st ∧
    setModel thread (m_model (adapter st)) st = Some st ∧
    (∀ m, m ≠ m_model (adapter st) →
          (∀ mp, m = Some mp → is_Some (w_models w !! mp)) →
       ∃ st', setModel thread m st = Some st' ∧
              chain_invariant st' ∧
              m_model (adapter st') = m ∧
              m_previewChain (adapter st') = m_previewChain (adapter st) ∧
              trace st' = trace st ++
                match m_model (adapter st) with
                | Some old => [call_removeChain old (m_previewChain (adapter st))]
                | None => []
                end ++
                match m with
                | Some new => [call_addChain new (m_previewChain (adapter st))]
                | None => []
                end ++ [modelChanged m]) ∧
    (∃ w' t, destroy st = Some (w', t) ∧
             (∀ mp, ¬ registered (m_previewChain (adapter st)) mp w') ∧
             t = trace st ++
                 match m_model (adapter st) with
                 | Some mp => [call_removeChain mp (m_previewChain (adapter st))]
                 | None => []
                 end).
Proof.
  intros Hall Hgood.
  pose proof (constructor_ok thread w Hall) as Hok0.
  destruct (run_calls_ok thread w calls (QQuickPreviewAdapter thread true w))
    as (st & Hrun & Hok & Hth & Hdom); try done.
  exists st. split_and!.
  - done.
  - by destruct Hok.
  - by apply setModel_same.
  - intros m Hne Hlive.
    destruct (setModel_ok thread m st) as (st' & Hset & Hok' & Hm' & Hc' & _ & _ & Htr);
      try done.
    { intros mp Hmp. apply Hdom. by apply Hlive. }
    exists st'. split_and!; try done. by destruct Hok'.
  - by apply destroy_ok.
Qed.

Lemma C6_chain_registered_witness :
  ∃ st, run_calls [do_setModel 7 (Some 0%nat);
                   do_setPreviewSize 7 {| size_width := 640; size_height := 480 |}]
          (QQuickPreviewAdapter 7 true demo_world) = Some st ∧
        m_model (adapter st) = Some 0%nat ∧
        chain_invariant st.
Proof.
  destruct (C6_chain_registered_with_current_model 7 demo_world
              [do_setModel 7 (Some 0%nat);
               do_setPreviewSize 7 {| size_width := 640; size_height := 480 |}])
    as (st & Hrun & Hinv & _).
  - intros mp m c Hm Hin. unfold demo_world in Hm. cbn [w_models] in Hm.
    apply lookup_singleton_Some in Hm as [_ <-]. by apply elem_of_empty in Hin.
  - repeat constructor. intros mp [= <-]. vm_compute. eauto.
  - exists st. split; [exact Hrun|]. split; [|exact Hinv].
    revert Hrun. vm_compute. by intros [= <-].
Defined.

(** The texture the adapter hands out after a render and any calls that do
    not render. *)
Lemma previewTexture_after_render paint blank st st1 calls st2 :
  onBeforeSynchronizing paint blank st = Some st1 →
  run_calls calls st1 = Some st2 →
  ∃ mp w1 copy result,
    m_model (adapter st) = Some mp ∧
    createCopyForRendering (m_previewChain (adapter st)) mp (world st) = Some (w1, copy) ∧
    render paint blank copy (m_previewChain (adapter st)) w1 = Some result ∧
    m_lastPreviewRender (adapter st2) = result ∧
    m_hasPreview (adapter st2) = true.
Proof.
  unfold onBeforeSynchronizing, Q_ASSERT.
  destruct (m_hasPreview (adapter st)) eqn:Hhas; [|done]. cbn [mbind option_bind].
  destruct (m_model (adapter st)) as [mp|]; [|done]. cbn [mbind option_bind].
  destruct (createCopyForRendering _ _ _) as [[w1 copy]|] eqn:Hcopy; [|done].
  cbn [mbind option_bind].
  destruct (render _ _ _ _ _) as [result|] eqn:Hr; [|done]. cbn [mbind option_bind].
  intros [= <-] (Hlast & Hhas2)%run_calls_keeps.
  exists mp, w1, copy, result. cbn in Hlast, Hhas2. by rewrite Hlast, Hhas2.
Qed.

(** C7.  After a render pass and any later calls that do not render,
    [previewTexture] returns, for every node identifier, the texture the
    result of that pass holds for it ([0] when it holds none), and returns
    the state as it was given. *)
Theorem C7_previewTexture_reads_last_render paint blank st st1 calls st2 videoNodeId :
  onBeforeSynchronizing paint blank st = Some st1 →
  run_calls calls st1 = Some st2 →
  ∃ mp w1 copy result,
    m_model (adapter st) = Some mp ∧
    createCopyForRendering (m_previewChain (adapter st)) mp (world st) = Some (w1, copy) ∧
    render paint blank copy (m_previewChain (adapter st)) w1 = Some result ∧
    previewTexture videoNodeId st2 = Some (default 0 (result !! videoNodeId), st2) ∧
    (∀ texture, result !! videoNodeId = Some texture →
       previewTexture videoNodeId st2 = Some (texture, st2)).
Proof.
  intros Hrender Hcalls.
  destruct (previewTexture_after_render _ _ _ _ _ _ Hrender Hcalls)
    as (mp & w1 & copy & result & Hmp & Hcopy & Hres & Hlast & Hhas).
  exists mp, w1, copy, result. split_and!; try done.
  - unfold previewTexture, Q_ASSERT. by rewrite Hhas, Hlast.
  - intros texture Ht. unfold previewTexture, Q_ASSERT. by rewrite Hhas, Hlast, Ht.
Qed.

Lemma C7_previewTexture_witness :
  ∃ st st1 st2,
    demo_attached = Some st ∧
    onBeforeSynchronizing demo_paint demo_blank st = Some st1 ∧
    run_calls [do_setPreviewSize 7 {| size_width := 640; size_height := 480 |}] st1 = Some st2 ∧
    previewTexture 11 st2 = Some (22800, st2).
Proof.
  let s := eval vm_compute in demo_attached in
  match s with Some ?x => pose (st := x) end.
  let s := eval vm_compute in (onBeforeSynchronizing demo_paint demo_blank st) in
  match s with Some ?x => pose (st1 := x) end.
  let s := eval vm_compute in
    (run_calls [do_setPreviewSize 7 {| size_width := 640; size_height := 480 |}] st1) in
  match s with Some ?x => pose (st2 := x) end.
  assert (demo_attached = Some st) as Hst by (vm_compute; reflexivity).
  assert (onBeforeSynchronizing demo_paint demo_blank st = Some st1) as Hst1
    by (vm_compute; reflexivity).
  assert (run_calls [do_setPreviewSize 7 {| size_width := 640; size_height := 480 |}] st1
          = Some st2) as Hst2 by (vm_compute; reflexivity).
  exists st, st1, st2. split_and!; [exact Hst | exact Hst1 | exact Hst2 |].
  destruct (C7_previewTexture_reads_last_render demo_paint demo_blank st st1 _ st2 11
              Hst1 Hst2) as (mp & w1 & copy & result & Hmp & Hcopy & Hres & _ & Hread).
  apply Hread.
  vm_compute in Hmp. injection Hmp as <-.
  vm_compute in Hcopy. injection Hcopy as <- <-.
  vm_compute in Hres. injection Hres as <-.
  vm_compute. reflexivity.
Defined.

(** C9.  An adapter built with a preview and never rendered, whatever calls
    were made on it since, hands out [0] for every node identifier; and so
    does any adapter with a preview for an identifier the result of its
    last render pass does not hold.  In both cases the call returns, with
    the state as it was given. *)
Theorem C9_previewTexture_defaults_to_zero videoNodeId :
  (∀ thread w calls st,
     run_calls calls (QQuickPreviewAdapter thread true w) = Some st →
     previewTexture videoNodeId st = Some (0, st)) ∧
  (∀ paint blank st st1 calls st2,
     onBeforeSynchronizing paint blank st = Some st1 →
     run_calls calls st1 = Some st2 →
     ∃ mp w1 copy result,
       m_model (adapter st) = Some mp ∧
       createCopyForRendering (m_previewChain (adapter st)) mp (world st) = Some (w1, copy) ∧
       render paint blank copy (m_previewChain (adapter st)) w1 = Some result ∧
       (result !! videoNodeId = None → previewTexture videoNodeId st2 = Some (0, st2))) ∧
  (∀ st, m_hasPreview (adapter st) = true →
         m_lastPreviewRender (adapter st) !! videoNodeId = None →
         previewTexture videoNodeId st = Some (0, st)).
Proof.
  assert (∀ st, m_hasPreview (adapter st) = true →
                m_lastPreviewRender (adapter st) !! videoNodeId = None →
                previewTexture videoNodeId st = Some (0, st)) as Hzero.
  { intros st Hhas Hnone. unfold previewTexture, Q_ASSERT. by rewrite Hhas, Hnone. }
  split_and!; [| |done].
  - intros thread w calls st (Hlast & Hhas)%run_calls_keeps. apply Hzero.
    + rewrite Hhas. unfold QQuickPreviewAdapter. by destruct (new_Chain _ w).
    + rewrite Hlast. unfold QQuickPreviewAdapter. by destruct (new_Chain _ w).
  - intros paint blank st st1 calls st2 Hrender Hcalls.
    destruct (previewTexture_after_render _ _ _ _ _ _ Hrender Hcalls)
      as (mp & w1 & copy & result & Hmp & Hcopy & Hres & Hlast & Hhas).
    exists mp, w1, copy, result. split_and!; try done.
    intros Hnone. apply Hzero; [done | by rewrite Hlast].
Qed.

Lemma C9_previewTexture_witness :
  previewTexture 11 (QQuickPreviewAdapter 7 true demo_world)
    = Some (0, QQuickPreviewAdapter 7 true demo_world) ∧
  ∃ st, demo_rendered = Some st ∧ previewTexture 12 st = Some (0, st).
Proof.
  destruct (C9_previewTexture_defaults_to_zero 11) as (Hfresh & _ & _).
  destruct (C9_previewTexture_defaults_to_zero 12) as (_ & _ & Hmissing).
  split.
  - apply (Hfresh 7%nat demo_world []). reflexivity.
  - eexists. split; [vm_compute; reflexivity|].
    apply Hmissing; vm_compute; reflexivity.
Defined.


(** *** Edits do not reach a render copy *)

Lemma find_node_Some ns ls id l n :
  find_node ns ls id = Some (l, n) → l ∈ ls ∧ ns !! l = Some n.
Proof.
  induction ls as [|l0 ls IH]; cbn [find_node]; [done|].
  destruct (ns !! l0) as [n0|] eqn:E.
  - case_decide.
    + intros [= <- <-]. split; [left | done].
    + intros [? ?]%IH. split; [by right | done].
  - intros [? ?]%IH. split; [by right | done].
Qed.

Lemma agree_refl ls w : agree ls w w.
Proof. by split. Qed.

Lemma agree_trans ls w1 w2 w3 : agree ls w1 w2 → agree ls w2 w3 → agree ls w1 w3.
Proof.
  intros [Hn1 Hc1] [Hn2 Hc2]. split; [|congruence].
  intros l Hl. by rewrite Hn2, Hn1.
Qed.

(** The shape every edit has: the model at [mp] becomes [m'] or stays, and
    the nodes at [ls] and the chains stay. *)
Lemma frame_intro ls w w' mp m m' :
  copy_safe ls w → w_models w !! mp = Some m →
  w_models w' = <[mp := m']> (w_models w) →
  (∀ l, l ∈ ls → l ∉ model_vertices m → l ∉ model_vertices m') →
  (∀ l, l ∈ ls → l ∉ model_vertices m → is_Some (w_nodes w !! l) →
     w_nodes w' !! l = w_nodes w !! l) →
  w_chains w' = w_chains w →
  copy_safe ls w' ∧ agree ls w w'.
Proof.
  intros Hsafe Hm Hms Hvs Hns Hcs.
  assert (∀ l, l ∈ ls → w_nodes w' !! l = w_nodes w !! l) as Hns'.
  { intros l Hl. destruct (Hsafe l Hl) as [Hal Hown]. apply Hns; eauto. }
  split; [|by split].
  intros l Hl. destruct (Hsafe l Hl) as [Hal Hown]. split.
  - by rewrite Hns'.
  - intros mp' m''. rewrite Hms.
    destruct (decide (mp = mp')) as [->|Hne].
    + rewrite lookup_insert_eq. intros [= <-]. apply Hvs; eauto.
    + rewrite lookup_insert_ne by done. apply Hown.
Qed.

Lemma mutate_frame ls mp mut w :
  copy_safe ls w →
  copy_safe ls (mutate mp mut w).1 ∧ agree ls w (mutate mp mut w).1.
Proof.
  intros Hsafe. unfold mutate.
  destruct (w_models w !! mp) as [m|] eqn:Hm; [|by split; [|apply agree_refl]].
  assert (copy_safe ls w ∧ agree ls w w) as Hsame by (by split; [|apply agree_refl]).
  destruct mut as [k p|id|from to k|from to k|id v|c|c].
  - (* addNode *)
    eapply frame_intro; [done | done | reflexivity | | | done].
    + intros l Hl Hnot [Hin|Hin%list_elem_of_singleton]%elem_of_app; [done|].
      subst l. destruct (Hsafe _ Hl) as [Hal _]. apply elem_of_dom in Hal.
      by apply is_fresh in Hal.
    + intros l Hl _ Hal. cbn. apply lookup_insert_ne. intros <-.
      apply elem_of_dom in Hal. by apply is_fresh in Hal.
  - (* removeNode *)
    destruct (find_node _ _ _) as [[l0 n0]|] eqn:Hf; [|done].
    apply find_node_Some in Hf as [Hl0 _].
    eapply frame_intro; [done | done | reflexivity | | | done].
    + intros l Hl Hnot Hin. cbn in Hin. apply list_elem_of_filter in Hin as [_ Hin]. done.
    + intros l Hl Hnot _. cbn. apply lookup_delete_ne. by intros <-.
  - (* addEdge *)
    destruct (find_node _ _ from) as [[? ?]|]; [|done].
    destruct (find_node _ _ to) as [[? nto]|]; [|done].
    case_decide; [done|].
    destruct (existsb _ _); [done|].
    destruct (reachable _ _ _ _); [done|].
    eapply frame_intro; [done | done | reflexivity | | | done]; by intros.
  - (* removeEdge *)
    destruct (existsb _ _); [|done].
    eapply frame_intro; [done | done | reflexivity | | | done]; by intros.
  - (* setParameter *)
    destruct (find_node _ _ _) as [[l0 n0]|] eqn:Hf; [|done].
    apply find_node_Some in Hf as [Hl0 _].
    cbn [fst]. split.
    + intros l Hl. destruct (Hsafe l Hl) as [Hal Hown]. split; [|done].
      cbn. rewrite lookup_insert_ne; [done|]. intros <-. by eapply Hown.
    + split; [|done]. intros l Hl. destruct (Hsafe l Hl) as [Hal Hown].
      cbn. apply lookup_insert_ne. intros <-. by eapply Hown.
  - (* registerChain *)
    rewrite (addChain_Some _ _ _ _ Hm). cbn [default fst].
    eapply frame_intro; [done | done | reflexivity | | | done]; by intros.
  - (* unregisterChain *)
    rewrite (removeChain_Some _ _ _ _ Hm). cbn [default fst].
    eapply frame_intro; [done | done | reflexivity | | | done].
    + by intros.
    + intros l Hl Hnot _. cbn. by apply foldr_alter_notin.
Qed.

Lemma mutate_all_frame ls muts w :
  copy_safe ls w →
  copy_safe ls (mutate_all muts w) ∧ agree ls w (mutate_all muts w).
Proof.
  revert w. induction muts as [|[mp mut] muts IH]; intros w Hsafe.
  - split; [done | apply agree_refl].
  - unfold mutate_all. cbn [foldl fst snd].
    destruct (mutate_frame ls mp mut w Hsafe) as [Hsafe1 Hag1].
    destruct (IH _ Hsafe1) as [Hsafe2 Hag2].
    split; [done | by eapply agree_trans].
Qed.


Section Noninterference.

Variable paint : VideoNode → Chain → list Z → Z.
Variable blankTexture : Chain → Z.

(** Evaluation with edits in between gives what evaluation without edits
    gives, as long as the edits cannot reach the nodes evaluated. *)
Lemma evaluate_frame ls order during es c w w2 results :
  (∀ l, l ∈ order → l ∈ ls) →
  copy_safe ls w → agree ls w2 w →
  evaluate paint blankTexture order during es c w results =
  evaluate paint blankTexture order [] es c w2 results.
Proof.
  revert during w results. induction order as [|l order IH];
    intros during w results Hsub Hsafe Hag; cbn [evaluate]; [done|].
  destruct (mutate_all_frame ls (hd [] during) w Hsafe) as [Hsafe1 Hag1].
  pose proof (agree_trans _ _ _ _ Hag Hag1) as [Hn Hc].
  cbv zeta. change (mutate_all (hd [] []) w2) with w2. change (tl []) with (@nil (list (nat * Mutation))).
  rewrite Hn, Hc by (apply Hsub; left).
  destruct (w_nodes w2 !! l) as [n|]; [|done]. cbn [mbind option_bind].
  destruct (w_chains w2 !! c) as [ch|]; [|done]. cbn [mbind option_bind].
  apply IH; [|done|by split].
  intros l' Hl'. apply Hsub. by right.
Qed.

Lemma least_elem (cands : list (nat * VideoNode)) x :
  least cands = Some x → x ∈ cands.
Proof.
  revert x. induction cands as [|y cands IH]; intros x; cbn [least foldr]; [done|].
  fold (least cands). destruct (least cands) as [z|].
  - case_decide; intros [= <-]; [left | right; by apply IH].
  - intros [= <-]. left.
Qed.

Lemma topo_elem fuel es ids remaining ordered l :
  l ∈ topo fuel es ids remaining ordered → l ∈ remaining.*1.
Proof.
  revert remaining ordered. induction fuel as [|fuel IH]; intros remaining ordered;
    cbn [topo]; [by intros ?%elem_of_nil|].
  destruct (least _) as [x|] eqn:E; [|by intros ?%elem_of_nil].
  apply least_elem, list_elem_of_filter in E as [_ Hx].
  intros [->|Hin]%elem_of_cons.
  - by apply list_elem_of_fmap_2.
  - apply IH, list_elem_of_fmap in Hin as ([l' n'] & -> & Hin).
    apply list_elem_of_filter in Hin as [_ Hin]. by apply (list_elem_of_fmap_2 fst) in Hin.
Qed.

Lemma load_elem copy w l :
  l ∈ (load copy w).*1 → l ∈ copy_vertices copy.
Proof.
  unfold load. intros ([l' n] & -> & Hin)%list_elem_of_fmap.
  apply list_elem_of_omap in Hin as (l0 & Hl0 & Hn).
  destruct (w_nodes w !! l0); [|done]. by injection Hn as <- _.
Qed.

Lemma load_agree copy w w' :
  agree (copy_vertices copy) w w' → load copy w' = load copy w.
Proof.
  intros [Hn _]. unfold load.
  induction (copy_vertices copy) as [|l ls IH]; [done|]. cbn [omap list_omap].
  rewrite Hn by left. rewrite IH; [done|]. intros l' Hl'. apply Hn. by right.
Qed.

(** A render pass with edits before and during it gives the result of the
    pass without edits. *)
Lemma render_interleaved_frame copy chain before during w :
  copy_safe (copy_vertices copy) w →
  render_interleaved paint blankTexture copy chain before during w =
  render paint blankTexture copy chain w.
Proof.
  intros Hsafe. unfold render, render_interleaved.
  change (mutate_all [] w) with w.
  destruct (mutate_all_frame _ before w Hsafe) as [Hsafe0 Hag0].
  rewrite (load_agree _ _ _ Hag0).
  destruct chain as [c|]; [|done]. cbn [mbind option_bind].
  apply (evaluate_frame (copy_vertices copy)); [|done|done].
  intros l Hl. by apply topo_elem, load_elem in Hl.
Qed.

End Noninterference.

Lemma copy_nodes_spec ls (ns ns' : gmap nat VideoNode) cs :
  copy_nodes ls ns = (ns', cs) →
  dom ns ⊆ dom ns' ∧ ∀ l, l ∈ cs → (l ∉ dom ns) ∧ l ∈ dom ns'.
Proof.
  revert ns ns' cs. induction ls as [|l0 ls IH]; intros ns ns' cs; cbn [copy_nodes].
  - intros [= <- <-]. split; [done|]. by intros l ?%elem_of_nil.
  - destruct (ns !! l0) as [n|]; [|apply IH].
    destruct (copy_nodes ls _) as [ns1 cs1] eqn:E. intros [= <- <-].
    apply IH in E as [Hsub Hcs]. rewrite dom_insert_L in Hsub, Hcs.
    split; [by intros l Hl; apply Hsub, elem_of_union_r|].
    intros l [->|Hin]%elem_of_cons.
    + split; [apply is_fresh|]. by apply Hsub, elem_of_union_l, elem_of_singleton.
    + destruct (Hcs l Hin) as [Hnot Hdom]. split; [|done].
      intros Hl. by apply Hnot, elem_of_union_r.
Qed.

(** A fresh copy of a model whose nodes are all allocated shares no node
    with any model. *)
Lemma createCopyForRendering_safe chain mp w w1 copy :
  nodes_allocated w →
  createCopyForRendering chain mp w = Some (w1, copy) →
  copy_safe (copy_vertices copy) w1 ∧
  w_models w1 = w_models w ∧ w_chains w1 = w_chains w.
Proof.
  intros Hall. unfold createCopyForRendering.
  destruct (w_models w !! mp) as [m|]; [|done]. cbn [mbind option_bind].
  destruct (copy_nodes _ _) as [ns cs] eqn:E. intros [= <- <-].
  apply copy_nodes_spec in E as [Hsub Hcs]. split; [|done].
  intros l Hl. cbn in Hl. destruct (Hcs l Hl) as [Hfresh Hdom]. split.
  - by apply elem_of_dom.
  - intros mp' m' Hm' Hin. apply Hfresh. by eapply Hall.
Qed.

Lemma nodes_allocated_check w :
  map_Forall (λ _ m, Forall (λ l, is_Some (w_nodes w !! l)) (model_vertices m))
    (w_models w) →
  nodes_allocated w.
Proof.
  intros Hall mp m l Hm Hl. apply elem_of_dom.
  apply (Hall mp m) in Hm. by eapply Forall_forall in Hm.
Qed.

(** C1.  Let the adapter render, in a world where every node a model owns is
    allocated.  What it stores is the result of the render pass on the copy
    it took of its model; and whatever edits are made to live models after
    the copy was taken, before the pass starts and between the evaluations of
    its nodes, the pass on that copy gives this same mapping from node
    identifier to texture. *)
Theorem C1_render_of_copy_ignores_later_edits
    (paint : VideoNode → Chain → list Z → Z) (blankTexture : Chain → Z) st st1 :
  nodes_allocated (world st) →
  onBeforeSynchronizing paint blankTexture st = Some st1 →
  ∃ mp w1 copy result,
    m_model (adapter st) = Some mp ∧
    createCopyForRendering (m_previewChain (adapter st)) mp (world st) = Some (w1, copy) ∧
    render paint blankTexture copy (m_previewChain (adapter st)) w1 = Some result ∧
    m_lastPreviewRender (adapter st1) = result ∧
    ∀ before during,
      render_interleaved paint blankTexture copy (m_previewChain (adapter st))
        before during w1 = Some result.
Proof.
  intros Hall Hrender.
  destruct (previewTexture_after_render paint blankTexture st st1 [] st1 Hrender eq_refl)
    as (mp & w1 & copy & result & Hmp & Hcopy & Hres & Hlast & _).
  exists mp, w1, copy, result. split_and!; try done.
  intros before during. rewrite <-Hres. apply render_interleaved_frame.
  by apply (createCopyForRendering_safe (m_previewChain (adapter st)) mp (world st)).
Qed.

Lemma C1_render_of_copy_witness :
  ∃ st st1 w1 copy,
    demo_attached = Some st ∧
    onBeforeSynchronizing demo_paint demo_blank st = Some st1 ∧
    createCopyForRendering (Some 0%nat) 0 (world st) = Some (w1, copy) ∧
    render_interleaved demo_paint demo_blank copy (Some 0%nat)
      demo_edits_before demo_edits_during w1 = Some (m_lastPreviewRender (adapter st1)) ∧
    m_lastPreviewRender (adapter st1) !! 11 = Some 22800.
Proof.
  let s := eval vm_compute in demo_attached in
  match s with Some ?x => pose (st := x) end.
  let s := eval vm_compute in (onBeforeSynchronizing demo_paint demo_blank st) in
  match s with Some ?x => pose (st1 := x) end.
  assert (demo_attached = Some st) as Hst by (vm_compute; reflexivity).
  assert (onBeforeSynchronizing demo_paint demo_blank st = Some st1) as Hst1
    by (vm_compute; reflexivity).
  assert (nodes_allocated (world st)) as Hall.
  { apply nodes_allocated_check, (bool_decide_unpack _). vm_compute. exact I. }
  destruct (C1_render_of_copy_ignores_later_edits demo_paint demo_blank st st1 Hall Hst1)
    as (mp & w1 & copy & result & Hmp & Hcopy & Hres & Hlast & Hedits).
  vm_compute in Hmp. injection Hmp as <-.
  exists st, st1, w1, copy. split_and!; [exact Hst | exact Hst1 | exact Hcopy | |].
  - rewrite Hlast. apply Hedits.
  - vm_compute. reflexivity.
Defined.

(** The same edits do change what a copy taken after them renders. *)
Example later_copy_differs :
  ∃ st w1 copy,
    demo_attached = Some st ∧
    createCopyForRendering (Some 0%nat) 0 (mutate_all demo_edits_before (world st))
      = Some (w1, copy) ∧
    (λ r, r !! 10) <$> render demo_paint demo_blank copy (Some 0%nat) w1 = Some (Some 20200) ∧
    (λ r, r !! 11) <$> render demo_paint demo_blank copy (Some 0%nat) w1 = Some None.
Proof.
  eexists _, _, _. split; [vm_compute; reflexivity|].
  split; [vm_compute; reflexivity|]. split; vm_compute; reflexivity.
Qed.

End PreviewFacts.

(* ===================================================================== *)
(** ** More about OutputWindow *)
(* ===================================================================== *)

Section OutputWindowMore.
Import OutputWindow.

Ltac pose_some name t :=
  let s := eval vm_compute in t in
  match s with Some ?x => pose (name := x) end.

Ltac two_screens :=
  intros s1 s2 Hs1 Hs2 Hn1 Hn2;
  repeat (apply elem_of_cons in Hs1 as [->|Hs1]; [try discriminate|]);
  try (by apply elem_of_nil in Hs1);
  repeat (apply elem_of_cons in Hs2 as [->|Hs2]; [try discriminate|]);
  try (by apply elem_of_nil in Hs2); done.

Lemma at_most_one_unique n screens (s : QScreen) :
  at_most_one n screens → s ∈ screens → screen_name s = n →
  ∀ s', s' ∈ screens → screen_name s' = n → s' = s.
Proof. intros Hone Hin Hn s' Hin' Hn'. by apply Hone. Qed.

(** The three ways a poll can go when at most one screen matches. *)
Lemma reload_cases fuel screens w :
  at_most_one (m_screenName w) screens →
  (name_available (m_screenName w) screens = false ∧
   reload (S (S fuel)) screens w = Some (reload_finish w false)) ∨
  (∃ s, s ∈ screens ∧ screen_name s = m_screenName w ∧
        name_available (m_screenName w) screens = true ∧
        ((w_screen w = Some s ∧
          reload (S (S fuel)) screens w = Some (reload_finish w true)) ∨
         (w_screen w ≠ Some s ∧
          reload (S (S fuel)) screens w =
            Some (setGeometry (screen_geometry s)
                    (reload_finish (emit (screenChanged s) (set_screen (Some s) w)) true))))).
Proof.
  intros Hone. unfold name_available.
  destruct (decide (Exists (λ s, screen_name s = m_screenName w) screens)) as [Hex|Hex].
  - right. rewrite (bool_decide_eq_true_2 _ Hex).
    apply Exists_exists in Hex as (s & Hin & Hn).
    exists s. split_and!; try done.
    destruct (decide (w_screen w = Some s)) as [Hat|Hat]; [left | right]; split; try done.
    + apply (reload_attached _ _ s); try done. by apply at_most_one_unique.
    + apply reload_attach; try done. by apply at_most_one_unique.
  - left. rewrite (bool_decide_eq_false_2 _ Hex). split; [done|].
    apply reload_absent. intros s Hin Hn. apply Hex, Exists_exists. eauto.
Qed.


(** X1.  Whenever two different available screens bear one name, [reload]
    on a window configured for that name does not return, whatever nesting
    depth is allowed; and neither does [setScreenName] that switches a
    window to that name. *)
Theorem X1_reload_never_returns_with_two_screens_of_the_name
    (s1 s2 : QScreen) screens n fuel w :
  s1 ∈ screens → s2 ∈ screens → s1 ≠ s2 →
  screen_name s1 = n → screen_name s2 = n →
  (screenName w = n → reload fuel screens w = None) ∧
  (screenName w ≠ n → setScreenName fuel screens n w = None).
Proof.
  intros H1 H2 Hne Hn1 Hn2. split.
  - intros Hw. apply (reload_two_matches s1 s2); try done; by rewrite <-Hw in *.
  - intros Hw. unfold setScreenName. rewrite decide_True by (by intros ->).
    by apply (reload_two_matches s1 s2).
Qed.

Lemma X1_reload_never_returns_witness :
  ∃ w, searching_window = Some w ∧
       reload 100 [hdmi_b; laptop; hdmi_a] w = None ∧
       setScreenName 100 [hdmi_a; hdmi_b] "HDMI-1" (set_screenName "eDP-1" w) = None.
Proof.
  pose_some w searching_window.
  exists w. split; [reflexivity|]. split.
  - apply (X1_reload_never_returns_with_two_screens_of_the_name hdmi_a hdmi_b
             [hdmi_b; laptop; hdmi_a] "HDMI-1" 100 w);
      [right; right; left | left | discriminate | reflexivity | reflexivity | reflexivity].
  - apply (X1_reload_never_returns_with_two_screens_of_the_name hdmi_a hdmi_b
             [hdmi_a; hdmi_b] "HDMI-1" 100 (set_screenName "eDP-1" w));
      [left | right; left | discriminate | reflexivity | reflexivity | discriminate].
Defined.

(** X2.  When at most one available screen bears the configured name, a poll
    returns (two levels of nesting suffice); afterwards [found()] tells
    whether the name is available, and [foundChanged] was emitted once with
    the new value if that value is new, and not at all otherwise. *)
Theorem X2_poll_sets_found_to_availability fuel screens w :
  at_most_one (screenName w) screens →
  ∃ w', reload (S (S fuel)) screens w = Some w' ∧
        found w' = name_available (screenName w) screens ∧
        foundChanged_of (emitted w') =
          foundChanged_of (emitted w) ++
          (if decide (name_available (screenName w) screens = found w) then []
           else [name_available (screenName w) screens]).
Proof. intros Hone. by apply reload_found_iff. Qed.

Lemma X2_poll_sets_found_witness :
  ∃ w w', searching_window = Some w ∧
          reload 2 [laptop; hdmi_a] w = Some w' ∧
          found w = false ∧ found w' = true ∧
          foundChanged_of (emitted w') = [true].
Proof.
  pose_some w searching_window.
  destruct (X2_poll_sets_found_to_availability 0 [laptop; hdmi_a] w)
    as (w' & Hrun & Hfound & Hlog); [two_screens|].
  exists w, w'. split; [reflexivity|]. split; [exact Hrun|]. split; [reflexivity|].
  split; [exact Hfound | exact Hlog].
Defined.

(** X3.  Whatever a poll that returns has done, the configured name, the
    timer, the window flags and the window state are as before, the log has
    only grown, and no [screenNameChanged] was emitted. *)
Theorem X3_poll_leaves_name_and_timer fuel screens w w' :
  reload fuel screens w = Some w' →
  screenName w' = screenName w ∧ m_reloader w' = m_reloader w ∧
  w_flags w' = w_flags w ∧ w_windowState w' = w_windowState w ∧
  ∃ ev, emitted w' = emitted w ++ ev ∧ screenNameChanged_of ev = [].
Proof. apply reload_frame. Qed.

Lemma X3_poll_leaves_name_witness :
  ∃ w w', searching_window = Some w ∧ reload 2 [laptop; hdmi_a] w = Some w' ∧
          screenName w' = "HDMI-1" ∧ timer_interval (m_reloader w') = 1000.
Proof.
  pose_some w searching_window.
  pose_some w' (reload 2 [laptop; hdmi_a] w).
  assert (reload 2 [laptop; hdmi_a] w = Some w') as Hw' by (vm_compute; reflexivity).
  destruct (X3_poll_leaves_name_and_timer _ _ _ _ Hw') as (Hn & Ht & _).
  exists w, w'. split; [reflexivity|]. split; [exact Hw'|].
  split; [exact Hn | by rewrite Ht].
Defined.

(** X4.  A poll while no available screen bears the configured name (also
    with no screen at all) returns without nesting, leaves the window on its
    screen with its geometry, and leaves [found()] false, emitting
    [foundChanged(false)] exactly if [found()] was true. *)
Theorem X4_poll_without_match_leaves_window_in_place fuel screens w :
  (∀ s, s ∈ screens → screen_name s ≠ screenName w) →
  ∃ w', reload (S fuel) screens w = Some w' ∧
        w_screen w' = w_screen w ∧ w_geometry w' = w_geometry w ∧
        found w' = false ∧
        emitted w' = emitted w ++ (if found w then [foundChanged false] else []).
Proof.
  intros Hno. eexists. split; [by apply reload_absent|].
  unfold reload_finish, found. destruct (m_found w) eqn:Hf.
  - by rewrite decide_True.
  - rewrite decide_False by (by intros ?). by rewrite app_nil_r.
Qed.

Lemma X4_poll_without_match_witness :
  ∃ w w', bound_window = Some w ∧ reload 1 [laptop] w = Some w' ∧
          w_screen w' = Some hdmi_a ∧ found w = true ∧ found w' = false.
Proof.
  pose_some w bound_window.
  destruct (X4_poll_without_match_leaves_window_in_place 0 [laptop] w)
    as (w' & Hrun & Hs & _ & Hf & _).
  - intros s Hs. apply list_elem_of_singleton in Hs as ->. discriminate.
  - exists w, w'. split; [reflexivity|]. split; [exact Hrun|].
    split; [exact Hs|]. split; [reflexivity | exact Hf].
Defined.

Lemma reload_finish_same w b : m_found w = b → reload_finish w b = w.
Proof. intros <-. unfold reload_finish. by rewrite decide_False by (by intros ?). Qed.

Lemma reload_finish_fields w b :
  m_screenName (reload_finish w b) = m_screenName w ∧
  w_screen (reload_finish w b) = w_screen w ∧
  w_geometry (reload_finish w b) = w_geometry w ∧
  m_found (reload_finish w b) = b.
Proof. unfold reload_finish. by case_decide. Qed.

(** What a poll returns when at most one screen matches. *)
Lemma reload_result fuel screens w :
  at_most_one (m_screenName w) screens →
  ∃ w', reload (S (S fuel)) screens w = Some w' ∧
        m_screenName w' = m_screenName w ∧
        m_found w' = name_available (m_screenName w) screens ∧
        (name_available (m_screenName w) screens = false →
           w_screen w' = w_screen w ∧ w_geometry w' = w_geometry w) ∧
        (name_available (m_screenName w) screens = true →
           ∃ s, s ∈ screens ∧ screen_name s = m_screenName w ∧ w_screen w' = Some s ∧
                (w_screen w = Some s → w_geometry w' = w_geometry w) ∧
                (w_screen w ≠ Some s → w_geometry w' = screen_geometry s)).
Proof.
  intros Hone.
  destruct (reload_cases fuel screens w Hone)
    as [[Hav ->]|(s & Hin & Hs & Hav & [[Hat ->]|[Hat ->]])]; rewrite Hav;
    eexists; (split; [reflexivity|]).
  - destruct (reload_finish_fields w false) as (? & ? & ? & ?). by split_and!.
  - destruct (reload_finish_fields w true) as (? & ? & ? & ?).
    split_and!; try done. intros _. exists s. split_and!; try congruence.
  - destruct (reload_finish_fields (emit (screenChanged s) (set_screen (Some s) w)) true)
      as (? & ? & ? & ?).
    split_and!; try done. intros _. exists s. split_and!; try done.
Qed.

(** X5.  Polling again with the same screens changes nothing: when at most
    one available screen bears the configured name, the window a poll
    returns is returned as it is by the next poll, with no further signal. *)
Theorem X5_poll_twice_is_poll_once fuel fuel' screens w w' :
  at_most_one (screenName w) screens →
  reload (S (S fuel)) screens w = Some w' →
  reload (S fuel') screens w' = Some w'.
Proof.
  unfold screenName. intros Hone Hrun.
  destruct (reload_result fuel screens w Hone) as (w2 & Hrun2 & Hn & Hf & Habs & Hpres).
  rewrite Hrun in Hrun2. injection Hrun2 as <-.
  destruct (name_available (m_screenName w) screens) eqn:Hav.
  - destruct (Hpres eq_refl) as (s & Hin & Hs & Hat & _).
    rewrite (reload_attached _ _ s); try done.
    + by rewrite reload_finish_same.
    + congruence.
    + rewrite Hn. by apply at_most_one_unique.
  - rewrite reload_absent.
    + by rewrite reload_finish_same.
    + rewrite Hn. intros s Hin Hs. unfold name_available in Hav.
      apply bool_decide_eq_false in Hav. apply Hav, Exists_exists. eauto.
Qed.

Lemma X5_poll_twice_witness :
  ∃ w w', searching_window = Some w ∧ reload 2 [laptop; hdmi_a] w = Some w' ∧
          reload 1 [laptop; hdmi_a] w' = Some w'.
Proof.
  pose_some w searching_window.
  pose_some w' (reload 2 [laptop; hdmi_a] w).
  assert (reload 2 [laptop; hdmi_a] w = Some w') as Hw' by (vm_compute; reflexivity).
  exists w, w'. split; [reflexivity|]. split; [exact Hw'|].
  apply (X5_poll_twice_is_poll_once 0 0 [laptop; hdmi_a] w w'); [two_screens | exact Hw'].
Defined.

Lemma transitions_head b a l :
  (if decide (a = b) then [] else [a]) ++ transitions a l = transitions b (a :: l).
Proof.
  cbn [transitions]. destruct (decide (a = b)) as [->|Hne].
  - by rewrite decide_False by (by intros ?).
  - by rewrite decide_True.
Qed.

(** X6.  Timer polls, one after the other, each with its own list of
    available screens of which at most one bears the configured name: they
    all return; the configured name stays; after them [found()] is the
    availability of the name at the last poll; and the [foundChanged]
    signals emitted are exactly the changes of that availability from one
    poll to the next, starting from the value [found()] had. *)
Theorem X6_polls_track_availability fuel envs w :
  timer_timeout (m_reloader w) = [slot_reload] →
  Forall (at_most_one (screenName w)) envs →
  ∃ w', polls (S (S fuel)) envs w = Some w' ∧
        screenName w' = screenName w ∧
        found w' = default (found w) (last (name_available (screenName w) <$> envs)) ∧
        foundChanged_of (emitted w') =
          foundChanged_of (emitted w) ++
          transitions (found w) (name_available (screenName w) <$> envs).
Proof.
  unfold screenName, found. intros Htimer Hall. revert w Htimer Hall.
  induction envs as [|screens envs IH]; intros w Htimer Hall; cbn [polls].
  - exists w. cbn. by rewrite app_nil_r.
  - apply Forall_cons in Hall as [Hone Hall].
    rewrite timeout_reload by done.
    destruct (reload_found_iff fuel screens w Hone) as (w1 & Hrun & Hf & Hlog).
    unfold found in Hf. rewrite Hrun. cbn [mbind option_bind].
    pose proof (reload_frame _ _ _ _ Hrun) as (Hn & Hr & _).
    destruct (IH w1) as (w' & Hpolls & Hn' & Hf' & Hlog').
    { by rewrite Hr. }
    { by rewrite Hn. }
    exists w'. split; [done|]. rewrite Hn in *. split; [done|]. split.
    + etrans; [exact Hf'|]. rewrite fmap_cons, last_cons.
      destruct (last _); [done|]. exact Hf.
    + etrans; [exact Hlog'|]. rewrite Hlog, Hf, <-app_assoc. f_equal.
      rewrite fmap_cons. apply transitions_head.
Qed.

Lemma X6_polls_track_witness :
  ∃ w w', searching_window = Some w ∧
          polls 2 [[laptop]; [laptop; hdmi_a]; [hdmi_a; laptop]; [laptop]; []] w = Some w' ∧
          found w' = false ∧
          foundChanged_of (emitted w') = [true; false].
Proof.
  pose_some w searching_window.
  destruct (X6_polls_track_availability 0
              [[laptop]; [laptop; hdmi_a]; [hdmi_a; laptop]; [laptop]; []] w)
    as (w' & Hrun & _ & Hf & Hlog).
  - reflexivity.
  - repeat apply Forall_cons_2; try apply Forall_nil_2; two_screens.
  - exists w, w'. split; [reflexivity|]. split; [exact Hrun|].
    split; [exact Hf | exact Hlog].
Defined.

(** X7.  With a screen to start on and no available screen of the empty
    name, the constructor returns a full-screen dialog window on that
    screen, with that screen's geometry, the empty name, [found()] false and
    no signal emitted, and with the timer running every 1000 ms, repeating,
    its expiry calling [reload].  Without a screen to start on it does not
    get past [putOnScreen]. *)
Theorem X7_constructor fuel screens (p : QScreen) geom0 :
  (∀ s, s ∈ screens → screen_name s ≠ "") →
  ∃ w, OutputWindow (S fuel) screens (Some p) geom0 = Some w ∧
       w_screen w = Some p ∧ w_geometry w = screen_geometry p ∧
       screenName w = "" ∧ found w = false ∧ emitted w = [] ∧
       w_flags w = Qt_Dialog ∧ w_windowState w = Qt_WindowFullScreen ∧
       timer_interval (m_reloader w) = 1000 ∧ timer_active (m_reloader w) = true ∧
       timer_singleShot (m_reloader w) = false ∧
       (∀ fuel' screens', timeout fuel' screens' w = reload fuel' screens' w) ∧
       OutputWindow (S fuel) screens None geom0 = None.
Proof.
  intros Hno. unfold OutputWindow. cbn [putOnScreen w_screen setWindowState setFlags
    mbind option_bind].
  rewrite reload_absent by done. cbn [mbind option_bind].
  eexists. split; [reflexivity|]. by split_and!.
Qed.

Lemma X7_constructor_witness :
  ∃ w, OutputWindow 1 [laptop; hdmi_a] (Some laptop) geom_b = Some w ∧
       w_geometry w = geom_laptop ∧ found w = false.
Proof.
  destruct (X7_constructor 0 [laptop; hdmi_a] laptop geom_b) as (w & Hw & _ & Hg & _ & Hf & _).
  - intros s Hs.
    apply elem_of_cons in Hs as [->|Hs]; [discriminate|].
    apply list_elem_of_singleton in Hs as ->. discriminate.
  - by exists w.
Defined.

Lemma putOnScreen_geometry w w' : putOnScreen w = Some w' → geometry_follows_screen w'.
Proof.
  unfold putOnScreen. destruct (w_screen w) as [s|] eqn:Hs; [|done].
  intros [= <-]. by exists s.
Qed.

Lemma reload_finish_geometry w b :
  geometry_follows_screen w → geometry_follows_screen (reload_finish w b).
Proof. unfold reload_finish. by case_decide. Qed.

Lemma reload_loop_geometry setS l w fnd w' fnd' :
  (∀ s v v', geometry_follows_screen v → setS s v = Some v' → geometry_follows_screen v') →
  geometry_follows_screen w →
  reload_loop setS l w fnd = Some (w', fnd') → geometry_follows_screen w'.
Proof.
  intros HS. revert w fnd. induction l as [|h l IH]; intros w fnd Hw; cbn [reload_loop].
  - by intros [= <- <-].
  - case_decide; [|by apply IH].
    case_decide.
    + destruct (setS h w) as [v|] eqn:E; [|done]. cbn [mbind option_bind].
      apply IH. by eapply HS.
    + cbn [mbind option_bind]. by apply IH.
Qed.

Lemma reload_geometry fuel screens w w' :
  geometry_follows_screen w → reload fuel screens w = Some w' →
  geometry_follows_screen w'.
Proof.
  revert w w'. induction fuel as [|fuel IH]; intros w w' Hw; [done|].
  rewrite reload_unfold.
  destruct (reload_loop _ _ _ _) as [[v fnd]|] eqn:E; [|done]. cbn [mbind option_bind].
  intros [= <-]. apply reload_finish_geometry.
  eapply reload_loop_geometry; [|exact Hw|exact E].
  intros s u u' Hu. unfold setScreen. case_decide; [by intros [= <-]|].
  cbv zeta. destruct (reload fuel screens _) as [u2|]; [|done]. cbn [mbind option_bind].
  apply putOnScreen_geometry.
Qed.

(** X8.  The window's geometry is the geometry of the screen it is on: this
    holds of every window the constructor returns, and every poll and every
    [setScreenName] that returns keeps it. *)
Theorem X8_geometry_follows_screen fuel screens w w' :
  (∀ primary geom0, OutputWindow fuel screens primary geom0 = Some w' →
     geometry_follows_screen w') ∧
  (geometry_follows_screen w → reload fuel screens w = Some w' →
     geometry_follows_screen w') ∧
  (∀ n, geometry_follows_screen w → setScreenName fuel screens n w = Some w' →
     geometry_follows_screen w').
Proof.
  split_and!.
  - intros primary geom0. unfold OutputWindow.
    destruct (putOnScreen _) as [w2|] eqn:Hp; [|done]. cbn [mbind option_bind].
    destruct (reload fuel screens w2) as [w3|] eqn:Hr; [|done]. cbn [mbind option_bind].
    intros [= <-]. apply putOnScreen_geometry in Hp.
    by apply (reload_geometry _ _ _ _ Hp) in Hr.
  - apply reload_geometry.
  - intros n Hw. unfold setScreenName. case_decide; [|by intros [= <-]].
    by apply reload_geometry.
Qed.

Lemma X8_geometry_follows_screen_witness :
  ∃ w w', bound_window = Some w ∧
          setScreenName 2 [laptop; hdmi_a] "eDP-1" w = Some w' ∧
          w_screen w' = Some laptop ∧
          geometry_follows_screen w ∧ geometry_follows_screen w'.
Proof.
  pose_some w bound_window.
  pose_some w' (setScreenName 2 [laptop; hdmi_a] "eDP-1" w).
  assert (setScreenName 2 [laptop; hdmi_a] "eDP-1" w = Some w') as Hw'
    by (vm_compute; reflexivity).
  assert (geometry_follows_screen w) as Hg by (by exists hdmi_a).
  destruct (X8_geometry_follows_screen 2 [laptop; hdmi_a] w w') as (_ & _ & Hset).
  exists w, w'. split; [reflexivity|]. split; [exact Hw'|]. split; [reflexivity|].
  split; [exact Hg | by apply (Hset "eDP-1")].
Defined.

(** X9.  [setScreenName] with a new name, when at most one available screen
    bears that name, returns with the new name stored and [found()] telling
    whether that name is available; [screenNameChanged] is the first signal
    it emits, and the only one of its kind. *)
Theorem X9_setScreenName_updates_found fuel screens n w :
  n ≠ screenName w →
  at_most_one n screens →
  ∃ w' ev, setScreenName (S (S fuel)) screens n w = Some w' ∧
           screenName w' = n ∧
           found w' = name_available n screens ∧
           emitted w' = emitted w ++ screenNameChanged n :: ev ∧
           screenNameChanged_of ev = [].
Proof.
  unfold screenName, found. intros Hne Hone. unfold setScreenName.
  rewrite decide_True by done.
  set (w1 := emit (screenNameChanged n) (set_screenName n w)).
  destruct (reload_result fuel screens w1 Hone) as (w' & Hrun & Hn & Hf & _).
  pose proof (reload_frame _ _ _ _ Hrun) as (_ & _ & _ & _ & ev & Hev & Hnone).
  exists w', ev. split_and!; try done.
  rewrite Hev. cbn. by rewrite <-app_assoc.
Qed.

Lemma X9_setScreenName_witness :
  ∃ w w', bound_window = Some w ∧
          setScreenName 2 [laptop; hdmi_a] "DP-2" w = Some w' ∧
          found w = true ∧ found w' = false.
Proof.
  pose_some w bound_window.
  destruct (X9_setScreenName_updates_found 0 [laptop; hdmi_a] "DP-2" w)
    as (w' & ev & Hrun & _ & Hf & _); [discriminate | two_screens |].
  exists w, w'. split; [reflexivity|]. split; [exact Hrun|].
  split; [reflexivity | exact Hf].
Defined.

End OutputWindowMore.

(* ===================================================================== *)
(** ** More about the edge loop *)
(* ===================================================================== *)

Section GraphMore.
Import Graph.

Lemma processEdge_other st e st' v i :
  processEdge st e = Ok st' → (v, i) ≠ target e → slot st' v i = slot st v i.
Proof.
  intros (inputs & Hv & Hi & Hin & Hnull & ->)%processEdge_Ok Hne.
  unfold slot, js_index, target in *. cbn [upstreamNodeVertices].
  destruct (decide (0 ≤ v)); [|done].
  destruct (decide (Z.to_nat v = Z.to_nat (toVertex e))) as [Ev|Ev].
  - assert (v = toVertex e) as -> by lia.
    rewrite Hin, list_lookup_insert_eq by (by eapply lookup_lt_Some).
    cbn [mbind option_bind]. destruct (decide (0 ≤ i)); [|done].
    apply list_lookup_insert_ne. intros Ei. apply Hne. f_equal. lia.
  - by rewrite list_lookup_insert_ne.
Qed.

Lemma processEdges_other es st st' v i :
  processEdges st es = Ok st' → (v, i) ∉ target <$> es → slot st' v i = slot st v i.
Proof.
  revert st. induction es as [|e es IH]; intros st; cbn [processEdges fmap list_fmap].
  - by intros [= <-].
  - destruct (processEdge st e) as [st1|] eqn:E; [|done].
    intros Hrun [Hne Hnot]%not_elem_of_cons.
    rewrite (IH _ Hrun Hnot). by eapply processEdge_other.
Qed.

Lemma processEdges_records es st st' e :
  processEdges st es = Ok st' → e ∈ es →
  slot st' (toVertex e) (toInput e) = Some (Some (fromVertex e)).
Proof.
  revert st. induction es as [|e0 es IH]; intros st; cbn [processEdges];
    [by intros _ ?%elem_of_nil|].
  destruct (processEdge st e0) as [st1|] eqn:E; [|done].
  intros Hrun [->|Hin]%elem_of_cons; [|by eapply IH].
  eapply processEdges_keeps; [|done]. by apply processEdge_fills in E as [_ ?].
Qed.

Lemma slot_init_in_range m e :
  in_range (vertices m) e → slot (init m) (toVertex e) (toInput e) = Some None.
Proof.
  intros (node & Hnode & Hlo & Hhi). unfold slot, init, js_index in *.
  cbn [upstreamNodeVertices]. case_decide; [|done].
  rewrite list_lookup_fmap, Hnode. cbn. rewrite decide_True by done.
  apply lookup_replicate_2. lia.
Qed.

Lemma slot_Some_in_range m st e x :
  shape st = shape (init m) → slot st (toVertex e) (toInput e) = Some x →
  in_range (vertices m) e.
Proof.
  intros Hshape. unfold slot, in_range. unfold js_index.
  destruct (decide (0 ≤ toVertex e)); [|by cbn].
  destruct (upstreamNodeVertices st !! _) as [inputs|] eqn:Hin; [|by cbn].
  cbn [mbind option_bind]. destruct (decide (0 ≤ toInput e)); [|done].
  intros Hlt%lookup_lt_Some.
  assert (shape st !! Z.to_nat (toVertex e) = Some (length inputs)) as Hl
    by (unfold shape; by rewrite list_lookup_fmap, Hin).
  rewrite Hshape, shape_init, list_lookup_fmap in Hl.
  destruct (vertices m !! _) as [node|]; [|done]. injection Hl as Hl.
  exists node. split; [done | lia].
Qed.


Lemma processEdge_null st e :
  slot st (toVertex e) (toInput e) = Some None → ∃ st', processEdge st e = Ok st'.
Proof.
  unfold slot, processEdge.
  destruct (js_index (upstreamNodeVertices st) _) as [inputs|]; [|done].
  cbn [mbind option_bind]. intros Hs. rewrite Hs.
  rewrite decide_False; [by eexists|].
  revert Hs. unfold js_index. case_decide; [|done].
  intros ?%lookup_lt_Some. lia.
Qed.

Lemma processEdges_blocked es st e u :
  slot st (toVertex e) (toInput e) = Some (Some u) → e ∈ es →
  ∃ err, processEdges st es = Throw err.
Proof.
  revert st. induction es as [|e0 es IH]; intros st Hs; [by intros ?%elem_of_nil|].
  cbn [processEdges]. destruct (processEdge st e0) as [st1|err] eqn:E; [|by eauto].
  intros [->|Hin]%elem_of_cons.
  - by rewrite (processEdge_occupied _ _ u) in E.
  - apply IH; [|done]. by eapply processEdge_keeps.
Qed.

(** X17.  When the loop accepts the edge list, the table it has built holds
    exactly the edges: the slot of every edge's destination input holds
    that edge's [fromVertex], every other input of every vertex still holds
    null, and no slot beyond the inputs the vertices declare has come into
    being. *)
Theorem X17_accepted_table_records_the_edges m st :
  modelChanged_edges m = Ok st →
  (∀ e, e ∈ edges m → slot st (toVertex e) (toInput e) = Some (Some (fromVertex e))) ∧
  (∀ v i, (v, i) ∉ target <$> edges m → slot st v i = slot (init m) v i) ∧
  length <$> upstreamNodeVertices st = nInputs <$> vertices m.
Proof.
  unfold modelChanged_edges. intros Hrun. split_and!.
  - intros e He. by eapply processEdges_records.
  - intros v i Hnot. by eapply processEdges_other.
  - apply processEdges_shape in Hrun. unfold shape in Hrun. rewrite Hrun.
    apply shape_init.
Qed.

Lemma X17_accepted_table_witness :
  ∃ st, modelChanged_edges demo = Ok st ∧
        slot st 1 0 = Some (Some 0) ∧ slot st 2 0 = Some (Some 1) ∧
        slot st 0 0 = Some None ∧ slot st 0 1 = None.
Proof.
  let s := eval vm_compute in (modelChanged_edges demo) in
  match s with Ok ?x => pose (st := x) end.
  assert (modelChanged_edges demo = Ok st) as Hrun by reflexivity.
  destruct (X17_accepted_table_records_the_edges demo st Hrun) as (Hrec & Hother & _).
  exists st. split; [exact Hrun|].
  split; [apply (Hrec {| fromVertex := 0; toVertex := 1; toInput := 0 |}); left|].
  split; [apply (Hrec {| fromVertex := 1; toVertex := 2; toInput := 0 |}); right; left|].
  split; (etrans; [apply Hother | reflexivity]);
    intros [[=]|[[=]|[]%elem_of_nil]%elem_of_cons]%elem_of_cons.
Defined.

(** X18.  The loop accepts an edge list exactly when every edge ends at an
    input that exists (the destination is a vertex of the model and the
    input index is at least 0 and below its [nInputs]) and no two edges end
    at the same input; whether the sources exist plays no part. *)
Theorem X18_accepted_iff_in_range_and_distinct m :
  (∃ st, modelChanged_edges m = Ok st) ↔
  Forall (in_range (vertices m)) (edges m) ∧ NoDup (target <$> edges m).
Proof.
  unfold modelChanged_edges. split.
  - intros [st Hrun]. split.
    + apply Forall_forall. intros e He.
      eapply (slot_Some_in_range m st); [by eapply processEdges_shape|].
      by eapply processEdges_records.
    + revert Hrun. generalize (init m). induction (edges m) as [|e es IH]; intros st0;
        cbn [processEdges fmap list_fmap]; [constructor|].
      destruct (processEdge st0 e) as [st1|] eqn:E; [|done]. intros Hrun.
      apply NoDup_cons. split; [|by eapply IH].
      intros (e' & Ht & He')%list_elem_of_fmap.
      apply processEdge_fills in E as [_ Hfull].
      injection Ht as Hv Hi. rewrite Hv, Hi in Hfull.
      destruct (processEdges_blocked es st1 e' _ Hfull He') as [err Herr]. congruence.
  - intros [Hrange Hnodup].
    assert (∀ e, e ∈ edges m → slot (init m) (toVertex e) (toInput e) = Some None) as Hfree.
    { intros e He. apply slot_init_in_range. by eapply Forall_forall in Hrange. }
    clear Hrange. revert Hfree Hnodup. generalize (init m).
    induction (edges m) as [|e es IH]; intros st0 Hfree Hnodup;
      cbn [processEdges]; [by eexists|].
    apply NoDup_cons in Hnodup as [Hnot Hnodup].
    destruct (processEdge_null st0 e) as [st1 E]; [apply Hfree; left|].
    rewrite E. apply IH; [|done].
    intros e' He'. rewrite (processEdge_other _ _ _ _ _ E); [apply Hfree; by right|].
    intros Ht. apply Hnot. rewrite <-Ht. by apply (list_elem_of_fmap_2 target).
Qed.

Lemma filter_all {A} (P : A → Prop) `{∀ x, Decision (P x)} (l : list A) :
  (∀ x, x ∈ l → P x) → filter P l = l.
Proof.
  induction l as [|x l IH]; intros Hall; [done|].
  rewrite filter_cons_True by (apply Hall; left).
  f_equal. apply IH. intros y Hy. apply Hall. by right.
Qed.

Lemma remove_first_NoDup x (a : list Z) :
  NoDup a → remove_first x a = filter (λ y, y ≠ x) a.
Proof.
  induction 1 as [|y a Hnot Hnd IH]; cbn [remove_first]; [done|].
  destruct (decide (y = x)) as [->|Hne].
  - rewrite filter_cons_False by (by intros ?).
    symmetry. apply filter_all. by intros z Hz ->.
  - by rewrite filter_cons_True, IH.
Qed.

Lemma processEdges_start es st st' :
  NoDup (startNodeVertices st) → processEdges st es = Ok st' →
  startNodeVertices st' =
    filter (λ y, y ∉ fromVertex <$> es) (startNodeVertices st).
Proof.
  revert st. induction es as [|e es IH]; intros st Hnd; cbn [processEdges fmap list_fmap].
  - intros [= <-]. symmetry. apply filter_all.
    intros y _. apply not_elem_of_nil.
  - destruct (processEdge st e) as [st1|] eqn:E; [|done].
    apply processEdge_Ok in E as (inputs & _ & _ & _ & _ & ->). intros Hrun.
    assert (NoDup (remove_first (fromVertex e) (startNodeVertices st))) as Hnd'
      by (rewrite remove_first_NoDup by done; by apply NoDup_filter).
    rewrite (IH _ (Hnd' : NoDup (startNodeVertices (Build_State _ _))) Hrun);
      cbn [startNodeVertices].
    rewrite remove_first_NoDup, list_filter_filter by done.
    apply list_filter_iff. intros y. rewrite not_elem_of_cons. tauto.
Qed.

(** X19.  When the loop accepts the edge list, [startNodeVertices] is left
    holding the indices of the vertices that are the source of no edge, in
    increasing order. *)
Theorem X19_start_vertices_feed_no_edge m st :
  modelChanged_edges m = Ok st →
  startNodeVertices st =
    filter (λ y, y ∉ fromVertex <$> edges m)
      (Z.of_nat <$> seq 0 (length (vertices m))).
Proof.
  unfold modelChanged_edges. intros Hrun.
  apply processEdges_start in Hrun; [done|].
  cbn [init startNodeVertices]. apply NoDup_fmap; [apply _ | apply NoDup_seq].
Qed.

Lemma X19_start_vertices_witness :
  ∃ st, modelChanged_edges demo = Ok st ∧ startNodeVertices st = [2].
Proof.
  let s := eval vm_compute in (modelChanged_edges demo) in
  match s with Ok ?x => pose (st := x) end.
  assert (modelChanged_edges demo = Ok st) as Hrun by reflexivity.
  exists st. split; [exact Hrun|].
  etrans; [exact (X19_start_vertices_feed_no_edge demo st Hrun)|].
  vm_compute. reflexivity.
Defined.

(** X20.  An edge whose destination is not a vertex of the model (index
    negative, or at least the number of vertices) ends the loop in a
    [TypeError] as soon as it is reached; an edge to an existing vertex
    with a negative input index passes the test for a nonexistent input and
    is refused with the multiple-upstream error, although no edge ends
    there. *)
Theorem X20_edges_outside_the_tables m pre e post st :
  edges m = pre ++ e :: post →
  processEdges (init m) pre = Ok st →
  (js_index (vertices m) (toVertex e) = None →
     modelChanged_edges m = Throw TypeError) ∧
  (is_Some (js_index (vertices m) (toVertex e)) → toInput e < 0 →
     modelChanged_edges m = Throw (MultipleUpstream (toVertex e) (toInput e))).
Proof.
  intros Hes Hpre. unfold modelChanged_edges. rewrite Hes, processEdges_app, Hpre.
  cbn [processEdges]. apply processEdges_shape in Hpre.
  assert (length (upstreamNodeVertices st) = length (vertices m)) as Hlen.
  { pose proof Hpre as Hl. rewrite shape_init in Hl. apply (f_equal length) in Hl.
    unfold shape in Hl. by rewrite !length_fmap in Hl. }
  split.
  - intros Hnone. unfold processEdge.
    replace (js_index (upstreamNodeVertices st) (toVertex e)) with (@None (list (option Z)));
      [done|].
    revert Hnone. unfold js_index. case_decide; [|done].
    intros Hge%lookup_ge_None. symmetry. apply lookup_ge_None. lia.
  - intros [node Hnode] Hneg.
    destruct (js_index_shape st (init m) (vertices m) (toVertex e) node)
      as (inputs & Hin & _); [apply shape_init | done | done |].
    unfold processEdge. rewrite Hin. rewrite decide_False by lia.
    unfold js_index at 1. by rewrite decide_False by lia.
Qed.

Lemma X20_edges_outside_witness :
  modelChanged_edges
    {| vertices := demo_vertices;
       edges := [ {| fromVertex := 0; toVertex := 1; toInput := 0 |};
                  {| fromVertex := 1; toVertex := 3; toInput := 0 |} ] |}
    = Throw TypeError ∧
  modelChanged_edges
    {| vertices := demo_vertices;
       edges := [ {| fromVertex := 0; toVertex := 1; toInput := -1 |} ] |}
    = Throw (MultipleUpstream 1 (-1)).
Proof.
  split.
  - eapply (X20_edges_outside_the_tables _
              [ {| fromVertex := 0; toVertex := 1; toInput := 0 |} ]
              {| fromVertex := 1; toVertex := 3; toInput := 0 |} []); reflexivity.
  - eapply (X20_edges_outside_the_tables _ []
              {| fromVertex := 0; toVertex := 1; toInput := -1 |} []);
      [reflexivity | reflexivity | by eexists | reflexivity].
Defined.

End GraphMore.

(* ===================================================================== *)
(** ** More about the preview adapter *)
(* ===================================================================== *)

Section PreviewMore.
Import Preview.

#[local] Arguments addChain : simpl never.
#[local] Arguments removeChain : simpl never.
#[local] Arguments new_Chain : simpl never.

Ltac case_binds :=
  repeat (cbn [mbind option_bind];
    match goal with
    | |- context [Q_ASSERT ?b] => destruct b eqn:?; cbn [Q_ASSERT]; [|done]
    | |- context [removeChain ?a ?b ?c] =>
        destruct (removeChain a b c) as [?|] eqn:?; [|done]
    | |- context [addChain ?a ?b ?c] =>
        destruct (addChain a b c) as [?|] eqn:?; [|done]
    | |- context [new_Chain ?a ?b] => destruct (new_Chain a b) as [? ?] eqn:?
    | |- context [match ?x with _ => _ end] => destruct x eqn:?; try done
    end); cbn [mbind option_bind].

Lemma replay_lock_app h t1 t2 :
  replay_lock h (t1 ++ t2) = h' ← replay_lock h t1; replay_lock h' t2.
Proof.
  revert h. induction t1 as [|e t1 IH]; intros h; [done|].
  cbn [app replay_lock]. destruct e, h; cbn [mbind option_bind]; try done; apply IH.
Qed.

(** What each call appends to the trace. *)
Lemma run_call_trace c st st' :
  run_call c st = Some st' →
  ∃ t, trace st' = trace st ++ t ∧ replay_lock false t = Some false.
Proof.
  destruct c as [caller m|caller size|caller win|]; cbn [run_call].
  - unfold setModel. case_binds; intros [= <-]; cbn [trace];
      try (by exists []; rewrite app_nil_r); by eexists.
  - unfold setPreviewSize. case_binds; intros [= <-]; cbn [trace];
      try (by exists []; rewrite app_nil_r); by eexists.
  - unfold setPreviewWindow. case_binds; intros [= <-]; cbn [trace]; by eexists.
  - unfold previewSize. case_binds. cbn [fmap option_fmap option_map].
    intros [= <-]. cbn [trace snd]. by eexists.
Qed.


Lemma run_calls_trace cs st st' :
  run_calls cs st = Some st' →
  ∃ t, trace st' = trace st ++ t ∧ replay_lock false t = Some false.
Proof.
  revert st. induction cs as [|c cs IH]; intros st; cbn [run_calls].
  - intros [= <-]. exists []. by rewrite app_nil_r.
  - destruct (run_call c st) as [st1|] eqn:E; [|done]. cbn [mbind option_bind].
    intros (t2 & Ht2 & Hr2)%IH. apply run_call_trace in E as (t1 & Ht1 & Hr1).
    exists (t1 ++ t2). rewrite Ht2, Ht1, <-app_assoc. split; [done|].
    by rewrite replay_lock_app, Hr1.
Qed.

(** X10.  The adapter keeps the discipline of [m_previewLock] through any
    calls of [setModel], [setPreviewSize], [setPreviewWindow] and
    [previewSize] that return: the lock is taken only when free and released
    only when held, [m_previewSize], [m_previewChain] and [m_previewWindow]
    are written only while it is held, no signal is emitted while it is
    held, and it is free after the calls. *)
Theorem X10_lock_discipline cs st st' :
  replay_lock false (trace st) = Some false →
  run_calls cs st = Some st' →
  replay_lock false (trace st') = Some false.
Proof.
  intros Hst (t & -> & Ht)%run_calls_trace. by rewrite replay_lock_app, Hst.
Qed.

Lemma X10_lock_discipline_witness :
  ∃ st', run_calls [do_setModel 7 (Some 0%nat);
                    do_setPreviewSize 7 {| size_width := 640; size_height := 480 |};
                    do_setPreviewWindow 7 (Some 4%nat);
                    do_previewSize;
                    do_setPreviewWindow 7 (Some 4%nat)]
           (QQuickPreviewAdapter 7 true demo_world) = Some st' ∧
         length (trace st') = 22%nat ∧
         replay_lock false (trace st') = Some false.
Proof.
  eexists. split; [vm_compute; reflexivity|]. split; [reflexivity|].
  match goal with |- replay_lock false (trace ?s) = _ =>
    apply (X10_lock_discipline
             [do_setModel 7 (Some 0%nat);
              do_setPreviewSize 7 {| size_width := 640; size_height := 480 |};
              do_setPreviewWindow 7 (Some 4%nat);
              do_previewSize;
              do_setPreviewWindow 7 (Some 4%nat)]
             (QQuickPreviewAdapter 7 true demo_world) s)
  end.
  - reflexivity.
  - vm_compute. reflexivity.
Defined.


Lemma setModel_without_preview caller m st :
  m_hasPreview (adapter st) = false → caller = m_thread (adapter st) →
  ∃ st', setModel caller m st = Some st' ∧
         world st' = world st ∧
         m_hasPreview (adapter st') = false ∧
         m_thread (adapter st') = m_thread (adapter st) ∧
         trace st' = trace st ++ (if decide (m_model (adapter st) ≠ m)
                                  then [modelChanged m] else []).
Proof.
  intros Hhas ->. unfold setModel, Q_ASSERT.
  rewrite bool_decide_eq_true_2 by done. cbn [mbind option_bind].
  destruct (decide (m_model (adapter st) ≠ m)) as [Hne|Heq].
  - rewrite Hhas.
    destruct (m_model (adapter st)), m;
      (eexists; split; [reflexivity|]; by split_and!).
  - exists st. rewrite app_nil_r. by split_and!.
Qed.

(** X11.  In an adapter without a preview, the constructor, [setModel] and
    the destructor never call into a model.  Built by the constructor, the
    adapter has no chain and the world is as it was.  [setModel] to another
    model, valid pointer or not, only stores the pointer and emits
    [modelChanged].  Any run of [setModel] calls on the adapter's thread
    returns, leaves the world as it was and adds nothing but [modelChanged]
    signals to the trace, and destruction after it changes nothing. *)
Theorem X11_adapter_without_preview caller st :
  m_hasPreview (adapter st) = false →
  caller = m_thread (adapter st) →
  (∀ m, m ≠ m_model (adapter st) →
     setModel caller m st =
       Some {| adapter := set_model m (adapter st); world := world st;
               trace := trace st ++ [modelChanged m] |}) ∧
  destroy st = Some (world st, trace st) ∧
  (∀ ms, ∃ st' changed,
     run_calls (do_setModel caller <$> ms) st = Some st' ∧
     world st' = world st ∧
     trace st' = trace st ++ (modelChanged <$> changed) ∧
     destroy st' = Some (world st, trace st')) ∧
  (∀ thread w, world (QQuickPreviewAdapter thread false w) = w ∧
               m_previewChain (adapter (QQuickPreviewAdapter thread false w)) = None).
Proof.
  intros Hhas Hcaller.
  assert (∀ st0, m_hasPreview (adapter st0) = false →
                 destroy st0 = Some (world st0, trace st0)) as Hdestroy.
  { intros st0 H0. unfold destroy. rewrite H0. by destruct (m_model (adapter st0)). }
  split_and!.
  - intros m Hne. subst caller. unfold setModel, Q_ASSERT.
    rewrite bool_decide_eq_true_2 by done. cbn [mbind option_bind].
    rewrite decide_True by (by intros ?). rewrite Hhas.
    by destruct (m_model (adapter st)), m.
  - by apply Hdestroy.
  - intros ms. revert st Hhas Hcaller.
    induction ms as [|m ms IH]; intros st Hhas Hcaller; cbn [fmap list_fmap run_calls].
    + exists st, []. rewrite app_nil_r. split_and!; try done. by apply Hdestroy.
    + cbn [run_call].
      destruct (setModel_without_preview caller m st Hhas Hcaller)
        as (st1 & -> & Hw1 & Hhas1 & Hth1 & Htr1).
      cbn [mbind option_bind].
      destruct (IH st1 Hhas1) as (st' & changed & Hrun & Hw' & Htr' & Hd');
        [by rewrite Hth1|].
      exists st', ((if decide (m_model (adapter st) ≠ m) then [m] else []) ++ changed).
      split; [exact Hrun|]. split; [by rewrite Hw', Hw1|].
      split; [|by rewrite Hd', Hw1].
      rewrite Htr', Htr1, fmap_app, app_assoc. f_equal. f_equal. by case_decide.
  - done.
Qed.

Lemma X11_adapter_without_preview_witness :
  ∃ st', run_calls [do_setModel 7 (Some 99%nat); do_setModel 7 (Some 99%nat);
                    do_setModel 7 None]
           (QQuickPreviewAdapter 7 false demo_world) = Some st' ∧
         world st' = demo_world ∧
         trace st' = [modelChanged (Some 99%nat); modelChanged None] ∧
         destroy st' = Some (demo_world, trace st').
Proof.
  destruct (X11_adapter_without_preview 7 (QQuickPreviewAdapter 7 false demo_world))
    as (_ & _ & Hrun & _); [reflexivity | reflexivity |].
  destruct (Hrun [Some 99%nat; Some 99%nat; None]) as (st' & changed & Hr & Hw & _ & Hd).
  exists st'. split; [exact Hr|]. split; [exact Hw|]. split; [|exact Hd].
  revert Hr. vm_compute. by intros [= <-].
Defined.

(** X12.  [setPreviewWindow] has no guard for an unchanged window: with a
    preview and on the adapter's thread it always returns, stores the
    window, leaves the world alone, and between taking and releasing the
    lock disconnects from the old window, if any, and connects to the new
    one, if any; then it emits [previewWindowChanged].  Called with the
    window already set, it still does all of that. *)
Theorem X12_setPreviewWindow caller window st :
  m_hasPreview (adapter st) = true →
  caller = m_thread (adapter st) →
  ∃ st', setPreviewWindow caller window st = Some st' ∧
         previewWindow st' = window ∧
         adapter st' = set_previewWindow window (adapter st) ∧
         world st' = world st ∧
         trace st' = trace st ++ [lock_previewLock] ++
           match previewWindow st with
           | Some old => [disconnect_beforeSynchronizing old]
           | None => []
           end ++ [write_previewWindow window] ++
           match window with
           | Some new => [connect_beforeSynchronizing new]
           | None => []
           end ++ [unlock_previewLock; previewWindowChanged window] ∧
         (window = previewWindow st → st' ≠ st).
Proof.
  intros Hhas ->. unfold setPreviewWindow, Q_ASSERT.
  rewrite Hhas, bool_decide_eq_true_2 by done. cbn [mbind option_bind].
  eexists. split; [reflexivity|]. split_and!; try done.
  intros _ Heq. apply (f_equal (λ s, length (trace s))) in Heq. cbn in Heq.
  rewrite !length_app in Heq. cbn in Heq. lia.
Qed.

Lemma X12_setPreviewWindow_witness :
  ∃ st st' st'',
    setPreviewWindow 7 (Some 4%nat) (QQuickPreviewAdapter 7 true demo_world) = Some st ∧
    setPreviewWindow 7 (Some 4%nat) st = Some st' ∧
    setPreviewWindow 7 None st' = Some st'' ∧
    trace st' = trace st ++
      [lock_previewLock; disconnect_beforeSynchronizing 4; write_previewWindow (Some 4%nat);
       connect_beforeSynchronizing 4; unlock_previewLock;
       previewWindowChanged (Some 4%nat)] ∧
    previewWindow st'' = None.
Proof.
  destruct (X12_setPreviewWindow 7 (Some 4%nat) (QQuickPreviewAdapter 7 true demo_world))
    as (st & Hst & Hwin & Had & _); [reflexivity | reflexivity |].
  destruct (X12_setPreviewWindow 7 (Some 4%nat) st)
    as (st' & Hst' & _ & Had' & _ & Htr & _);
    [by rewrite Had | by rewrite Had |].
  destruct (X12_setPreviewWindow 7 None st')
    as (st'' & Hst'' & Hwin'' & _); [by rewrite Had', Had | by rewrite Had', Had |].
  exists st, st', st''. split_and!; try done.
  by rewrite Htr, Hwin.
Defined.

Lemma setPreviewSize_stores caller size st st' :
  setPreviewSize caller size st = Some st' →
  m_previewSize (adapter st') = size ∧
  m_hasPreview (adapter st') = true ∧ m_hasPreview (adapter st) = true ∧
  m_thread (adapter st') = m_thread (adapter st) ∧
  bool_decide (caller = m_thread (adapter st)) = true.
Proof.
  unfold setPreviewSize.
  destruct (m_hasPreview (adapter st)) eqn:Hhas; [|done]. cbn [Q_ASSERT mbind option_bind].
  destruct (bool_decide _); [|done]. cbn [Q_ASSERT mbind option_bind].
  destruct (decide (size ≠ m_previewSize (adapter st))) as [Hne|Heq].
  - case_binds; by intros [= <-].
  - apply dec_stable in Heq. by intros [= <-].
Qed.

Lemma setModel_stores caller m st st' :
  setModel caller m st = Some st' →
  m_model (adapter st') = m ∧
  m_thread (adapter st') = m_thread (adapter st) ∧
  bool_decide (caller = m_thread (adapter st)) = true.
Proof.
  unfold setModel.
  destruct (bool_decide _) eqn:Hth; [|done]. cbn [Q_ASSERT mbind option_bind].
  destruct (decide (m_model (adapter st) ≠ m)) as [Hne|Heq].
  - case_binds; by intros [= <-].
  - apply dec_stable in Heq. by intros [= <-].
Qed.

(** X13.  What a setter stored is what the getter returns: after
    [setPreviewSize(size)] the size read by [previewSize()] is [size], after
    [setModel(m)] the model read by [model()] on the same thread is [m], and
    after [setPreviewWindow(window)] the window read by [previewWindow()] is
    [window]. *)
Theorem X13_getters_return_what_setters_stored caller st st' :
  (∀ size, setPreviewSize caller size st = Some st' →
           fst <$> previewSize st' = Some size) ∧
  (∀ m, setModel caller m st = Some st' → model caller st' = Some m) ∧
  (∀ window, setPreviewWindow caller window st = Some st' →
             previewWindow st' = window).
Proof.
  split_and!.
  - intros size (Hs & Hhas & _)%setPreviewSize_stores.
    unfold previewSize. rewrite Hhas. cbn. by rewrite Hs.
  - intros m (Hm & Hth & Hc)%setModel_stores.
    unfold model. rewrite Hth, Hc. cbn. by rewrite Hm.
  - intros window. unfold setPreviewWindow. case_binds; by intros [= <-].
Qed.

Lemma X13_getters_witness :
  ∃ st', setPreviewSize 7 {| size_width := 640; size_height := 480 |}
           (QQuickPreviewAdapter 7 true demo_world) = Some st' ∧
         fst <$> previewSize st' = Some {| size_width := 640; size_height := 480 |}.
Proof.
  eexists. split; [vm_compute; reflexivity|].
  match goal with |- fst <$> previewSize ?s = _ =>
    destruct (X13_getters_return_what_setters_stored 7
                (QQuickPreviewAdapter 7 true demo_world) s) as (Hsize & _)
  end.
  apply Hsize. vm_compute. reflexivity.
Defined.

(** X14.  [setModel] and [setPreviewSize] called again with the argument just
    given do nothing: the second call returns the state the first one
    returned, so it makes no call into the model and emits no signal. *)
Theorem X14_repeated_setter_is_a_no_op caller st st' :
  (∀ size, setPreviewSize caller size st = Some st' →
           setPreviewSize caller size st' = Some st') ∧
  (∀ m, setModel caller m st = Some st' → setModel caller m st' = Some st').
Proof.
  split.
  - intros size (Hs & Hhas & _ & Hth & Hc)%setPreviewSize_stores.
    unfold setPreviewSize. rewrite Hhas, Hth, Hc. cbn [Q_ASSERT mbind option_bind].
    by rewrite decide_False by (by intros ?).
  - intros m (Hm & Hth & Hc)%setModel_stores.
    unfold setModel. rewrite Hth, Hc. cbn [Q_ASSERT mbind option_bind].
    by rewrite decide_False by (by intros ?).
Qed.

Lemma X14_repeated_setter_witness :
  ∃ st', setModel 7 (Some 0%nat) (QQuickPreviewAdapter 7 true demo_world) = Some st' ∧
         setModel 7 (Some 0%nat) st' = Some st'.
Proof.
  eexists. split; [vm_compute; reflexivity|].
  match goal with |- setModel _ _ ?s = _ =>
    destruct (X14_repeated_setter_is_a_no_op 7
                (QQuickPreviewAdapter 7 true demo_world) s) as (_ & Hm)
  end.
  apply Hm. vm_compute. reflexivity.
Defined.


Ltac chains_frames :=
  repeat match goal with
  | H : removeChain _ _ ?w = Some ?w' |- _ =>
      apply removeChain_frame in H as [-> _]
  | H : addChain _ _ ?w = Some ?w' |- _ =>
      apply addChain_frame in H as (-> & _ & _)
  end.

Lemma run_call_chain_size c st st' :
  chain_has_preview_size st → run_call c st = Some st' → chain_has_preview_size st'.
Proof.
  intros (c0 & Hc0 & Hsz). unfold chain_has_preview_size.
  destruct c as [caller m|caller size|caller win|]; cbn [run_call].
  - unfold setModel. case_binds; intros [= <-]; cbn; chains_frames; by exists c0.
  - unfold setPreviewSize. case_binds; try (intros [= <-]; by exists c0).
    all: intros [= <-]; cbn; chains_frames.
    all: match goal with H : new_Chain _ _ = _ |- _ =>
           apply new_Chain_spec in H as (_ & -> & _) end.
    all: eexists; split; [reflexivity|]; apply lookup_insert_eq.
  - unfold setPreviewWindow. case_binds; intros [= <-]; by exists c0.
  - unfold previewSize. case_binds. cbn. intros [= <-]. by exists c0.
Qed.

(** X15.  The preview chain always is a chain object of the preview size:
    this holds of an adapter built with a preview and after any calls of
    [setModel], [setPreviewSize], [setPreviewWindow] and [previewSize] that
    return. *)
Theorem X15_chain_has_preview_size thread w cs st :
  run_calls cs (QQuickPreviewAdapter thread true w) = Some st →
  chain_has_preview_size st.
Proof.
  assert (chain_has_preview_size (QQuickPreviewAdapter thread true w)) as H0.
  { unfold QQuickPreviewAdapter. destruct (new_Chain _ w) as [c w'] eqn:E.
    apply new_Chain_spec in E as (_ & Hch & _). exists c. split; [done|].
    cbn. rewrite Hch. apply lookup_insert_eq. }
  revert H0. generalize (QQuickPreviewAdapter thread true w).
  induction cs as [|c cs IH]; intros st0 H0; cbn [run_calls].
  - by intros [= <-].
  - destruct (run_call c st0) as [st1|] eqn:E; [|done]. cbn [mbind option_bind].
    apply IH. by eapply run_call_chain_size.
Qed.

Lemma X15_chain_has_preview_size_witness :
  ∃ st, run_calls [do_setModel 7 (Some 0%nat);
                   do_setPreviewSize 7 {| size_width := 640; size_height := 480 |};
                   do_setModel 7 None]
          (QQuickPreviewAdapter 7 true demo_world) = Some st ∧
        m_previewChain (adapter st) = Some 1%nat ∧
        chain_has_preview_size st.
Proof.
  eexists. split; [vm_compute; reflexivity|]. split; [reflexivity|].
  apply (X15_chain_has_preview_size 7 demo_world
           [do_setModel 7 (Some 0%nat);
            do_setPreviewSize 7 {| size_width := 640; size_height := 480 |};
            do_setModel 7 None]).
  vm_compute. reflexivity.
Defined.

(** X16.  A render pass needs a model: with [m_model] null it does not
    return.  When it returns it has changed no member of the adapter except
    [m_lastPreviewRender], and it has left the trace as it was: it emits no
    signal and does not take [m_previewLock]. *)
Theorem X16_render_touches_only_the_result paint blank st :
  (m_model (adapter st) = None → onBeforeSynchronizing paint blank st = None) ∧
  (∀ st', onBeforeSynchronizing paint blank st = Some st' →
     trace st' = trace st ∧
     adapter st' = set_lastPreviewRender (m_lastPreviewRender (adapter st')) (adapter st) ∧
     m_hasPreview (adapter st) = true ∧ is_Some (m_model (adapter st))).
Proof.
  unfold onBeforeSynchronizing. split.
  - intros ->. by destruct (m_hasPreview (adapter st)).
  - intros st'. destruct (m_hasPreview (adapter st)); [|done].
    cbn [Q_ASSERT mbind option_bind].
    destruct (m_model (adapter st)) as [mp|]; [|done]. cbn [mbind option_bind].
    destruct (createCopyForRendering _ _ _) as [[w1 copy]|]; [|done].
    cbn [mbind option_bind].
    destruct (render _ _ _ _ _) as [r|]; [|done]. cbn [mbind option_bind].
    intros [= <-]. by split_and!.
Qed.

Lemma X16_render_witness :
  onBeforeSynchronizing demo_paint demo_blank (QQuickPreviewAdapter 7 true demo_world) = None ∧
  ∃ st st', demo_attached = Some st ∧
            onBeforeSynchronizing demo_paint demo_blank st = Some st' ∧
            trace st' = trace st.
Proof.
  split.
  - by apply (X16_render_touches_only_the_result demo_paint demo_blank
                (QQuickPreviewAdapter 7 true demo_world)).
  - let s := eval vm_compute in demo_attached in
    match s with Some ?x => pose (st := x) end.
    let s := eval vm_compute in (onBeforeSynchronizing demo_paint demo_blank st) in
    match s with Some ?x => pose (st' := x) end.
    assert (onBeforeSynchronizing demo_paint demo_blank st = Some st') as Hst'
      by (vm_compute; reflexivity).
    exists st, st'. split; [vm_compute; reflexivity|]. split; [exact Hst'|].
    by apply (X16_render_touches_only_the_result demo_paint demo_blank st).
Defined.

End PreviewMore.

(* ===================================================================== *)
(** ** Facts about the layout of the graph *)
(* ===================================================================== *)

Section LayoutFacts.
Import Graph.

Lemma js_index_insert {A} (l : list A) (k : Z) (a : A) x :
  is_Some (js_index l k) →
  js_index (<[Z.to_nat k := a]> l) x = if decide (x = k) then Some a else js_index l x.
Proof.
  unfold js_index. intros [b Hb]. destruct (decide (0 ≤ k)); [|done].
  apply lookup_lt_Some in Hb.
  destruct (decide (x = k)) as [->|Hne].
  - rewrite decide_True by done. by apply list_lookup_insert_eq.
  - destruct (decide (0 ≤ x)); [|done]. apply list_lookup_insert_ne. lia.
Qed.

Lemma js_index_lt {A} (l : list A) (k : Z) :
  is_Some (js_index l k) ↔ 0 ≤ k < Z.of_nat (length l).
Proof.
  unfold js_index. destruct (decide (0 ≤ k)).
  - rewrite lookup_lt_is_Some. lia.
  - split; [by intros [? ?] | lia].
Qed.

Lemma tableEdge_effect tb e tb' :
  tables_wf tb → tableEdge tb e = Done tb' →
  downVertex tb (fromVertex e) = Some None ∧ upSlot tb (toVertex e) (toInput e) = Some None ∧
  (∀ x, downVertex tb' x = if decide (x = fromVertex e) then Some (Some (toVertex e)) else downVertex tb x) ∧
  (∀ x, downInput tb' x = if decide (x = fromVertex e) then Some (Some (toInput e)) else downInput tb x) ∧
  (∀ v i, upSlot tb' v i =
          if decide ((v, i) = target e) then Some (Some (fromVertex e)) else upSlot tb v i) ∧
  tables_wf tb' ∧ tables_shape tb' = tables_shape tb.
Proof.
  intros Hwf. unfold tableEdge.
  destruct (js_index (downstreamTileVertex tb) (fromVertex e)) as [[?|]|] eqn:Hd; try done.
  destruct (js_index (upstreamTileVertices tb) (toVertex e)) as [inputs|] eqn:Hin; [|done].
  destruct (decide (_ ≤ _)); [done|].
  destruct (js_index inputs (toInput e)) as [[?|]|] eqn:Hs; try done.
  intros [= <-]. unfold downVertex, downInput, upSlot, upstream_of, tables_wf, tables_shape, target.
  cbn [downstreamTileVertex downstreamTileInput upstreamTileVertices].
  split; [done|]. split; [by rewrite Hin|].
  split; [intros x; by apply js_index_insert|].
  split.
  { intros x. apply js_index_insert. apply js_index_lt. rewrite Hwf.
    apply js_index_lt. by eexists. }
  split.
  { intros v i. rewrite js_index_insert by (by eexists).
    destruct (decide (v = toVertex e)) as [->|Hv].
    - cbn [mbind option_bind]. rewrite js_index_insert by (by eexists).
      rewrite Hin. cbn [mbind option_bind].
      destruct (decide (i = toInput e)) as [->|Hi].
      + by rewrite decide_True.
      + rewrite decide_False; [done|]. by intros [= ?].
    - rewrite decide_False; [done|]. by intros [= ?]. }
  split; [by rewrite !length_insert|].
  rewrite length_insert. f_equal. rewrite list_fmap_insert, length_insert.
  apply list_insert_id. rewrite list_lookup_fmap.
  revert Hin. unfold js_index. case_decide; [|done]. by intros ->.
Qed.

Lemma tableEdge_accepts tb e :
  downVertex tb (fromVertex e) = Some None → upSlot tb (toVertex e) (toInput e) = Some None →
  ∃ tb', tableEdge tb e = Done tb'.
Proof.
  unfold downVertex, upSlot, upstream_of, tableEdge. intros ->.
  destruct (js_index (upstreamTileVertices tb) _) as [inputs|]; [|done].
  cbn [mbind option_bind]. intros Hs. rewrite Hs.
  rewrite decide_False; [by eexists|].
  assert (is_Some (js_index inputs (toInput e))) as ?%js_index_lt by (by eexists). lia.
Qed.

Lemma tableEdges_effect es tb tb' :
  tables_wf tb → tableEdges tb es = Done tb' →
  NoDup (fromVertex <$> es) ∧ NoDup (target <$> es) ∧
  (∀ e, e ∈ es → downVertex tb (fromVertex e) = Some None ∧
                 upSlot tb (toVertex e) (toInput e) = Some None) ∧
  (∀ e, e ∈ es → downVertex tb' (fromVertex e) = Some (Some (toVertex e)) ∧
                 downInput tb' (fromVertex e) = Some (Some (toInput e)) ∧
                 upSlot tb' (toVertex e) (toInput e) = Some (Some (fromVertex e))) ∧
  (∀ x, x ∉ fromVertex <$> es → downVertex tb' x = downVertex tb x ∧ downInput tb' x = downInput tb x) ∧
  (∀ v i, (v, i) ∉ target <$> es → upSlot tb' v i = upSlot tb v i) ∧
  tables_wf tb' ∧ tables_shape tb' = tables_shape tb.
Proof.
  revert tb. induction es as [|e es IH]; intros tb Hwf; cbn [tableEdges fmap list_fmap].
  - intros [= <-].
    split_and!; try done; try apply NoDup_nil_2; by intros e' ?%elem_of_nil.
  - destruct (tableEdge tb e) as [tb1|] eqn:E; [|done]. intros Hrun.
    destruct (tableEdge_effect _ _ _ Hwf E) as (Hd & Hu & Hdn & Hdi & Hus & Hwf1 & Hsh1).
    destruct (IH _ Hwf1 Hrun) as (Hnf & Hnt & Hfree & Hrec & Hod & Hou & Hwf' & Hsh').
    assert (fromVertex e ∉ fromVertex <$> es) as Hf.
    { intros (e' & Heq & He')%list_elem_of_fmap.
      destruct (Hfree e' He') as [Hd' _]. rewrite <-Heq, Hdn, decide_True in Hd' by done.
      done. }
    assert (target e ∉ target <$> es) as Ht.
    { intros (e' & Heq & He')%list_elem_of_fmap.
      destruct (Hfree e' He') as [_ Hu']. rewrite Hus, decide_True in Hu' by done.
      done. }
    split_and!.
    + by constructor.
    + by constructor.
    + intros e' [->|He']%elem_of_cons; [done|].
      destruct (Hfree e' He') as [Hd' Hu']. rewrite Hdn in Hd'. rewrite Hus in Hu'.
      by repeat case_decide.
    + intros e' [->|He']%elem_of_cons; [|by apply Hrec].
      destruct (Hod _ Hf) as [-> ->]. rewrite (Hou _ _ Ht : upSlot tb' (toVertex e) (toInput e) = _).
      rewrite Hdn, Hdi, Hus, !decide_True by done. done.
    + intros x [Hne Hx]%not_elem_of_cons. destruct (Hod _ Hx) as [-> ->].
      by rewrite Hdn, Hdi, !decide_False.
    + intros v i [Hne Hx]%not_elem_of_cons. rewrite (Hou _ _ Hx), Hus.
      by rewrite decide_False.
    + done.
    + congruence.
Qed.

Lemma tableEdges_accepts es tb :
  tables_wf tb → NoDup (fromVertex <$> es) → NoDup (target <$> es) →
  (∀ e, e ∈ es → downVertex tb (fromVertex e) = Some None ∧
                 upSlot tb (toVertex e) (toInput e) = Some None) →
  ∃ tb', tableEdges tb es = Done tb'.
Proof.
  revert tb. induction es as [|e es IH]; intros tb Hwf; cbn [tableEdges fmap list_fmap];
    [by eexists|].
  intros [Hf Hnf]%NoDup_cons [Ht Hnt]%NoDup_cons Hfree.
  destruct (Hfree e) as [Hd Hu]; [left|].
  destruct (tableEdge_accepts _ _ Hd Hu) as [tb1 E]. rewrite E.
  destruct (tableEdge_effect _ _ _ Hwf E) as (_ & _ & Hdn & _ & Hus & Hwf1 & _).
  apply IH; try done. intros e' He'. destruct (Hfree e') as [Hd' Hu']; [by right|].
  rewrite Hdn, Hus. split.
  - rewrite decide_False; [done|]. intros Heq. apply Hf. rewrite <-Heq.
    by apply (list_elem_of_fmap_2 fromVertex).
  - rewrite decide_False; [done|]. intros Heq. apply Ht. rewrite <-Heq.
    by apply (list_elem_of_fmap_2 target).
Qed.

Lemma tables_init_wf tiles : tables_wf (tables_init tiles).
Proof. unfold tables_wf, tables_init. cbn. by rewrite !length_fmap. Qed.

Lemma downVertex_init tiles x :
  downVertex (tables_init tiles) x = (λ _, None) <$> js_index tiles x.
Proof.
  unfold downVertex, tables_init, js_index. cbn [downstreamTileVertex].
  case_decide; [|done]. by rewrite list_lookup_fmap.
Qed.

Lemma upSlot_init tiles v i :
  upSlot (tables_init tiles) v i =
    tile ← js_index tiles v;
    if decide (0 ≤ i < Z.of_nat (tile_nInputs tile)) then Some None else None.
Proof.
  unfold upSlot, upstream_of, tables_init, js_index. cbn [upstreamTileVertices].
  destruct (decide (0 ≤ v)); [|done]. rewrite list_lookup_fmap.
  destruct (tiles !! _) as [tile|]; [|done]. cbn [fmap option_fmap option_map mbind option_bind].
  destruct (decide (0 ≤ i)).
  - destruct (decide (0 ≤ i < _)).
    + apply lookup_replicate_2. lia.
    + apply lookup_ge_None. rewrite length_replicate. lia.
  - rewrite decide_False; [done | lia].
Qed.

Lemma upSlot_init_null tiles e :
  upSlot (tables_init tiles) (toVertex e) (toInput e) = Some None ↔ tile_in_range tiles e.
Proof.
  rewrite upSlot_init. unfold tile_in_range. split.
  - destruct (js_index tiles _) as [tile|]; [|done]. cbn [mbind option_bind].
    case_decide; [|done]. intros _. by exists tile.
  - intros (tile & -> & ?). cbn [mbind option_bind]. by rewrite decide_True.
Qed.

Lemma downVertex_init_null tiles x :
  downVertex (tables_init tiles) x = Some None ↔ is_Some (js_index tiles x).
Proof.
  rewrite downVertex_init. destruct (js_index tiles x); cbn; split; done.
Qed.

Lemma filter_ext_in {A} (P Q : A → Prop) `{∀ x, Decision (P x), ∀ x, Decision (Q x)}
    (l : list A) :
  (∀ x, x ∈ l → P x ↔ Q x) → filter P l = filter Q l.
Proof.
  induction l as [|x l IH]; intros Hall; [done|].
  rewrite !filter_cons. rewrite IH by (intros y Hy; apply Hall; by right).
  assert (P x ↔ Q x) as Hx by (apply Hall; left).
  destruct (decide (P x)) as [HP|HP], (decide (Q x)) as [HQ|HQ]; tauto || done.
Qed.

(** X21.  The loop of [relayoutGraph] over the tile edges accepts an edge
    list exactly when every edge leaves a tile that exists and ends at an
    input that exists, no two edges leave the same tile, and no two edges
    end at the same input. *)
Theorem X21_relayout_accepts_iff tiles es :
  (∃ tb, relayout_tables tiles es = Done tb) ↔
  Forall (λ e, is_Some (js_index tiles (fromVertex e)) ∧ tile_in_range tiles e) es ∧
  NoDup (fromVertex <$> es) ∧ NoDup (target <$> es).
Proof.
  unfold relayout_tables. split.
  - intros [tb Hrun].
    destruct (tableEdges_effect _ _ _ (tables_init_wf tiles) Hrun)
      as (Hnf & Hnt & Hfree & _).
    split; [|done]. apply Forall_forall. intros e [Hd Hu]%Hfree.
    split; [by apply downVertex_init_null | by apply upSlot_init_null].
  - intros (Hall & Hnf & Hnt).
    apply tableEdges_accepts; [apply tables_init_wf | done | done |].
    intros e He. rewrite Forall_forall in Hall. destruct (Hall e He) as [Hf Ht].
    split; [by apply downVertex_init_null | by apply upSlot_init_null].
Qed.

(** X22.  When the loop accepts the edge list, the tables hold exactly the
    edges: for every edge, the downstream vertex and input of its source
    are its destination, and the slot of its destination input holds its
    source; every other entry is as it was set up.  The roots are then the
    indices of the tiles that are the source of no edge, in increasing
    order. *)
Theorem X22_relayout_tables_record_the_edges tiles es tb :
  relayout_tables tiles es = Done tb →
  (∀ e, e ∈ es →
     downVertex tb (fromVertex e) = Some (Some (toVertex e)) ∧
     downInput tb (fromVertex e) = Some (Some (toInput e)) ∧
     upSlot tb (toVertex e) (toInput e) = Some (Some (fromVertex e))) ∧
  (∀ x, x ∉ fromVertex <$> es →
     downVertex tb x = downVertex (tables_init tiles) x ∧
     downInput tb x = downInput (tables_init tiles) x) ∧
  (∀ v i, (v, i) ∉ target <$> es → upSlot tb v i = upSlot (tables_init tiles) v i) ∧
  roots tiles tb =
    filter (λ x, x ∉ fromVertex <$> es) (Z.of_nat <$> seq 0 (length tiles)).
Proof.
  unfold relayout_tables. intros Hrun.
  destruct (tableEdges_effect _ _ _ (tables_init_wf tiles) Hrun)
    as (_ & _ & _ & Hrec & Hod & Hou & _).
  split_and!; try done.
  unfold roots. apply filter_ext_in.
  intros x (k & -> & Hk%elem_of_seq)%list_elem_of_fmap.
  fold (downVertex tb (Z.of_nat k)).
  destruct (decide (Z.of_nat k ∈ fromVertex <$> es)) as [Hin|Hnot].
  - apply list_elem_of_fmap in Hin as (e & Heq & He).
    destruct (Hrec e He) as (Hd & _). rewrite <-Heq in Hd. rewrite Hd.
    split; [done|]. intros Hnot. exfalso. apply Hnot. rewrite Heq.
    by apply (list_elem_of_fmap_2 fromVertex).
  - destruct (Hod _ Hnot) as [-> _]. split; [done|]. intros _.
    apply downVertex_init_null. apply js_index_lt. lia.
Qed.

(** *** Following the downstream table *)

Lemma walk_add down a b x :
  walk down (a + b) x = walk down a x ≫= walk down b.
Proof.
  revert x. induction a as [|a IH]; intros x; cbn [walk Nat.add]; [done|].
  destruct (js_index down x) as [[y|]|]; [apply IH | done | done].
Qed.

Lemma walk_1 down x y :
  walk down 1 x = Some y ↔ js_index down x = Some (Some y).
Proof.
  cbn [walk]. destruct (js_index down x) as [[z|]|]; split; congruence.
Qed.

Lemma walk_root down j r :
  js_index down r = Some None → walk down j r = if j is O then Some r else None.
Proof. intros Hr. destruct j; cbn [walk]; [done|]. by rewrite Hr. Qed.

Lemma rank_det tb v k k' : rank tb v k → rank tb v k' → k = k'.
Proof.
  assert (∀ k k', k ≤ k' → rank tb v k → rank tb v k' → k = k')%nat as Hle.
  { clear k k'. intros k k' Hle (r & Hr & Hnull) (r' & Hr' & _).
    replace k' with (k + (k' - k))%nat in Hr' by lia.
    rewrite walk_add, Hr in Hr'. cbn [mbind option_bind] in Hr'.
    rewrite (walk_root _ _ _ Hnull) in Hr'. destruct (k' - k)%nat eqn:E; [lia | done]. }
  intros H1 H2. destruct (decide (k ≤ k')%nat); [by apply Hle|].
  symmetry. apply Hle; [lia | done | done].
Qed.

Lemma rank_above tb v k x j :
  rank tb v k → walk (downstreamTileVertex tb) j x = Some v → rank tb x (j + k).
Proof.
  intros (r & Hr & Hnull) Hx. exists r. split; [|done].
  by rewrite walk_add, Hx.
Qed.

Lemma rank_up tb v k u :
  downVertex tb u = Some (Some v) → rank tb v k → rank tb u (S k).
Proof. intros Hu%walk_1 Hv. by apply (rank_above _ _ _ _ 1%nat Hv). Qed.

Lemma above_refl tb v : above tb v v.
Proof. by exists 0%nat. Qed.

Lemma above_up tb v u x :
  downVertex tb u = Some (Some v) → above tb u x → above tb v x.
Proof.
  intros Hu%walk_1 [j Hj]. exists (j + 1)%nat. by rewrite walk_add, Hj.
Qed.

(** No tile that leads to a root lies upstream of itself. *)
Lemma no_cycle tb v k u :
  rank tb v k → downVertex tb u = Some (Some v) → ¬ above tb u v.
Proof.
  intros Hv Hu [j Hj].
  pose proof (rank_above _ _ _ _ _ (rank_up _ _ _ _ Hu Hv) Hj) as Hv'.
  pose proof (rank_det _ _ _ _ Hv Hv'). lia.
Qed.

(** Two tiles that feed the same tile have nothing upstream in common. *)
Lemma above_disjoint tb v k u u' x :
  rank tb v k → downVertex tb u = Some (Some v) → downVertex tb u' = Some (Some v) →
  above tb u x → above tb u' x → u = u'.
Proof.
  intros Hv Hu Hu' [a Ha] [b Hb].
  pose proof (rank_above _ _ _ _ _ (rank_up _ _ _ _ Hu Hv) Ha) as H1.
  pose proof (rank_above _ _ _ _ _ (rank_up _ _ _ _ Hu' Hv) Hb) as H2.
  assert (a = b) as -> by (pose proof (rank_det _ _ _ _ H1 H2); lia).
  congruence.
Qed.

(** Two roots have nothing upstream in common. *)
Lemma above_roots_disjoint tb r r' x :
  downVertex tb r = Some None → downVertex tb r' = Some None →
  above tb r x → above tb r' x → r = r'.
Proof.
  intros Hr Hr' [a Ha] [b Hb].
  assert (rank tb x a) as H1 by (by exists r).
  assert (rank tb x b) as H2 by (by exists r').
  rewrite (rank_det _ _ _ _ H1 H2) in Ha. congruence.
Qed.

(** The vertices passed on the way down to a root are distinct, so there
    are at most as many as there are tiles. *)
Lemma rank_path tb v k :
  rank tb v k →
  ∃ path : list Z, length path = S k ∧ NoDup path ∧
    ∀ y, y ∈ path → (∃ j, (j ≤ k)%nat ∧ rank tb y j) ∧ is_Some (downVertex tb y).
Proof.
  revert v. induction k as [|k IH]; intros v Hv.
  - exists [v]. split; [done|]. split; [apply NoDup_singleton|].
    intros y ->%list_elem_of_singleton. split; [by exists 0%nat|].
    destruct Hv as (r & [= <-] & Hr). by eexists.
  - pose proof Hv as (r & Hr & Hnull). cbn [walk] in Hr.
    destruct (js_index (downstreamTileVertex tb) v) as [[y|]|] eqn:Hy; try done.
    destruct (IH y) as (path & Hlen & Hnd & Hall); [by exists r|].
    exists (v :: path). split; [cbn; lia|]. split.
    + apply NoDup_cons. split; [|done]. intros [(j & Hj & Hrk) _]%Hall.
      pose proof (rank_det _ _ _ _ Hv Hrk). lia.
    + intros z [->|Hz]%elem_of_cons.
      * split; [by exists (S k) | by eexists].
      * destruct (Hall z Hz) as [(j & Hj & Hrk) Hs]. split; [|done].
        exists j. split; [lia | done].
Qed.

Lemma rank_bound tb v k :
  rank tb v k → (k < length (downstreamTileVertex tb))%nat.
Proof.
  intros (path & Hlen & Hnd & Hall)%rank_path.
  assert (path ⊆+ Z.of_nat <$> seq 0 (length (downstreamTileVertex tb))) as Hsub.
  { apply NoDup_submseteq; [done|]. intros y [_ Hy%js_index_lt]%Hall.
    apply list_elem_of_fmap. exists (Z.to_nat y). split; [lia|].
    apply elem_of_seq. lia. }
  apply submseteq_length in Hsub. rewrite length_fmap, length_seq in Hsub. lia.
Qed.

(** *** The tables of an accepted edge list *)

Lemma relayout_tables_linked tiles es tb :
  relayout_tables tiles es = Done tb → linked tb ∧ fits tb tiles.
Proof.
  unfold relayout_tables. intros Hrun.
  destruct (tableEdges_effect _ _ _ (tables_init_wf tiles) Hrun)
    as (_ & _ & _ & Hrec & Hod & Hou & _ & Hshape).
  split; [split|].
  - intros v i u Hs.
    destruct (decide ((v, i) ∈ target <$> es)) as [Hin|Hnot].
    + apply list_elem_of_fmap in Hin as (e & [= -> ->] & He).
      destruct (Hrec e He) as (Hd & Hdi & Hu). rewrite Hs in Hu.
      injection Hu as ->. done.
    + rewrite (Hou _ _ Hnot), upSlot_init in Hs.
      destruct (js_index tiles v); [|done]. cbn [mbind option_bind] in Hs.
      by case_decide.
  - intros u v Hd.
    destruct (decide (u ∈ fromVertex <$> es)) as [Hin|Hnot].
    + apply list_elem_of_fmap in Hin as (e & -> & He).
      destruct (Hrec e He) as (Hd' & _ & Hu). rewrite Hd in Hd'.
      injection Hd' as ->. by eexists.
    + destruct (Hod _ Hnot) as [Hd' _]. rewrite Hd', downVertex_init in Hd.
      by destruct (js_index tiles u).
  - unfold fits. rewrite Hshape. unfold tables_shape, tables_init.
    cbn [downstreamTileVertex upstreamTileVertices]. rewrite length_fmap. f_equal.
    rewrite <-list_fmap_compose. apply list_fmap_ext. intros _ t _. cbn.
    apply length_replicate.
Qed.

Lemma fits_length tb tiles :
  fits tb tiles → length (downstreamTileVertex tb) = length tiles.
Proof. by intros [= ? _]. Qed.

Lemma fits_inputs tb tiles v tile :
  fits tb tiles → js_index tiles v = Some tile →
  ∃ inputs, js_index (upstreamTileVertices tb) v = Some inputs ∧
            length inputs = tile_nInputs tile.
Proof.
  intros [= _ Hsh]. unfold js_index. case_decide; [|done]. intros Ht.
  assert ((length <$> upstreamTileVertices tb) !! Z.to_nat v = Some (tile_nInputs tile))
    as Hl by (by rewrite Hsh, list_lookup_fmap, Ht).
  rewrite list_lookup_fmap in Hl.
  destruct (upstreamTileVertices tb !! _) as [inputs|]; [|done].
  injection Hl as Hl. by exists inputs.
Qed.

Lemma fits_tile tb tiles x :
  fits tb tiles → is_Some (downVertex tb x) → is_Some (js_index tiles x).
Proof.
  intros Hfit Hx. apply js_index_lt. apply js_index_lt in Hx.
  by rewrite <-(fits_length _ _ Hfit).
Qed.

Lemma upSlot_range tb tiles v tile i x :
  fits tb tiles → js_index tiles v = Some tile → upSlot tb v i = Some x →
  0 ≤ i < Z.of_nat (tile_nInputs tile).
Proof.
  intros Hfit Ht. destruct (fits_inputs _ _ _ _ Hfit Ht) as (inputs & Hin & <-).
  unfold upSlot, upstream_of. rewrite Hin. cbn [mbind option_bind].
  intros Hs. apply js_index_lt. by eexists.
Qed.

Lemma upSlot_defined tb tiles v tile i :
  fits tb tiles → js_index tiles v = Some tile → (i < tile_nInputs tile)%nat →
  is_Some (upSlot tb v (Z.of_nat i)).
Proof.
  intros Hfit Ht Hi. destruct (fits_inputs _ _ _ _ Hfit Ht) as (inputs & Hin & Hlen).
  unfold upSlot, upstream_of. rewrite Hin. cbn [mbind option_bind].
  apply js_index_lt. lia.
Qed.

Lemma rank_in_range tb v k : rank tb v k → is_Some (downVertex tb v).
Proof.
  intros (r & Hr & Hnull). destruct k; cbn [walk] in Hr.
  - injection Hr as ->. by eexists.
  - unfold downVertex. destruct (js_index _ v) as [[y|]|]; [by eexists | done | done].
Qed.

Lemma above_step tb w x u :
  downVertex tb u = Some (Some x) → above tb w x → above tb w u.
Proof.
  intros Hu [j Hj]. exists (S j). cbn [walk]. unfold downVertex in Hu. by rewrite Hu.
Qed.

Lemma above_split tb v x :
  above tb v x → x = v ∨ ∃ y, downVertex tb y = Some (Some v) ∧ above tb y x.
Proof.
  intros [j Hj]. destruct j as [|j]; [left; by injection Hj|]. right.
  replace (S j) with (j + 1)%nat in Hj by lia. rewrite walk_add in Hj.
  destruct (walk _ j x) as [y|] eqn:Hy; [|done]. cbn [mbind option_bind] in Hj.
  exists y. split; [by apply walk_1 | by exists j].
Qed.

(** *** The store of tiles *)

Lemma js_index_push v h tiles x :
  0 ≤ v →
  js_index (push_inputHeight v h tiles) x =
    if decide (x = v)
    then (λ tile, set_inputHeights (inputHeights tile ++ [h]) tile) <$> js_index tiles v
    else js_index tiles x.
Proof.
  intros Hv. unfold js_index, push_inputHeight.
  destruct (decide (x = v)) as [->|Hne].
  - rewrite !decide_True by done. apply list_lookup_alter_eq.
  - destruct (decide (0 ≤ x)); [|done]. apply list_lookup_alter_ne. lia.
Qed.

Lemma fits_push tb v h tiles : fits tb tiles → fits tb (push_inputHeight v h tiles).
Proof.
  unfold fits, push_inputHeight. intros ->. rewrite length_alter. f_equal.
  rewrite (list_fmap_alter tile_nInputs _ id) by (by apply Forall_true).
  by rewrite list_alter_id.
Qed.

Lemma fits_insert tb v tile hs tiles :
  fits tb tiles → js_index tiles v = Some tile →
  fits tb (<[Z.to_nat v := set_inputHeights hs tile]> tiles).
Proof.
  unfold fits, js_index. intros -> Ht. case_decide; [|done].
  rewrite length_insert, list_fmap_insert. f_equal.
  symmetry. apply list_insert_id. by rewrite list_lookup_fmap, Ht.
Qed.

Lemma height_at_ext t1 t2 x :
  js_index t2 x = js_index t1 x → height_at t2 x = height_at t1 x.
Proof. unfold height_at. by intros ->. Qed.

Lemma input_height_ext tb t1 t2 x i :
  (∀ u, upSlot tb x (Z.of_nat i) = Some (Some u) → js_index t2 u = js_index t1 u) →
  input_height tb t2 x i = input_height tb t1 x i.
Proof.
  unfold input_height. intros Hup.
  destruct (upSlot tb x (Z.of_nat i)) as [[u|]|]; [|done|done].
  by rewrite (height_at_ext t1 t2 u) by (by apply Hup).
Qed.

Lemma heights_set_ext tb t1 t2 x :
  js_index t2 x = js_index t1 x →
  (∀ i u, upSlot tb x i = Some (Some u) → js_index t2 u = js_index t1 u) →
  heights_set tb t1 x → heights_set tb t2 x.
Proof.
  intros Hx Hup (tile & Ht & Hh). exists tile. split; [by rewrite Hx|].
  rewrite Hh. case_decide; [done|].
  apply list_fmap_ext. intros _ i _. symmetry. apply input_height_ext. intros u. apply Hup.
Qed.

(** *** [setInputHeightsFwd] *)

Section Fwd.
Context (tb : Tables) (Hlinked : linked tb).

(** The store after input [i]: [cur1] is the store after the recursive call,
    or the store before when the input is not connected. *)
Lemma fwd_inv_step tiles v k i cur cur1 :
  rank tb v k →
  fwd_inv tb tiles v i cur →
  fits tb cur1 →
  (∀ x, (∀ u, upSlot tb v (Z.of_nat i) = Some (Some u) → ¬ above tb u x) →
        js_index cur1 x = js_index cur x) →
  (∀ u x, upSlot tb v (Z.of_nat i) = Some (Some u) → above tb u x →
          heights_set tb cur1 x) →
  fwd_inv tb tiles v (S i) (push_inputHeight v (input_height tb cur1 v i) cur1).
Proof.
  destruct Hlinked as [K1 K2].
  intros Hrank (Hfit & (t & Ht & Hh) & Hframe & Hdone) Hfit1 Hsame Hnew.
  assert (0 ≤ v) as Hv0.
  { assert (is_Some (js_index cur v)) as ?%js_index_lt by (by eexists). lia. }
  assert (∀ u, upSlot tb v (Z.of_nat i) = Some (Some u) → ¬ above tb u v) as F1.
  { intros u [Hu _]%K1. by eapply no_cycle. }
  assert (∀ j uj x, upSlot tb v (Z.of_nat j) = Some (Some uj) → above tb uj x → x ≠ v) as F4.
  { intros j uj x [Hu _]%K1 Hx ->. by eapply no_cycle. }
  assert (∀ j uj x, (j < i)%nat → upSlot tb v (Z.of_nat j) = Some (Some uj) →
                    above tb uj x →
                    ∀ u, upSlot tb v (Z.of_nat i) = Some (Some u) → ¬ above tb u x) as F2.
  { intros j uj x Hj [Huj Hij]%K1 Hx u [Hu Hi]%K1 Hx'.
    assert (uj = u) as -> by (by eapply above_disjoint).
    rewrite Hij in Hi. injection Hi. lia. }
  set (cur2 := push_inputHeight v _ cur1).
  assert (∀ x, x ≠ v → js_index cur2 x = js_index cur1 x) as Hpush.
  { intros x Hx. unfold cur2. by rewrite js_index_push, decide_False by done. }
  split; [by apply fits_push|]. split; [|split].
  - exists (set_inputHeights (inputHeights t ++ [input_height tb cur1 v i]) t).
    split.
    { unfold cur2. rewrite js_index_push, decide_True by done.
      rewrite (Hsame v F1), Ht. done. }
    cbn [inputHeights set_inputHeights]. rewrite seq_S, fmap_app, Hh. cbn [Nat.add].
    f_equal.
    + apply list_fmap_ext. intros j ? [-> Hj]%lookup_seq.
      cbn [Nat.add]. symmetry. apply input_height_ext. intros uj Huj.
      rewrite Hpush by (eapply F4; [done | apply above_refl]).
      apply Hsame. by eapply F2; [| |apply above_refl].
    + cbn. f_equal. symmetry. apply input_height_ext. intros u Hu.
      apply Hpush. eapply F4; [done | apply above_refl].
  - intros x Hx. rewrite Hpush by (intros ->; apply Hx, above_refl).
    rewrite Hsame; [by apply Hframe|]. intros u [Hu _]%K1 Hux. apply Hx.
    by eapply above_up.
  - intros j uj x Hj Huj Hx.
    assert (∀ y, above tb uj y → js_index cur2 y = js_index cur1 y) as Hpush'.
    { intros y Hy. apply Hpush. by eapply F4. }
    assert (∀ i' u', upSlot tb x i' = Some (Some u') → above tb uj u') as Hups.
    { intros i' u' [Hu' _]%K1. by eapply above_step. }
    destruct (decide (j = i)) as [->|Hne].
    + eapply (heights_set_ext _ cur1); [by apply Hpush' | | by eapply Hnew].
      intros i' u' Hu'. apply Hpush'. by eapply Hups.
    + assert (j < i)%nat as Hlt by lia.
      eapply (heights_set_ext _ cur); [| | by eapply Hdone].
      * rewrite Hpush' by done. apply Hsame. by eapply F2.
      * intros i' u' Hu'. rewrite Hpush' by (by eapply Hups).
        apply Hsame. eapply F2; [done | done |]. by eapply Hups.
Qed.

Lemma fits_nInputs tiles1 tiles2 v t1 t2 :
  fits tb tiles1 → fits tb tiles2 →
  js_index tiles1 v = Some t1 → js_index tiles2 v = Some t2 →
  tile_nInputs t1 = tile_nInputs t2.
Proof.
  intros H1 H2 Ht1 Ht2.
  destruct (fits_inputs _ _ _ _ H1 Ht1) as (inputs & Hin & <-).
  destruct (fits_inputs _ _ _ _ H2 Ht2) as (inputs' & Hin' & <-). congruence.
Qed.

Lemma fwd_inputs_spec rec tiles v k tile :
  (∀ u cur, rank tb u (S k) → fits tb cur →
            ∃ cur', rec cur u = Some (Done cur') ∧ fwd_post tb cur u cur') →
  rank tb v k → fits tb tiles → js_index tiles v = Some tile →
  ∀ todo i cur,
    (i + todo = tile_nInputs tile)%nat → fwd_inv tb tiles v i cur →
    ∃ cur', fwd_inputs rec (upstreamTileVertices tb) v tile (seq i todo) cur
              = Some (Done cur') ∧
            fwd_inv tb tiles v (i + todo) cur'.
Proof.
  intros IH Hrank Hfit Htile. pose proof Hlinked as [K1 K2].
  induction todo as [|todo IHtodo]; intros i cur Hi Hinv.
  { exists cur. rewrite Nat.add_0_r. done. }
  cbn [seq fwd_inputs]. unfold minInputHeight.
  fold (upSlot tb v (Z.of_nat i)).
  pose proof Hinv as (Hfitc & (t & Ht & _) & _).
  pose proof (fits_nInputs cur tiles v t tile Hfitc Hfit Ht Htile) as Hm.
  destruct (upSlot_defined tb cur v t i) as [[u|] Hslot]; [done | done | lia | |].
  - rewrite Hslot. destruct (K1 _ _ _ Hslot) as [Hdown _].
    destruct (IH u cur) as (cur1 & -> & Hfit1 & Hframe1 & Hset1);
      [by eapply rank_up | done |].
    destruct (fits_tile tb cur1 u) as [utile Hutile]; [done | rewrite Hdown; eauto |].
    rewrite Hutile.
    assert (Z.max 180 (height utile) = input_height tb cur1 v i) as ->.
    { unfold input_height, height_at. by rewrite Hslot, Hutile. }
    replace (i + S todo)%nat with (S i + todo)%nat by lia.
    apply IHtodo; [lia|]. eapply fwd_inv_step; try done.
    + intros x Hx. apply Hframe1. by apply Hx.
    + intros u' x Hu'. rewrite Hslot in Hu'. injection Hu' as <-. apply Hset1.
  - rewrite Hslot.
    assert (180 = input_height tb cur v i) as ->.
    { unfold input_height. by rewrite Hslot. }
    replace (i + S todo)%nat with (S i + todo)%nat by lia.
    apply IHtodo; [lia|]. eapply fwd_inv_step; try done.
    intros u' x Hu'. by rewrite Hslot in Hu'.
Qed.

Lemma setInputHeightsFwd_spec fuel :
  ∀ v k tiles,
    rank tb v k → (length (downstreamTileVertex tb) ≤ fuel + k)%nat → fits tb tiles →
    ∃ tiles', setInputHeightsFwd fuel (upstreamTileVertices tb) tiles v
                = Some (Done tiles') ∧
              fwd_post tb tiles v tiles'.
Proof.
  pose proof Hlinked as [K1 K2].
  induction fuel as [|fuel IH]; intros v k tiles Hrank Hfuel Hfit.
  { apply rank_bound in Hrank. lia. }
  cbn [setInputHeightsFwd].
  destruct (fits_tile tb tiles v) as [tile Htile]; [done | by eapply rank_in_range |].
  rewrite Htile.
  assert (0 ≤ v) as Hv0.
  { assert (is_Some (js_index tiles v)) as ?%js_index_lt by (by eexists). lia. }
  set (tiles0 := <[Z.to_nat v := set_inputHeights [] tile]> tiles).
  assert (∀ x, x ≠ v → js_index tiles0 x = js_index tiles x) as H0.
  { intros x Hx. unfold tiles0. rewrite js_index_insert by (by eexists).
    by rewrite decide_False. }
  assert (js_index tiles0 v = Some (set_inputHeights [] tile)) as H0v.
  { unfold tiles0. rewrite js_index_insert by (by eexists). by rewrite decide_True. }
  destruct (fwd_inputs_spec (setInputHeightsFwd fuel (upstreamTileVertices tb))
              tiles v k tile) with (todo := tile_nInputs tile) (i := 0%nat) (cur := tiles0)
    as (cur' & -> & Hfit' & (t & Ht & Hh) & Hframe & Hdone); try done.
  { intros u cur Hu Hcur. apply (IH u (S k) cur); [done | lia | done]. }
  { split; [by apply fits_insert|]. split; [by eexists|]. split; [|intros; lia].
    intros x Hx. apply H0. intros ->. apply Hx, above_refl. }
  cbn [Nat.add] in *.
  pose proof (fits_nInputs cur' tiles v t tile Hfit' Hfit Ht Htile) as Hm.
  assert (∀ x, above tb v x → x ≠ v → heights_set tb cur' x) as Hothers.
  { intros x [->|(y & Hy & Hx)]%above_split Hne; [done|].
    destruct (K2 _ _ Hy) as [i Hi].
    pose proof (upSlot_range _ _ _ _ _ _ Hfit Htile Hi) as Hr.
    apply (Hdone (Z.to_nat i) y); [lia | | done]. by rewrite Z2Nat.id by lia. }
  destruct (decide (tile_nInputs tile = 0%nat)) as [Hz|Hnz].
  - eexists. split; [done|]. unfold minInputHeight.
    assert (∀ x, x ≠ v → js_index (push_inputHeight v 180 cur') x = js_index cur' x) as Hp.
    { intros x Hx. by rewrite js_index_push, decide_False. }
    split; [by apply fits_push|]. split.
    + intros x Hx. rewrite Hp by (intros ->; apply Hx, above_refl). by apply Hframe.
    + intros x Hx. destruct (decide (x = v)) as [->|Hne].
      * eexists. split; [by rewrite js_index_push, decide_True, Ht|].
        cbn [inputHeights set_inputHeights tile_nInputs].
        rewrite Hh, Hm, Hz, decide_True by done. done.
      * exfalso. apply above_split in Hx as [->|(y & Hy & _)]; [done|].
        destruct (K2 _ _ Hy) as [i Hi].
        pose proof (upSlot_range _ _ _ _ _ _ Hfit Htile Hi). lia.
  - exists cur'. split; [done|]. split; [done|]. split; [done|].
    intros x Hx. destruct (decide (x = v)) as [->|Hne]; [|by apply Hothers].
    exists t. split; [done|]. by rewrite Hh, Hm, decide_False.
Qed.

Lemma for_roots_fwd fuel rs :
  ∀ tiles,
    NoDup rs → (∀ r, r ∈ rs → downVertex tb r = Some None) →
    (length (downstreamTileVertex tb) ≤ fuel)%nat → fits tb tiles →
    ∃ tiles', for_roots (setInputHeightsFwd fuel (upstreamTileVertices tb)) rs tiles
                = Some (Done tiles') ∧
              fits tb tiles' ∧
              (∀ x, (∀ r, r ∈ rs → ¬ above tb r x) → js_index tiles' x = js_index tiles x) ∧
              (∀ r x, r ∈ rs → above tb r x → heights_set tb tiles' x).
Proof.
  pose proof Hlinked as [K1 K2].
  induction rs as [|r rs IH]; intros tiles Hnd Hroots Hfuel Hfit; cbn [for_roots].
  { exists tiles. split_and!; try done. by intros r x ?%elem_of_nil. }
  apply NoDup_cons in Hnd as [Hr Hnd].
  destruct (setInputHeightsFwd_spec fuel r 0 tiles) as (tiles1 & -> & Hfit1 & Hframe1 & Hset1);
    [exists r; split; [done | apply Hroots; left] | lia | done |].
  destruct (IH tiles1) as (tiles' & -> & Hfit' & Hframe' & Hset');
    [done | intros; apply Hroots; by right | done | done |].
  exists tiles'. split; [done|]. split; [done|]. split.
  - intros x Hx. rewrite Hframe' by (intros r' Hr'; apply Hx; by right).
    apply Hframe1. apply Hx. left.
  - intros r' x [->|Hr']%elem_of_cons Hx; [|by eapply Hset'].
    assert (∀ y, above tb r y → js_index tiles' y = js_index tiles1 y) as Hkeep.
    { intros y Hy. apply Hframe'. intros r' Hr' Hy'.
      assert (r = r') as ->; [|done].
      apply (above_roots_disjoint tb r r' y); [apply Hroots; left | apply Hroots; by right | done | done]. }
    eapply (heights_set_ext _ tiles1); [by apply Hkeep | | by apply Hset1].
    intros i u [Hu _]%K1. apply Hkeep. by eapply above_step.
Qed.

End Fwd.

Lemma roots_spec tiles tb r :
  fits tb tiles → r ∈ roots tiles tb ↔ downVertex tb r = Some None.
Proof.
  intros Hfit. unfold roots. rewrite list_elem_of_filter. fold (downVertex tb r).
  split; [by intros [? _]|]. intros Hr. split; [done|].
  assert (is_Some (downVertex tb r)) as Hs%js_index_lt by (by eexists).
  rewrite (fits_length _ _ Hfit) in Hs.
  apply list_elem_of_fmap. exists (Z.to_nat r). split; [lia|]. apply elem_of_seq. lia.
Qed.

Lemma leads_to_root_above tiles tb x :
  fits tb tiles → leads_to_root tb x ↔ ∃ r, r ∈ roots tiles tb ∧ above tb r x.
Proof.
  intros Hfit. split.
  - intros (k & r & Hr & Hnull). exists r. split; [by eapply roots_spec | by exists k].
  - intros (r & Hr%(roots_spec _ _ _ Hfit) & k & Hk). by exists k, r.
Qed.

Lemma relayout_heights_spec tiles es tb fuel :
  relayout_tables tiles es = Done tb → (length tiles ≤ fuel)%nat →
  ∃ tiles', relayout_heights fuel tiles es = Some (Done tiles') ∧
            fits tb tiles' ∧
            (∀ x, leads_to_root tb x → heights_set tb tiles' x) ∧
            (∀ x, ¬ leads_to_root tb x → js_index tiles' x = js_index tiles x).
Proof.
  intros Hrun Hfuel. unfold relayout_heights. rewrite Hrun.
  destruct (relayout_tables_linked _ _ _ Hrun) as [Hlinked Hfit].
  destruct (for_roots_fwd tb Hlinked fuel (roots tiles tb) tiles)
    as (tiles' & -> & Hfit' & Hframe & Hset).
  - unfold roots. apply NoDup_filter, NoDup_fmap; [apply _ | apply NoDup_seq].
  - intros r Hr. by eapply roots_spec.
  - by rewrite (fits_length _ _ Hfit).
  - done.
  - exists tiles'. split; [done|]. split; [done|]. split.
    + intros x (r & Hr & Hx)%(leads_to_root_above tiles); [|done]. by eapply Hset.
    + intros x Hx. apply Hframe. intros r Hr Hrx. apply Hx.
      apply (leads_to_root_above tiles); [done|]. by exists r.
Qed.

Lemma X22_relayout_tables_witness :
  ∃ tb, relayout_tables demo_tiles demo_tile_edges = Done tb ∧
        downVertex tb 3 = Some (Some 4) ∧ downInput tb 2 = Some (Some 1) ∧
        upSlot tb 3 1 = Some (Some 2) ∧ downVertex tb 4 = Some None ∧
        roots demo_tiles tb = [4].
Proof.
  let s := eval vm_compute in (relayout_tables demo_tiles demo_tile_edges) in
  match s with Done ?x => pose (tb := x) end.
  assert (relayout_tables demo_tiles demo_tile_edges = Done tb) as Hrun by reflexivity.
  destruct (X22_relayout_tables_record_the_edges demo_tiles demo_tile_edges tb Hrun)
    as (Hrec & Hod & _ & Hroots).
  exists tb. split; [exact Hrun|].
  split; [apply (Hrec {| fromVertex := 3; toVertex := 4; toInput := 0 |}); do 3 right; left|].
  split; [apply (Hrec {| fromVertex := 2; toVertex := 3; toInput := 1 |}); right; left|].
  split; [apply (Hrec {| fromVertex := 2; toVertex := 3; toInput := 1 |}); right; left|].
  split; [|etrans; [exact Hroots | reflexivity]].
  etrans; [apply Hod | reflexivity]. cbn [fmap list_fmap demo_tile_edges fromVertex].
  intros Hin. repeat (apply elem_of_cons in Hin as [[=]|Hin]). by apply elem_of_nil in Hin.
Defined.


(** X23.  When the loop over the tile edges accepts them, step 2 returns
    for every root without throwing, provided the nesting of calls may go
    as deep as there are tiles.  It leaves every tile its number of
    inputs.  A tile from which the downstream table leads to a root ends
    with one height per input, 180 for an input that is not connected and
    otherwise the height of the upstream tile if that exceeds 180, and with
    the single height 180 if it has no inputs.  Every other tile (one on a
    cycle of edges, or upstream of one) is left as it was. *)
Theorem X23_input_heights tiles es tb fuel :
  relayout_tables tiles es = Done tb → (length tiles ≤ fuel)%nat →
  ∃ tiles', relayout_heights fuel tiles es = Some (Done tiles') ∧
            tile_nInputs <$> tiles' = tile_nInputs <$> tiles ∧
            (∀ x, leads_to_root tb x → heights_set tb tiles' x) ∧
            (∀ x, ¬ leads_to_root tb x → js_index tiles' x = js_index tiles x).
Proof.
  intros Hrun Hfuel.
  destruct (relayout_heights_spec _ _ _ _ Hrun Hfuel) as (tiles' & Hres & Hfit' & Hset & Hrest).
  exists tiles'. split_and!; try done.
  destruct (relayout_tables_linked _ _ _ Hrun) as [_ Hfit].
  unfold fits in *. congruence.
Qed.

Lemma X23_input_heights_witness :
  ∃ tb tiles',
    relayout_tables demo_tiles demo_tile_edges = Done tb ∧
    relayout_heights 7 demo_tiles demo_tile_edges = Some (Done tiles') ∧
    inputHeights <$> tiles' = [[180]; [180]; [180]; [180; 180]; [360]; []; []].
Proof.
  let s := eval vm_compute in (relayout_tables demo_tiles demo_tile_edges) in
  match s with Done ?x => pose (tb := x) end.
  assert (relayout_tables demo_tiles demo_tile_edges = Done tb) as Hrun by reflexivity.
  destruct (X23_input_heights demo_tiles demo_tile_edges tb 7 Hrun) as (tiles' & Hres & _);
    [cbn; lia|].
  exists tb, tiles'. split; [exact Hrun|]. split; [exact Hres|].
  revert Hres. vm_compute. by intros [= <-].
Defined.

Lemma foldl_add_shift (l : list Z) a : foldl Z.add a l = a + foldl Z.add 0 l.
Proof.
  revert a. induction l as [|h l IH]; intros a; cbn [foldl]; [lia|].
  rewrite (IH (a + h)), (IH (0 + h)). lia.
Qed.

Lemma foldl_add_ge (l : list Z) i h :
  (∀ x, x ∈ l → 0 ≤ x) → l !! i = Some h → h ≤ foldl Z.add 0 l.
Proof.
  revert i. induction l as [|x l IH]; intros i Hpos Hi; [done|].
  cbn [foldl]. rewrite foldl_add_shift.
  assert (0 ≤ x) by (apply Hpos; left).
  assert (0 ≤ foldl Z.add 0 l).
  { clear IH Hi. induction l as [|y l IH']; cbn [foldl]; [done|].
    rewrite foldl_add_shift.
    assert (0 ≤ y) by (apply Hpos; right; left).
    assert (0 ≤ foldl Z.add 0 l); [|lia].
    apply IH'. intros z [->|Hz]%elem_of_cons; apply Hpos; [left | right; by right]. }
  destruct i as [|i]; cbn in Hi.
  - injection Hi as ->. lia.
  - assert (h ≤ foldl Z.add 0 l); [|lia].
    apply (IH i); [|done]. intros z Hz. apply Hpos. by right.
Qed.

Lemma input_height_ge tb tiles v i : 180 ≤ input_height tb tiles v i.
Proof. unfold input_height. destruct (upSlot tb v _) as [[u|]|]; lia. Qed.

Lemma heights_set_entries tb tiles v tile :
  js_index tiles v = Some tile → heights_set tb tiles v →
  inputHeights tile ≠ [] ∧ ∀ h, h ∈ inputHeights tile → 180 ≤ h.
Proof.
  intros Ht (tile' & Ht' & Hh). rewrite Ht in Ht'. injection Ht' as <-.
  rewrite Hh. case_decide as Hn.
  - split; [done|]. by intros h ->%list_elem_of_singleton.
  - split.
    + destruct (tile_nInputs tile); [done|]. done.
    + intros h (i & -> & _)%list_elem_of_fmap. apply input_height_ge.
Qed.

Lemma heights_set_height tb tiles v :
  heights_set tb tiles v → 180 ≤ height_at tiles v.
Proof.
  intros Hset. pose proof Hset as (tile & Ht & _).
  destruct (heights_set_entries _ _ _ _ Ht Hset) as [Hne Hge].
  unfold height_at, height. rewrite Ht. cbn [from_option].
  destruct (inputHeights tile) as [|h l] eqn:E; [done|].
  assert (180 ≤ h) by (apply Hge; left).
  assert (h ≤ foldl Z.add 0 (h :: l)); [|lia].
  apply (foldl_add_ge _ 0%nat); [|done].
  intros x Hx. apply Hge in Hx. lia.
Qed.

(** X24.  After step 2, along every edge whose destination leads to a
    root, the destination's input is exactly as high as the tile that feeds
    it, or 180 if that is more; so a tile is at least as tall as each tile
    that feeds it, and no tile is less than 180 tall. *)
Theorem X24_downstream_at_least_as_tall tiles es tb fuel tiles' e :
  relayout_tables tiles es = Done tb → (length tiles ≤ fuel)%nat →
  relayout_heights fuel tiles es = Some (Done tiles') →
  e ∈ es → leads_to_root tb (toVertex e) →
  (∃ tile, js_index tiles' (toVertex e) = Some tile ∧
           inputHeights tile !! Z.to_nat (toInput e)
             = Some (Z.max 180 (height_at tiles' (fromVertex e)))) ∧
  180 ≤ height_at tiles' (fromVertex e) ≤ height_at tiles' (toVertex e).
Proof.
  intros Hrun Hfuel Hres He Hroot.
  destruct (relayout_heights_spec _ _ _ _ Hrun Hfuel) as (tiles2 & Hres2 & Hfit' & Hset & _).
  rewrite Hres in Hres2. injection Hres2 as <-.
  destruct (relayout_tables_linked _ _ _ Hrun) as [[K1 K2] Hfit].
  unfold relayout_tables in Hrun.
  destruct (tableEdges_effect _ _ _ (tables_init_wf tiles) Hrun)
    as (_ & _ & _ & Hrec & _).
  destruct (Hrec e He) as (Hd & _ & Hu).
  pose proof (Hset _ Hroot) as Hv.
  assert (leads_to_root tb (fromVertex e)) as Hroot'.
  { destruct Hroot as [k Hk]. exists (S k). by eapply rank_up. }
  pose proof (heights_set_height _ _ _ (Hset _ Hroot')) as Hfrom.
  pose proof Hv as (tile & Ht & Hh).
  pose proof (upSlot_range _ _ _ _ _ _ Hfit' Ht Hu) as Hi.
  assert (inputHeights tile !! Z.to_nat (toInput e)
          = Some (Z.max 180 (height_at tiles' (fromVertex e)))) as Hentry.
  { rewrite Hh, decide_False by lia. rewrite list_lookup_fmap, lookup_seq_lt by lia.
    cbn [fmap option_fmap option_map Nat.add]. unfold input_height.
    rewrite Z2Nat.id by lia. by rewrite Hu. }
  split; [by exists tile|]. split; [done|].
  destruct (heights_set_entries _ _ _ _ Ht Hv) as [_ Hge].
  assert (Z.max 180 (height_at tiles' (fromVertex e)) ≤ height_at tiles' (toVertex e));
    [|lia].
  unfold height_at at 2. rewrite Ht. cbn [from_option]. unfold height.
  apply (foldl_add_ge _ (Z.to_nat (toInput e))); [|done].
  intros x Hx%Hge. lia.
Qed.

Lemma X24_downstream_witness :
  ∃ tiles', relayout_heights 7 demo_tiles demo_tile_edges = Some (Done tiles') ∧
            height_at tiles' 3 = 360 ∧ height_at tiles' 4 = 360 ∧
            180 ≤ height_at tiles' 3 ≤ height_at tiles' 4.
Proof.
  let s := eval vm_compute in (relayout_tables demo_tiles demo_tile_edges) in
  match s with Done ?x => pose (tb := x) end.
  let s := eval vm_compute in (relayout_heights 7 demo_tiles demo_tile_edges) in
  match s with Some (Done ?x) => pose (tiles' := x) end.
  assert (relayout_heights 7 demo_tiles demo_tile_edges = Some (Done tiles')) as Hres
    by reflexivity.
  exists tiles'. split; [exact Hres|]. split; [reflexivity|]. split; [reflexivity|].
  apply (X24_downstream_at_least_as_tall demo_tiles demo_tile_edges tb 7 tiles'
           {| fromVertex := 3; toVertex := 4; toInput := 0 |});
    [reflexivity | cbn; lia | exact Hres | do 3 right; left | ].
  exists 0%nat, 4. split; reflexivity.
Defined.

Lemma for_roots_rev_id scale down cur rs :
  (∀ r, r ∈ rs → is_Some (js_index cur r) ∧ js_index down r = Some None) →
  for_roots (setInputHeightsRev scale down) rs cur = Some (Done cur).
Proof.
  induction rs as [|r rs IH]; intros Hall; cbn [for_roots]; [done|].
  destruct (Hall r) as [[tile Ht] Hd]; [left|].
  unfold setInputHeightsRev at 1. rewrite Ht, Hd.
  apply IH. intros r' Hr'. apply Hall. by right.
Qed.

(** X25.  Step 3 changes nothing and never throws: [setInputHeightsRev] is
    called on the roots only, and a root has no downstream vertex, so the
    scaling of the input heights is never reached, whatever the heights
    are. *)
Theorem X25_setInputHeightsRev_changes_nothing scale tiles tb cur :
  length cur = length tiles →
  for_roots (setInputHeightsRev scale (downstreamTileVertex tb)) (roots tiles tb) cur
    = Some (Done cur).
Proof.
  intros Hlen. apply for_roots_rev_id. unfold roots.
  intros r [Hd (k & -> & Hk%elem_of_seq)%list_elem_of_fmap]%list_elem_of_filter.
  split; [|done]. apply js_index_lt. lia.
Qed.

Lemma X25_setInputHeightsRev_witness :
  ∃ tb tiles',
    relayout_tables demo_tiles demo_tile_edges = Done tb ∧
    relayout_heights 7 demo_tiles demo_tile_edges = Some (Done tiles') ∧
    roots demo_tiles tb = [4] ∧
    for_roots (setInputHeightsRev (λ _ _ tile, set_inputHeights [] tile)
                 (downstreamTileVertex tb)) (roots demo_tiles tb) tiles'
      = Some (Done tiles').
Proof.
  let s := eval vm_compute in (relayout_tables demo_tiles demo_tile_edges) in
  match s with Done ?x => pose (tb := x) end.
  let s := eval vm_compute in (relayout_heights 7 demo_tiles demo_tile_edges) in
  match s with Some (Done ?x) => pose (tiles' := x) end.
  exists tb, tiles'. split; [reflexivity|]. split; [reflexivity|]. split; [reflexivity|].
  apply (X25_setInputHeightsRev_changes_nothing _ demo_tiles tb tiles'). reflexivity.
Defined.

(** *** Stores that differ in one field *)

Section SameBut.
Context (clear : Tile → Tile).
Hypothesis clear_nInputs : ∀ t, tile_nInputs (clear t) = tile_nInputs t.
Hypothesis clear_inputHeights : ∀ t, inputHeights (clear t) = inputHeights t.

Lemma same_but_refl tiles : same_but clear tiles tiles.
Proof. done. Qed.

Lemma same_but_trans t1 t2 t3 :
  same_but clear t1 t2 → same_but clear t2 t3 → same_but clear t1 t3.
Proof. unfold same_but. congruence. Qed.

Lemma same_but_lookup t1 t2 x a :
  same_but clear t1 t2 → js_index t1 x = Some a →
  ∃ b, js_index t2 x = Some b ∧ clear a = clear b.
Proof.
  unfold same_but, js_index. intros Heq. case_decide; [|done]. intros Ha.
  assert ((clear <$> t2) !! Z.to_nat x = Some (clear a)) as Hb
    by (by rewrite <-Heq, list_lookup_fmap, Ha).
  rewrite list_lookup_fmap in Hb. destruct (t2 !! _) as [b|]; [|done].
  injection Hb as Hb. by exists b.
Qed.

Lemma same_but_tile t1 t2 x a :
  same_but clear t1 t2 → js_index t1 x = Some a →
  ∃ b, js_index t2 x = Some b ∧ tile_nInputs a = tile_nInputs b ∧
       inputHeights a = inputHeights b.
Proof.
  intros Heq Ha. destruct (same_but_lookup _ _ _ _ Heq Ha) as (b & Hb & Hc).
  exists b. split; [done|].
  rewrite <-(clear_nInputs a), <-(clear_nInputs b), <-(clear_inputHeights a),
    <-(clear_inputHeights b), Hc. done.
Qed.

Lemma same_but_fits tb t1 t2 : same_but clear t1 t2 → fits tb t2 → fits tb t1.
Proof.
  unfold same_but, fits. intros Heq ->. f_equal.
  - apply (f_equal length) in Heq. by rewrite !length_fmap in Heq.
  - apply (f_equal (fmap tile_nInputs)) in Heq. rewrite <-!list_fmap_compose in Heq.
    rewrite (list_fmap_ext (tile_nInputs ∘ clear) tile_nInputs t1) in Heq
      by (by intros; cbn).
    rewrite (list_fmap_ext (tile_nInputs ∘ clear) tile_nInputs t2) in Heq
      by (by intros; cbn).
    done.
Qed.

Lemma same_but_offset t1 t2 v i :
  same_but clear t1 t2 → offset_at t1 v i = offset_at t2 v i.
Proof.
  intros Heq. unfold offset_at.
  destruct (js_index t1 v) as [a|] eqn:Ha.
  - destruct (same_but_tile _ _ _ _ Heq Ha) as (b & -> & _ & Hh). cbn.
    unfold input_offset. by rewrite Hh.
  - destruct (js_index t2 v) as [b|] eqn:Hb; [|done].
    symmetry in Heq. destruct (same_but_tile _ _ _ _ Heq Hb) as (a & Ha' & _). congruence.
Qed.

Lemma same_but_height t1 t2 v :
  same_but clear t1 t2 → height_at t1 v = height_at t2 v.
Proof.
  intros Heq. unfold height_at.
  destruct (js_index t1 v) as [a|] eqn:Ha.
  - destruct (same_but_tile _ _ _ _ Heq Ha) as (b & -> & _ & Hh). cbn.
    unfold height. by rewrite Hh.
  - destruct (js_index t2 v) as [b|] eqn:Hb; [|done].
    symmetry in Heq. destruct (same_but_tile _ _ _ _ Heq Hb) as (a & Ha' & _). congruence.
Qed.

Lemma same_but_has_heights t1 t2 v :
  same_but clear t1 t2 → has_heights t2 v → has_heights t1 v.
Proof.
  intros Heq (b & Hb & Hlen). symmetry in Heq.
  destruct (same_but_tile _ _ _ _ Heq Hb) as (a & Ha & Hn & Hh).
  exists a. split; [done|]. by rewrite <-Hn, <-Hh.
Qed.

Lemma same_but_heights_set tb t1 t2 v :
  same_but clear t1 t2 → heights_set tb t2 v → heights_set tb t1 v.
Proof.
  intros Heq (b & Hb & Hset). pose proof Heq as Heq'. symmetry in Heq'.
  destruct (same_but_tile _ _ _ _ Heq' Hb) as (a & Ha & Hn & Hh).
  exists a. split; [done|]. rewrite <-Hn, <-Hh, Hset. case_decide; [done|].
  apply list_fmap_ext. intros _ i _. unfold input_height.
  destruct (upSlot tb v _) as [[u|]|]; [|done|done].
  by rewrite (same_but_height t1 t2).
Qed.

End SameBut.

Lemma set_y_nInputs y t : tile_nInputs (set_y y t) = tile_nInputs t.
Proof. done. Qed.
Lemma set_y_inputHeights y t : inputHeights (set_y y t) = inputHeights t.
Proof. done. Qed.
Lemma set_x_nInputs x t : tile_nInputs (set_x x t) = tile_nInputs t.
Proof. done. Qed.
Lemma set_x_inputHeights x t : inputHeights (set_x x t) = inputHeights t.
Proof. done. Qed.

Lemma same_but_insert clear tiles v tile tile' :
  js_index tiles v = Some tile → clear tile' = clear tile →
  same_but clear (<[Z.to_nat v := tile']> tiles) tiles.
Proof.
  unfold same_but, js_index. case_decide; [|done]. intros Ht Hc.
  rewrite list_fmap_insert, Hc. apply list_insert_id. by rewrite list_lookup_fmap, Ht.
Qed.

Lemma input_offset_S tile i h :
  inputHeights tile !! i = Some h →
  input_offset tile (S i) = input_offset tile i + h.
Proof.
  intros Hh. unfold input_offset. rewrite (take_S_r _ _ _ Hh), foldl_app. done.
Qed.

Lemma y_at_ext t1 t2 x : js_index t2 x = js_index t1 x → y_at t2 x = y_at t1 x.
Proof. unfold y_at. by intros ->. Qed.

Lemma x_at_ext t1 t2 x : js_index t2 x = js_index t1 x → x_at t2 x = x_at t1 x.
Proof. unfold x_at. by intros ->. Qed.

Lemma y_placed_ext tb t1 t2 w :
  same_but (set_y Undefined) t2 t1 →
  js_index t2 w = js_index t1 w →
  (∀ i u, upSlot tb w i = Some (Some u) → js_index t2 u = js_index t1 u) →
  y_placed tb t1 w → y_placed tb t2 w.
Proof.
  intros Heq Hw Hup (z & Hz & Hall). exists z.
  split; [by rewrite (y_at_ext t1 t2)|]. intros i u Hu.
  rewrite (y_at_ext t1 t2) by (by eapply Hup).
  rewrite (same_but_offset _ (set_y_nInputs _) (set_y_inputHeights _) t2 t1) by done. by eapply Hall.
Qed.

Lemma x_placed_ext tb t1 t2 w :
  js_index t2 w = js_index t1 w →
  (∀ i u, upSlot tb w i = Some (Some u) → js_index t2 u = js_index t1 u) →
  x_placed tb t1 w → x_placed tb t2 w.
Proof.
  intros Hw Hup (z & Hz & Hall). exists z.
  split; [by rewrite (x_at_ext t1 t2)|]. intros i u Hu.
  rewrite (x_at_ext t1 t2) by (by eapply Hup). by eapply Hall.
Qed.

(** *** [setYCoordinate] *)

Section Ycoord.
Context (tb : Tables) (Hlinked : linked tb).

Lemma y_inputs_spec rec tiles v k z0 tile :
  (∀ u cur z, rank tb u (S k) → fits tb cur →
              (∀ w, above tb u w → has_heights cur w) →
              ∃ cur', rec cur u (Num z) = Some (Done cur') ∧ y_post tb cur u z cur') →
  rank tb v k → fits tb tiles → (∀ w, above tb v w → has_heights tiles w) →
  js_index tiles v = Some tile →
  ∀ todo i cur,
    (i + todo = tile_nInputs tile)%nat → y_inv tb tiles v z0 i cur →
    ∃ cur', y_inputs rec (upstreamTileVertices tb) v (seq i todo)
              (Num (z0 + offset_at tiles v i)) cur = Some (Done cur') ∧
            y_inv tb tiles v z0 (i + todo) cur'.
Proof.
  intros IH Hrank Hfit Hheights Htile. pose proof Hlinked as [K1 K2].
  induction todo as [|todo IHtodo]; intros i cur Hi Hinv.
  { exists cur. rewrite Nat.add_0_r. done. }
  cbn [seq y_inputs]. fold (upSlot tb v (Z.of_nat i)).
  destruct Hinv as (Hsame & Hframe & Hy & Hdone).
  pose proof (same_but_fits _ (set_y_nInputs _) _ _ _ Hsame Hfit) as Hfitc.
  destruct (Hheights v (above_refl _ _)) as (tile0 & Htile0 & Hlen).
  rewrite Htile in Htile0. injection Htile0 as <-.
  destruct (lookup_lt_is_Some_2 (inputHeights tile) i) as [h Hh]; [lia|].
  assert (∀ cur1, same_but (set_y Undefined) cur1 tiles →
            ∃ t1, js_index cur1 v = Some t1 ∧
                  js_plus (Num (z0 + offset_at tiles v i)) (inputHeight_at t1 i)
                    = Num (z0 + offset_at tiles v (S i))) as Hnext.
  { intros cur1 Hs1. symmetry in Hs1.
    destruct (same_but_tile _ (set_y_nInputs _) (set_y_inputHeights _) _ _ _ _ Hs1 Htile)
      as (t1 & Ht1 & _ & Hh1).
    exists t1. split; [done|]. unfold inputHeight_at. rewrite <-Hh1, Hh. cbn [js_plus].
    f_equal. unfold offset_at. rewrite Htile. cbn [from_option].
    rewrite (input_offset_S _ _ _ Hh). lia. }
  replace (i + S todo)%nat with (S i + todo)%nat by lia.
  destruct (upSlot_defined tb tiles v tile i) as [[u|] Hslot]; [done | done | lia | |].
  - rewrite Hslot. destruct (K1 _ _ _ Hslot) as [Hdown Hdin].
    destruct (IH u cur (z0 + offset_at tiles v i))
      as (cur1 & -> & Hsame1 & Hframe1 & Hy1 & Hplaced1);
      [by eapply rank_up | done | |].
    { intros w Hw. eapply (same_but_has_heights _ (set_y_nInputs _) (set_y_inputHeights _)); [done|].
      apply Hheights. by eapply above_up. }
    pose proof (same_but_trans _ _ _ _ Hsame1 Hsame) as Hsame1'.
    destruct (Hnext cur1 Hsame1') as (t1 & -> & ->).
    apply IHtodo; [lia|].
    assert (¬ above tb u v) as F1 by (by eapply no_cycle).
    split; [done|]. split; [|split].
    + intros x Hx. rewrite Hframe1; [by apply Hframe|]. intros Hux. apply Hx.
      by eapply above_up.
    + by rewrite (y_at_ext cur cur1) by (by apply Hframe1).
    + intros j uj Hj Huj. destruct (decide (j = i)) as [->|Hne].
      * rewrite Hslot in Huj. injection Huj as <-. done.
      * destruct (K1 _ _ _ Huj) as [Hdj Hdij].
        assert (∀ w, above tb uj w → ¬ above tb u w) as F2.
        { intros w Hw Hw'. assert (uj = u) as -> by (by eapply above_disjoint).
          rewrite Hdij in Hdin. injection Hdin. lia. }
        destruct (Hdone j uj) as [Hyj Hpj]; [lia | done |].
        split.
        -- rewrite (y_at_ext cur cur1); [done|]. apply Hframe1, F2, above_refl.
        -- intros w Hw. eapply (y_placed_ext _ cur); [done | | | by apply Hpj].
           ++ by apply Hframe1, F2.
           ++ intros i' u' [Hu' _]%K1. apply Hframe1, F2. by eapply above_step.
  - rewrite Hslot. destruct (Hnext cur Hsame) as (t1 & -> & ->).
    apply IHtodo; [lia|]. split; [done|]. split; [done|]. split; [done|].
    intros j uj Hj Huj. destruct (decide (j = i)) as [->|Hne].
    + by rewrite Hslot in Huj.
    + apply Hdone; [lia | done].
Qed.

Lemma setYCoordinate_spec fuel :
  ∀ v k tiles z0,
    rank tb v k → (length (downstreamTileVertex tb) ≤ fuel + k)%nat → fits tb tiles →
    (∀ w, above tb v w → has_heights tiles w) →
    ∃ tiles', setYCoordinate fuel (upstreamTileVertices tb) tiles v (Num z0)
                = Some (Done tiles') ∧
              y_post tb tiles v z0 tiles'.
Proof.
  pose proof Hlinked as [K1 K2].
  induction fuel as [|fuel IH]; intros v k tiles z0 Hrank Hfuel Hfit Hheights.
  { apply rank_bound in Hrank. lia. }
  cbn [setYCoordinate].
  destruct (fits_tile tb tiles v) as [tile Htile]; [done | by eapply rank_in_range |].
  rewrite Htile.
  set (tiles0 := <[Z.to_nat v := set_y (Num z0) tile]> tiles).
  assert (∀ x, x ≠ v → js_index tiles0 x = js_index tiles x) as H0.
  { intros x Hx. unfold tiles0. rewrite js_index_insert by (by eexists).
    by rewrite decide_False. }
  assert (js_index tiles0 v = Some (set_y (Num z0) tile)) as H0v.
  { unfold tiles0. rewrite js_index_insert by (by eexists). by rewrite decide_True. }
  assert (offset_at tiles v 0 = 0) as Hoff0.
  { unfold offset_at. by rewrite Htile. }
  destruct (y_inputs_spec (setYCoordinate fuel (upstreamTileVertices tb))
              tiles v k z0 tile) with (todo := tile_nInputs tile) (i := 0%nat) (cur := tiles0)
    as (cur' & Hres & Hsame & Hframe & Hy & Hdone); try done.
  { intros u cur z Hu Hcur Hh. apply (IH u (S k) cur z); [done | lia | done | done]. }
  { split; [by apply (same_but_insert _ _ _ tile)|]. split; [|split].
    - intros x Hx. apply H0. intros ->. apply Hx, above_refl.
    - unfold y_at. by rewrite H0v.
    - intros; lia. }
  rewrite Hoff0, Z.add_0_r in Hres. rewrite Hres. cbn [Nat.add] in *.
  exists cur'. split; [done|]. split; [done|]. split; [done|]. split; [done|].
  assert (∀ i u, upSlot tb v i = Some (Some u) →
                 y_at cur' u = Num (z0 + offset_at tiles v (Z.to_nat i)) ∧
                 ∀ w, above tb u w → y_placed tb cur' w) as Hups.
  { intros i u Hu. pose proof (upSlot_range _ _ _ _ _ _ Hfit Htile Hu) as Hr.
    apply (Hdone (Z.to_nat i) u); [lia|]. by rewrite Z2Nat.id by lia. }
  intros w [->|(y & Hy' & Hw)]%above_split.
  - exists z0. split; [done|]. intros i u Hu.
    rewrite (same_but_offset _ (set_y_nInputs _) (set_y_inputHeights _) cur' tiles) by done.
    by apply Hups.
  - destruct (K2 _ _ Hy') as [i Hi]. by apply (Hups i y).
Qed.

End Ycoord.

(** *** [setXCoordinate] *)

Section Xcoord.
Context (tb : Tables) (Hlinked : linked tb).

Lemma x_inputs_spec rec tiles v k z0 tile :
  (∀ u cur z, rank tb u (S k) → fits tb cur →
              ∃ cur', rec cur u (Num z) = Some (Done cur') ∧ x_post tb cur u z cur') →
  rank tb v k → fits tb tiles → js_index tiles v = Some tile →
  ∀ todo i cur,
    (i + todo = tile_nInputs tile)%nat → x_inv tb tiles v z0 i cur →
    ∃ cur', x_inputs rec (upstreamTileVertices tb) v (seq i todo) (Num (z0 - 110)) cur
              = Some (Done cur') ∧
            x_inv tb tiles v z0 (i + todo) cur'.
Proof.
  intros IH Hrank Hfit Htile. pose proof Hlinked as [K1 K2].
  induction todo as [|todo IHtodo]; intros i cur Hi Hinv.
  { exists cur. rewrite Nat.add_0_r. done. }
  cbn [seq x_inputs]. fold (upSlot tb v (Z.of_nat i)).
  destruct Hinv as (Hsame & Hframe & Hx & Hdone).
  pose proof (same_but_fits _ (set_x_nInputs _) _ _ _ Hsame Hfit) as Hfitc.
  replace (i + S todo)%nat with (S i + todo)%nat by lia.
  destruct (upSlot_defined tb tiles v tile i) as [[u|] Hslot]; [done | done | lia | |].
  - rewrite Hslot. destruct (K1 _ _ _ Hslot) as [Hdown Hdin].
    destruct (IH u cur (z0 - 110)) as (cur1 & -> & Hsame1 & Hframe1 & Hx1 & Hplaced1);
      [by eapply rank_up | done |].
    pose proof (same_but_trans _ _ _ _ Hsame1 Hsame) as Hsame1'.
    apply IHtodo; [lia|].
    assert (¬ above tb u v) as F1 by (by eapply no_cycle).
    split; [done|]. split; [|split].
    + intros x Hx'. rewrite Hframe1; [by apply Hframe|]. intros Hux. apply Hx'.
      by eapply above_up.
    + by rewrite (x_at_ext cur cur1) by (by apply Hframe1).
    + intros j uj Hj Huj. destruct (decide (j = i)) as [->|Hne].
      * rewrite Hslot in Huj. injection Huj as <-. done.
      * destruct (K1 _ _ _ Huj) as [Hdj Hdij].
        assert (∀ w, above tb uj w → ¬ above tb u w) as F2.
        { intros w Hw Hw'. assert (uj = u) as -> by (by eapply above_disjoint).
          rewrite Hdij in Hdin. injection Hdin. lia. }
        destruct (Hdone j uj) as [Hxj Hpj]; [lia | done |].
        split.
        -- rewrite (x_at_ext cur cur1); [done|]. apply Hframe1, F2, above_refl.
        -- intros w Hw. eapply (x_placed_ext _ cur); [ | | by apply Hpj].
           ++ by apply Hframe1, F2.
           ++ intros i' u' [Hu' _]%K1. apply Hframe1, F2. by eapply above_step.
  - rewrite Hslot. apply IHtodo; [lia|].
    split; [done|]. split; [done|]. split; [done|].
    intros j uj Hj Huj. destruct (decide (j = i)) as [->|Hne].
    + by rewrite Hslot in Huj.
    + apply (Hdone j); [lia | done].
Qed.

Lemma setXCoordinate_spec fuel :
  ∀ v k tiles z0,
    rank tb v k → (length (downstreamTileVertex tb) ≤ fuel + k)%nat → fits tb tiles →
    ∃ tiles', setXCoordinate fuel (upstreamTileVertices tb) tiles v (Num z0)
                = Some (Done tiles') ∧
              x_post tb tiles v z0 tiles'.
Proof.
  pose proof Hlinked as [K1 K2].
  induction fuel as [|fuel IH]; intros v k tiles z0 Hrank Hfuel Hfit.
  { apply rank_bound in Hrank. lia. }
  cbn [setXCoordinate].
  destruct (fits_tile tb tiles v) as [tile Htile]; [done | by eapply rank_in_range |].
  rewrite Htile.
  set (tiles0 := <[Z.to_nat v := set_x (Num z0) tile]> tiles).
  assert (∀ x, x ≠ v → js_index tiles0 x = js_index tiles x) as H0.
  { intros x Hx. unfold tiles0. rewrite js_index_insert by (by eexists).
    by rewrite decide_False. }
  assert (js_index tiles0 v = Some (set_x (Num z0) tile)) as H0v.
  { unfold tiles0. rewrite js_index_insert by (by eexists). by rewrite decide_True. }
  destruct (x_inputs_spec (setXCoordinate fuel (upstreamTileVertices tb))
              tiles v k z0 tile) with (todo := tile_nInputs tile) (i := 0%nat) (cur := tiles0)
    as (cur' & Hres & Hsame & Hframe & Hx & Hdone); try done.
  { intros u cur z Hu Hcur. apply (IH u (S k) cur z); [done | lia | done]. }
  { split; [by apply (same_but_insert _ _ _ tile)|]. split; [|split].
    - intros x Hx. apply H0. intros ->. apply Hx, above_refl.
    - unfold x_at. by rewrite H0v.
    - intros; lia. }
  unfold width. cbn [js_minus]. rewrite Hres. cbn [Nat.add] in *.
  exists cur'. split; [done|]. split; [done|]. split; [done|]. split; [done|].
  assert (∀ i u, upSlot tb v i = Some (Some u) →
                 x_at cur' u = Num (z0 - 110) ∧
                 ∀ w, above tb u w → x_placed tb cur' w) as Hups.
  { intros i u Hu. pose proof (upSlot_range _ _ _ _ _ _ Hfit Htile Hu) as Hr.
    apply (Hdone (Z.to_nat i) u); [lia|]. by rewrite Z2Nat.id by lia. }
  intros w [->|(y & Hy' & Hw)]%above_split.
  - exists z0. split; [done|]. intros i u Hu. by apply (Hups i u).
  - destruct (K2 _ _ Hy') as [i Hi]. by apply (Hups i y).
Qed.

End Xcoord.

(** *** The loops over the roots, and step 6 *)

Section Roots.
Context (tb : Tables) (Hlinked : linked tb).

Lemma root_not_above r r' :
  downVertex tb r = Some None → downVertex tb r' = Some None → r ≠ r' → ¬ above tb r' r.
Proof.
  intros Hr Hr' Hne Hab. apply Hne.
  by apply (above_roots_disjoint tb r r' r); [| |apply above_refl|].
Qed.

Lemma y_roots_spec fuel rs :
  ∀ tiles z0,
    NoDup rs → (∀ r, r ∈ rs → downVertex tb r = Some None) →
    (length (downstreamTileVertex tb) ≤ fuel)%nat → fits tb tiles →
    (∀ r w, r ∈ rs → above tb r w → has_heights tiles w) →
    ∃ tiles',
      y_roots (setYCoordinate fuel (upstreamTileVertices tb)) rs (Num z0) tiles
        = Some (Done (tiles', Num (z0 + total (height_at tiles <$> rs)))) ∧
      same_but (set_y Undefined) tiles' tiles ∧
      (∀ x, (∀ r, r ∈ rs → ¬ above tb r x) → js_index tiles' x = js_index tiles x) ∧
      (∀ pre r post, rs = pre ++ r :: post →
                     y_at tiles' r = Num (z0 + total (height_at tiles <$> pre))) ∧
      (∀ r w, r ∈ rs → above tb r w → y_placed tb tiles' w).
Proof.
  pose proof Hlinked as [K1 K2].
  induction rs as [|r rs IH]; intros tiles z0 Hnd Hroots Hfuel Hfit Hheights;
    cbn [y_roots fmap list_fmap total foldr].
  { exists tiles. rewrite Z.add_0_r. split_and!; try done.
    - by intros [|??] ???.
    - by intros r w ?%elem_of_nil. }
  apply NoDup_cons in Hnd as [Hr Hnd].
  destruct (setYCoordinate_spec tb Hlinked fuel r 0 tiles z0)
    as (tiles1 & -> & Hsame1 & Hframe1 & Hy1 & Hplaced1);
    [exists r; split; [done | apply Hroots; left] | lia | done | |].
  { intros w Hw. eapply Hheights; [left | done]. }
  pose proof (same_but_fits _ (set_y_nInputs Undefined) _ _ _ Hsame1 Hfit) as Hfit1.
  pose proof (same_but_height _ (set_y_nInputs Undefined) (set_y_inputHeights Undefined)
                tiles1 tiles) as Hheight1.
  destruct (fits_tile tb tiles1 r) as [t Ht]; [done | rewrite Hroots; [eauto | left] |].
  rewrite Ht. cbn [js_plus].
  assert (height t = height_at tiles r) as ->.
  { rewrite <-Hheight1 by done. unfold height_at. by rewrite Ht. }
  destruct (IH tiles1 (z0 + height_at tiles r))
    as (tiles' & Hres & Hsame' & Hframe' & Hy' & Hplaced');
    [done | intros; apply Hroots; by right | done | done | |].
  { intros r' w Hr' Hw.
    eapply (same_but_has_heights _ (set_y_nInputs Undefined) (set_y_inputHeights Undefined));
      [done|].
    eapply Hheights; [by right | done]. }
  assert (height_at tiles1 <$> rs = height_at tiles <$> rs) as Hhs.
  { apply list_fmap_ext. intros _ x _. by apply Hheight1. }
  rewrite Hhs in Hres. rewrite Hres.
  assert (∀ w, above tb r w → js_index tiles' w = js_index tiles1 w) as Hkeep.
  { intros w Hw. apply Hframe'. intros r' Hr' Hw'.
    assert (r = r') as ->; [|done].
    apply (above_roots_disjoint tb r r' w);
      [apply Hroots; left | apply Hroots; by right | done | done]. }
  exists tiles'. split; [do 4 f_equal; unfold total; lia|].
  split; [by eapply same_but_trans|]. split; [|split].
  - intros x Hx. rewrite Hframe' by (intros r' Hr'; apply Hx; by right).
    apply Hframe1. apply Hx. left.
  - intros pre r' post Heq. destruct pre as [|r0 pre]; cbn [app] in Heq.
    + injection Heq as <- _. cbn [fmap list_fmap total foldr]. rewrite Z.add_0_r.
      rewrite (y_at_ext tiles1 tiles'); [done|]. apply Hkeep, above_refl.
    + injection Heq as <- Heq. rewrite (Hy' pre r' post Heq).
      cbn [fmap list_fmap total foldr]. f_equal.
      assert (height_at tiles1 <$> pre = height_at tiles <$> pre) as ->.
      { apply list_fmap_ext. intros _ x _. by apply Hheight1. }
      unfold total. lia.
  - intros r' w [->|Hr']%elem_of_cons Hw; [|by eapply Hplaced'].
    eapply (y_placed_ext _ tiles1); [done | by apply Hkeep | | by apply Hplaced1].
    intros i u [Hu _]%K1. apply Hkeep. by eapply above_step.
Qed.

Lemma x_roots_spec fuel rs :
  ∀ tiles,
    NoDup rs → (∀ r, r ∈ rs → downVertex tb r = Some None) →
    (length (downstreamTileVertex tb) ≤ fuel)%nat → fits tb tiles →
    ∃ tiles',
      x_roots (setXCoordinate fuel (upstreamTileVertices tb)) rs tiles
        = Some (Done tiles') ∧
      same_but (set_x Undefined) tiles' tiles ∧
      (∀ x, (∀ r, r ∈ rs → ¬ above tb r x) → js_index tiles' x = js_index tiles x) ∧
      (∀ r, r ∈ rs → x_at tiles' r = Num (-110)) ∧
      (∀ r w, r ∈ rs → above tb r w → x_placed tb tiles' w).
Proof.
  pose proof Hlinked as [K1 K2].
  induction rs as [|r rs IH]; intros tiles Hnd Hroots Hfuel Hfit; cbn [x_roots].
  { exists tiles. split_and!; try done.
    - by intros r ?%elem_of_nil.
    - by intros r w ?%elem_of_nil. }
  apply NoDup_cons in Hnd as [Hr Hnd].
  destruct (fits_tile tb tiles r) as [t Ht]; [done | rewrite Hroots; [eauto | left] |].
  rewrite Ht. change (js_neg (Num (width t))) with (Num (-110)).
  destruct (setXCoordinate_spec tb Hlinked fuel r 0 tiles (-110))
    as (tiles1 & -> & Hsame1 & Hframe1 & Hx1 & Hplaced1);
    [exists r; split; [done | apply Hroots; left] | lia | done |].
  pose proof (same_but_fits _ (set_x_nInputs Undefined) _ _ _ Hsame1 Hfit) as Hfit1.
  destruct (IH tiles1) as (tiles' & -> & Hsame' & Hframe' & Hx' & Hplaced');
    [done | intros; apply Hroots; by right | done | done |].
  assert (∀ w, above tb r w → js_index tiles' w = js_index tiles1 w) as Hkeep.
  { intros w Hw. apply Hframe'. intros r' Hr' Hw'.
    assert (r = r') as ->; [|done].
    apply (above_roots_disjoint tb r r' w);
      [apply Hroots; left | apply Hroots; by right | done | done]. }
  exists tiles'. split; [done|].
  split; [by eapply same_but_trans|]. split; [|split].
  - intros x Hx. rewrite Hframe' by (intros r' Hr'; apply Hx; by right).
    apply Hframe1. apply Hx. left.
  - intros r' [->|Hr']%elem_of_cons; [|by apply Hx'].
    rewrite (x_at_ext tiles1 tiles'); [done|]. apply Hkeep, above_refl.
  - intros r' w [->|Hr']%elem_of_cons Hw; [|by eapply Hplaced'].
    eapply (x_placed_ext _ tiles1); [by apply Hkeep | | by apply Hplaced1].
    intros i u [Hu _]%K1. apply Hkeep. by eapply above_step.
Qed.

End Roots.

Lemma smallestX_fold (tiles : list Tile) a :
  ∃ m, foldl (λ smallest tile, if js_lt (tile_x tile) smallest then tile_x tile else smallest)
         (Num a) tiles = Num m ∧
       m ≤ a ∧ ∀ t z, t ∈ tiles → tile_x t = Num z → m ≤ z.
Proof.
  revert a. induction tiles as [|t tiles IH]; intros a; cbn [foldl].
  { exists a. split; [done|]. split; [lia|]. by intros t z ?%elem_of_nil. }
  destruct (tile_x t) as [| |zx] eqn:Hx; cbn [js_lt].
  - destruct (IH a) as (m & -> & Hle & Hall). exists m. split; [done|]. split; [done|].
    intros t' z [->|Ht']%elem_of_cons Hz; [congruence | by eapply Hall].
  - destruct (IH a) as (m & -> & Hle & Hall). exists m. split; [done|]. split; [done|].
    intros t' z [->|Ht']%elem_of_cons Hz; [congruence | by eapply Hall].
  - case_bool_decide.
    + destruct (IH zx) as (m & -> & Hle & Hall). exists m. split; [done|]. split; [lia|].
      intros t' z [->|Ht']%elem_of_cons Hz; [|by eapply Hall].
      rewrite Hx in Hz. injection Hz as <-. done.
    + destruct (IH a) as (m & -> & Hle & Hall). exists m. split; [done|]. split; [done|].
      intros t' z [->|Ht']%elem_of_cons Hz; [|by eapply Hall].
      rewrite Hx in Hz. injection Hz as <-. lia.
Qed.

Lemma smallestX_spec tiles :
  ∃ m, smallestX tiles = Num m ∧ m ≤ 0 ∧
       ∀ w z, x_at tiles w = Num z → m ≤ z.
Proof.
  destruct (smallestX_fold tiles 0) as (m & Hm & Hle & Hall).
  exists m. split; [done|]. split; [done|]. intros w z. unfold x_at, js_index.
  case_decide; [|done]. destruct (tiles !! _) as [t|] eqn:Ht; [|done]. cbn.
  apply Hall. by eapply list_elem_of_lookup_2.
Qed.

Lemma x_at_offset_x m tiles w z :
  x_at tiles w = Num z → x_at (offset_x (Num m) tiles) w = Num (z - m).
Proof.
  unfold x_at, offset_x, js_index. case_decide; [|done].
  rewrite list_lookup_fmap. destruct (tiles !! _) as [t|]; [|done]. cbn.
  by intros ->.
Qed.

Lemma x_at_offset_x_inv m tiles w z :
  x_at (offset_x (Num m) tiles) w = Num z → x_at tiles w = Num (z + m).
Proof.
  unfold x_at, offset_x, js_index. case_decide; [|done].
  rewrite list_lookup_fmap. destruct (tiles !! _) as [t|]; [|done]. cbn.
  destruct (tile_x t); cbn; try done. intros [= <-]. f_equal. lia.
Qed.

Lemma same_but_offset_x sm tiles : same_but (set_x Undefined) (offset_x sm tiles) tiles.
Proof.
  unfold same_but, offset_x. rewrite <-list_fmap_compose. by apply list_fmap_ext.
Qed.

Lemma same_but_x_y_at t1 t2 w :
  same_but (set_x Undefined) t1 t2 → y_at t1 w = y_at t2 w.
Proof.
  intros Heq. unfold y_at.
  destruct (js_index t1 w) as [a|] eqn:Ha.
  - destruct (same_but_lookup _ _ _ _ _ Heq Ha) as (b & -> & Hc). cbn.
    by apply (f_equal tile_y) in Hc.
  - destruct (js_index t2 w) as [b|] eqn:Hb; [|done]. symmetry in Heq.
    destruct (same_but_lookup _ _ _ _ _ Heq Hb) as (a & Ha' & _). congruence.
Qed.

Lemma y_placed_same_x tb t1 t2 w :
  same_but (set_x Undefined) t2 t1 → y_placed tb t1 w → y_placed tb t2 w.
Proof.
  intros Heq (z & Hz & Hall). exists z.
  rewrite (same_but_x_y_at t2 t1) by done. split; [done|]. intros i u Hu.
  rewrite (same_but_x_y_at t2 t1) by done.
  rewrite (same_but_offset _ (set_x_nInputs Undefined) (set_x_inputHeights Undefined) t2 t1)
    by done.
  by apply Hall.
Qed.

Lemma heights_set_has_heights tb tiles w : heights_set tb tiles w → has_heights tiles w.
Proof.
  intros (t & Ht & Hh). exists t. split; [done|]. rewrite Hh.
  case_decide as Hn; [rewrite Hn; cbn; lia|]. by rewrite length_fmap, length_seq.
Qed.

(** What [relayoutGraph] leaves behind, in one statement. *)
Lemma relayoutGraph_spec scale tiles es tb fuel :
  relayout_tables tiles es = Done tb → (length tiles ≤ fuel)%nat →
  ∃ laid m,
    relayoutGraph scale fuel tiles es = Some (Done laid) ∧
    fits tb (laid_tiles laid) ∧
    laid_width laid = Num m ∧ 0 ≤ m ∧
    laid_height laid
      = Num (total (height_at (laid_tiles laid) <$> roots tiles tb)) ∧
    (∀ pre r post, roots tiles tb = pre ++ r :: post →
       y_at (laid_tiles laid) r = Num (total (height_at (laid_tiles laid) <$> pre))) ∧
    (∀ r, r ∈ roots tiles tb → x_at (laid_tiles laid) r = Num (m - 110)) ∧
    (∀ w z, x_at (laid_tiles laid) w = Num z → 0 ≤ z) ∧
    (∀ w, leads_to_root tb w →
       heights_set tb (laid_tiles laid) w ∧ y_placed tb (laid_tiles laid) w ∧
       x_placed tb (laid_tiles laid) w).
Proof.
  intros Hrun Hfuel. unfold relayoutGraph. rewrite Hrun. cbn [and_then].
  destruct (relayout_tables_linked _ _ _ Hrun) as [Hlinked Hfit].
  set (rs := roots tiles tb).
  assert (NoDup rs) as Hnd.
  { unfold rs, roots. apply NoDup_filter, NoDup_fmap; [apply _ | apply NoDup_seq]. }
  assert (∀ r, r ∈ rs → downVertex tb r = Some None) as Hroots.
  { intros r Hr. by eapply roots_spec. }
  assert (length (downstreamTileVertex tb) ≤ fuel)%nat as Hfuel'
    by (by rewrite (fits_length _ _ Hfit)).
  destruct (for_roots_fwd tb Hlinked fuel rs tiles)
    as (tiles2 & -> & Hfit2 & _ & Hset2); [done..|]. cbn [and_then].
  rewrite for_roots_rev_id; cbn [and_then].
  2:{ intros r Hr. split; [|by apply Hroots].
      apply (fits_tile tb); [done|]. rewrite Hroots by done. eauto. }
  destruct (y_roots_spec tb Hlinked fuel rs tiles2 0)
    as (tiles4 & -> & Hsame4 & _ & Hy4 & Hplaced4); [done..| |].
  { intros r w Hr Hw. eapply heights_set_has_heights. by eapply Hset2. }
  cbn [and_then].
  pose proof (same_but_fits _ (set_y_nInputs Undefined) _ _ _ Hsame4 Hfit2) as Hfit4.
  destruct (x_roots_spec tb Hlinked fuel rs tiles4)
    as (tiles5 & -> & Hsame5 & _ & Hx5 & Hplaced5); [done..|]. cbn [and_then].
  destruct (smallestX_spec tiles5) as (sm & -> & Hsm0 & Hsm).
  set (T := offset_x (Num sm) tiles5).
  assert (same_but (set_x Undefined) T tiles4) as HsameT.
  { eapply same_but_trans; [apply same_but_offset_x | done]. }
  assert (∀ w, height_at T w = height_at tiles2 w) as Hheight.
  { intros w.
    rewrite (same_but_height _ (set_x_nInputs Undefined) (set_x_inputHeights Undefined)
               T tiles4) by done.
    by apply (same_but_height _ (set_y_nInputs Undefined) (set_y_inputHeights Undefined)). }
  assert (∀ l : list Z, height_at T <$> l = height_at tiles2 <$> l) as Hheights.
  { intros l. apply list_fmap_ext. intros _ w _. apply Hheight. }
  eexists _, (- sm). split; [done|]. cbn [laid_tiles laid_width laid_height js_neg]. fold T.
  split; [by apply (same_but_fits _ (set_x_nInputs Undefined) _ _ _ HsameT)|].
  split; [done|]. split; [lia|].
  split; [by rewrite Hheights|]. split; [|split; [|split]].
  - intros pre r post Heq. rewrite (same_but_x_y_at T tiles4) by done.
    by rewrite Hheights, (Hy4 pre r post Heq).
  - intros r Hr. subst T. rewrite (x_at_offset_x sm tiles5 r (-110)) by (by apply Hx5).
    f_equal. lia.
  - subst T. intros w z Hz%x_at_offset_x_inv. apply Hsm in Hz. lia.
  - intros w (r & Hr & Hw)%(leads_to_root_above tiles); [|done]. split; [|split].
    + apply (same_but_heights_set _ (set_x_nInputs Undefined) (set_x_inputHeights Undefined)
               _ _ tiles4); [done|].
      apply (same_but_heights_set _ (set_y_nInputs Undefined) (set_y_inputHeights Undefined)
               _ _ tiles2); [done|].
      by eapply Hset2.
    + apply (y_placed_same_x _ tiles4); [done|]. by eapply Hplaced4.
    + destruct (Hplaced5 r w Hr Hw) as (z & Hz & Hall). exists (z - sm). subst T.
      split; [by apply x_at_offset_x|]. intros i u Hu.
      rewrite (x_at_offset_x sm tiles5 u (z - 110)) by (by eapply Hall).
      f_equal. lia.
Qed.

Lemma foldl_add_nonneg (l : list Z) : (∀ x, x ∈ l → 0 ≤ x) → 0 ≤ foldl Z.add 0 l.
Proof.
  induction l as [|x l IH]; intros Hpos; cbn [foldl]; [done|].
  rewrite foldl_add_shift.
  assert (0 ≤ x) by (apply Hpos; left).
  assert (0 ≤ foldl Z.add 0 l); [|lia]. apply IH. intros y Hy. apply Hpos. by right.
Qed.

Lemma foldl_add_take_le (l : list Z) k :
  (∀ x, x ∈ l → 0 ≤ x) → foldl Z.add 0 (take k l) ≤ foldl Z.add 0 l.
Proof.
  intros Hpos. rewrite <-(take_drop k l) at 2.
  rewrite foldl_app, (foldl_add_shift (drop k l)).
  assert (0 ≤ foldl Z.add 0 (drop k l)); [|lia].
  apply foldl_add_nonneg. intros x Hx. apply Hpos. by apply (subseteq_drop k l).
Qed.

(** X29.  When the loop over the tile edges accepts them, [relayoutGraph]
    returns without throwing (the nesting of calls going as deep as there
    are tiles) and has laid the tiles out vertically: the roots are stacked,
    each beginning where the heights of the roots before it end, and the
    graph is as high as all roots together; along every edge whose
    destination leads to a root, the tile that feeds an input has its top
    where that input begins (at the destination's top plus the heights of
    the inputs before it), and ends no lower than that input ends, which is
    within the destination tile. *)
Theorem X29_vertical_layout scale tiles es tb fuel :
  relayout_tables tiles es = Done tb → (length tiles ≤ fuel)%nat →
  ∃ laid,
    relayoutGraph scale fuel tiles es = Some (Done laid) ∧
    laid_height laid = Num (total (height_at (laid_tiles laid) <$> roots tiles tb)) ∧
    (∀ pre r post, roots tiles tb = pre ++ r :: post →
       y_at (laid_tiles laid) r = Num (total (height_at (laid_tiles laid) <$> pre))) ∧
    (∀ e, e ∈ es → leads_to_root tb (toVertex e) →
       ∃ y, y_at (laid_tiles laid) (toVertex e) = Num y ∧
            y_at (laid_tiles laid) (fromVertex e)
              = Num (y + offset_at (laid_tiles laid) (toVertex e) (Z.to_nat (toInput e))) ∧
            offset_at (laid_tiles laid) (toVertex e) (Z.to_nat (toInput e))
              + height_at (laid_tiles laid) (fromVertex e)
              ≤ offset_at (laid_tiles laid) (toVertex e) (S (Z.to_nat (toInput e)))
              ≤ height_at (laid_tiles laid) (toVertex e)).
Proof.
  intros Hrun Hfuel.
  destruct (relayoutGraph_spec scale _ _ _ _ Hrun Hfuel)
    as (laid & m & Hres & Hfit & _ & _ & Hheight & Hroots & _ & _ & Hall).
  exists laid. split; [done|]. split; [done|]. split; [done|].
  intros e He Hroot. destruct (Hall _ Hroot) as (Hset & (y & Hy & Hup) & _).
  unfold relayout_tables in Hrun.
  destruct (tableEdges_effect _ _ _ (tables_init_wf tiles) Hrun)
    as (_ & _ & _ & Hrec & _).
  destruct (Hrec e He) as (_ & _ & Hu).
  exists y. split; [done|]. split; [by apply Hup|].
  pose proof Hset as (t & Ht & Hh).
  pose proof (upSlot_range _ _ _ _ _ _ Hfit Ht Hu) as Hi.
  destruct (heights_set_entries _ _ _ _ Ht Hset) as [_ Hge].
  assert (inputHeights t !! Z.to_nat (toInput e)
          = Some (Z.max 180 (height_at (laid_tiles laid) (fromVertex e)))) as Hentry.
  { rewrite Hh, decide_False by lia. rewrite list_lookup_fmap, lookup_seq_lt by lia.
    cbn [fmap option_fmap option_map Nat.add]. unfold input_height.
    rewrite Z2Nat.id by lia. by rewrite Hu. }
  unfold offset_at, height_at at 2. rewrite Ht. cbn [from_option].
  rewrite (input_offset_S _ _ _ Hentry). split; [lia|].
  rewrite <-(input_offset_S _ _ _ Hentry). unfold input_offset, height.
  apply foldl_add_take_le. intros x Hx%Hge. lia.
Qed.

Lemma X29_vertical_layout_witness :
  ∃ laid,
    relayoutGraph (λ _ _ tile, tile) 7 demo_tiles demo_tile_edges = Some (Done laid) ∧
    laid_height laid = Num 360 ∧
    y_at (laid_tiles laid) <$> [0; 1; 2; 3; 4; 5]
      = [Num 0; Num 0; Num 180; Num 0; Num 0; Undefined].
Proof.
  let s := eval vm_compute in (relayout_tables demo_tiles demo_tile_edges) in
  match s with Done ?x => pose (tb := x) end.
  destruct (X29_vertical_layout (λ _ _ tile, tile) demo_tiles demo_tile_edges tb 7)
    as (laid & Hres & _); [reflexivity | cbn; lia |].
  exists laid. split; [exact Hres|].
  revert Hres. vm_compute. by intros [= <-].
Defined.

(** X30.  Under the same conditions [relayoutGraph] has laid the tiles out
    horizontally: along every edge whose destination leads to a root, the
    tile that feeds it is exactly one tile width, 110, to the left of the
    destination; every root is at the graph's width less 110; and no tile
    is left with a negative [x]. *)
Theorem X30_horizontal_layout scale tiles es tb fuel :
  relayout_tables tiles es = Done tb → (length tiles ≤ fuel)%nat →
  ∃ laid m,
    relayoutGraph scale fuel tiles es = Some (Done laid) ∧
    laid_width laid = Num m ∧ 0 ≤ m ∧
    (∀ r, r ∈ roots tiles tb → x_at (laid_tiles laid) r = Num (m - 110)) ∧
    (∀ e, e ∈ es → leads_to_root tb (toVertex e) →
       ∃ x, x_at (laid_tiles laid) (toVertex e) = Num x ∧
            x_at (laid_tiles laid) (fromVertex e) = Num (x - 110)) ∧
    (∀ w z, x_at (laid_tiles laid) w = Num z → 0 ≤ z).
Proof.
  intros Hrun Hfuel.
  destruct (relayoutGraph_spec scale _ _ _ _ Hrun Hfuel)
    as (laid & m & Hres & Hfit & Hw & Hm & _ & _ & Hroots & Hpos & Hall).
  exists laid, m. split_and!; try done.
  intros e He Hroot. destruct (Hall _ Hroot) as (_ & _ & (x & Hx & Hup)).
  unfold relayout_tables in Hrun.
  destruct (tableEdges_effect _ _ _ (tables_init_wf tiles) Hrun)
    as (_ & _ & _ & Hrec & _).
  destruct (Hrec e He) as (_ & _ & Hu).
  exists x. split; [done|]. by eapply Hup.
Qed.

Lemma X30_horizontal_layout_witness :
  ∃ laid,
    relayoutGraph (λ _ _ tile, tile) 7 demo_tiles demo_tile_edges = Some (Done laid) ∧
    laid_width laid = Num 440 ∧
    x_at (laid_tiles laid) <$> [0; 1; 2; 3; 4; 5]
      = [Num 0; Num 110; Num 110; Num 220; Num 330; NotANumber].
Proof.
  let s := eval vm_compute in (relayout_tables demo_tiles demo_tile_edges) in
  match s with Done ?x => pose (tb := x) end.
  destruct (X30_horizontal_layout (λ _ _ tile, tile) demo_tiles demo_tile_edges tb 7)
    as (laid & m & Hres & _); [reflexivity | cbn; lia |].
  exists laid. split; [exact Hres|].
  revert Hres. vm_compute. by intros [= <-].
Defined.

End LayoutFacts.

(* ===================================================================== *)
(** ** Facts about Flickable *)
(* ===================================================================== *)

Section FlickableFacts.
Import Flickable.
Context {number : Type} `{!JsNumber number}.
Implicit Types (s : State number) (dom : Layout number) (ev : Event number).
Implicit Types (ts : list (Touch number)).

Lemma flags_drag dom x y s :
  flags_consistent s → flags_consistent (drag dom x y s).
Proof. done. Qed.

Ltac flags s :=
  destruct s as [? ? [[|]|] [[|]|] [[|]|] ? ? ? ? ? ?];
  unfold flags_consistent, truthy in *; cbn in *.

Lemma flags_touchStart ts s :
  flags_consistent s → flags_consistent (touchStart ts s).1.
Proof.
  revert s. induction ts as [|t ts IH]; intros s Hs; cbn [touchStart]; [done|].
  destruct (touch_on_surface t); cbn [negb]; [|by apply IH].
  destruct (truthy (dragging s)) eqn:Hd; cbn [negb]; [by apply IH|].
  match goal with |- context [touchStart ts ?s1] =>
    specialize (IH s1); destruct (touchStart ts s1) as [s2 ?] end.
  apply IH. revert Hs Hd. flags s; intros (? & ? & ?) ?; try done; eauto.
Qed.

Lemma flags_touchEnd ts s :
  flags_consistent s → flags_consistent (touchEnd ts s).1.
Proof.
  revert s. induction ts as [|t ts IH]; intros s Hs; cbn [touchEnd]; [done|].
  destruct (_ && _) eqn:Hc; [|by apply IH].
  apply IH. revert Hs Hc. flags s; intros (? & ? & ?) ?; try done; eauto.
Qed.

Lemma flags_touchMove dom ts s :
  flags_consistent s → flags_consistent (touchMove dom ts s).1.
Proof.
  revert s. induction ts as [|t ts IH]; intros s Hs; cbn [touchMove]; [done|].
  destruct (_ && _); apply IH; [by apply flags_drag | done].
Qed.

Lemma flags_handle dom ev s :
  flags_consistent s → flags_consistent (handle dom ev s).1.
Proof.
  intros Hs. destruct ev as [on buttons x y|buttons|x y|ts|ts|ts|]; cbn [handle].
  - unfold mouseDown. destruct on; cbn [negb]; [|done].
    destruct (_ && _) eqn:Hc; [|done]. revert Hs Hc.
    flags s; intros (? & ? & ?) ?; try done; eauto.
  - unfold mouseUp. destruct (_ && _) eqn:Hc; [|done]. revert Hs Hc.
    flags s; intros (? & ? & ?) ?; try done; eauto.
  - unfold mouseMove. by destruct (_ && _).
  - by apply flags_touchStart.
  - by apply flags_touchEnd.
  - by apply flags_touchMove.
  - done.
Qed.

Lemma run_app evs1 evs2 s : run (evs1 ++ evs2) s = run evs2 (run evs1 s).
Proof.
  revert s. induction evs1 as [|[dom ev] evs1 IH]; intros s; cbn [run app]; [done|].
  apply IH.
Qed.

Lemma flags_run evs s : flags_consistent s → flags_consistent (run evs s).
Proof.
  revert s. induction evs as [|[dom ev] evs IH]; intros s Hs; cbn [run]; [done|].
  by apply IH, flags_handle.
Qed.

Lemma flags_connected : flags_consistent (connected (number := number)).
Proof. by split_and!. Qed.

(** X26.  Whatever events reach the element after it is connected, a drag
    is in progress exactly when the mouse or a touch is dragging, never
    both at once, and while a touch drags the identifier of that touch is
    on record. *)
Theorem X26_drag_flags_consistent (evs : list (Layout number * Event number)) :
  flags_consistent (run evs connected).
Proof. apply flags_run, flags_connected. Qed.

Lemma touchStart_dragging ts s :
  truthy (dragging s) = true → touchStart ts s = (s, false).
Proof.
  intros Hd. induction ts as [|t ts IH]; cbn [touchStart]; [done|].
  destruct (touch_on_surface t); cbn [negb]; [|done]. by rewrite Hd.
Qed.

Lemma touchEnd_ignored ts s :
  (truthy (dragging s) && truthy (touchDrag s) = false ∨
   Forall (λ t, touchId s ≠ Some (identifier t)) ts) →
  touchEnd ts s = (s, false).
Proof.
  intros Hc. induction ts as [|t ts IH]; cbn [touchEnd]; [done|].
  rewrite IH.
  - destruct Hc as [->|Hall]; [done|]. apply Forall_cons in Hall as [Hne _].
    unfold same_touch. rewrite bool_decide_eq_false_2 by done.
    by rewrite andb_false_r.
  - destruct Hc as [?|Hall]; [by left|]. right. by apply Forall_cons in Hall as [_ ?].
Qed.

Lemma touchMove_ignored dom ts s :
  (truthy (dragging s) && truthy (touchDrag s) = false ∨
   Forall (λ t, touchId s ≠ Some (identifier t)) ts) →
  touchMove dom ts s = (s, false).
Proof.
  intros Hc. induction ts as [|t ts IH]; cbn [touchMove]; [done|].
  rewrite IH.
  - destruct Hc as [->|Hall]; [done|]. apply Forall_cons in Hall as [Hne _].
    unfold same_touch. rewrite bool_decide_eq_false_2 by done.
    by rewrite andb_false_r.
  - destruct Hc as [?|Hall]; [by left|]. right. by apply Forall_cons in Hall as [_ ?].
Qed.

(** X27.  A drag belongs to what began it.  In any state the element can
    reach: while the mouse drags, no touch event changes anything; while a
    touch drags, no mouse event changes anything, nor does a touch event
    none of whose touches has the identifier of the touch that began the
    drag.  None of these calls [preventDefault]. *)
Theorem X27_drag_ignores_the_other_pointer evs dom ev :
  let s := run evs connected in
  (truthy (mouseDrag s) = true ∧ is_touch_event ev) ∨
  (truthy (touchDrag s) = true ∧
     (is_mouse_event ev ∨
      (is_touch_event ev ∧
       Forall (λ t, touchId s ≠ Some (identifier t)) (touches_of ev)))) →
  handle dom ev s = (s, false).
Proof.
  intros s. pose proof (flags_run evs _ flags_connected) as Hs. fold s in Hs.
  clearbody s. intros [[Hm Hev]|[Ht Hev]].
  - assert (truthy (dragging s) = true ∧ truthy (touchDrag s) = false) as [Hd Htd].
    { revert Hs Hm. flags s; by intros (? & ? & ?) ?. }
    destruct ev as [on buttons x y|buttons|x y|ts|ts|ts|]; try done; cbn [handle].
    + by apply touchStart_dragging.
    + apply touchEnd_ignored. left. by rewrite Htd, andb_false_r.
    + apply touchMove_ignored. left. by rewrite Htd, andb_false_r.
  - assert (truthy (dragging s) = true ∧ truthy (mouseDrag s) = false) as [Hd Hmd].
    { revert Hs Ht. flags s; by intros (? & ? & ?) ?. }
    destruct ev as [on buttons x y|buttons|x y|ts|ts|ts|]; cbn [handle];
      destruct Hev as [Hev|[Hev Hall]]; try done; cbn [touches_of] in *.
    + unfold mouseDown. rewrite Hd. by destruct on.
    + unfold mouseUp. by rewrite Hmd, andb_false_r.
    + unfold mouseMove. by rewrite Hmd, andb_false_r.
    + by apply touchStart_dragging.
    + apply touchEnd_ignored. by right.
    + apply touchMove_ignored. by right.
Qed.

(** X28.  Whatever events reach the element after it is connected, the
    translation it shows is that of its current offsets, once it shows
    one: no handler moves the offsets without writing the transform, and
    until the first write the offsets are still those set on connection. *)
Theorem X28_transform_follows_the_offsets (evs : list (Layout number * Event number)) :
  let s := run evs connected in
  transform s = Some (offsetX s, offsetY s) ∨
  (transform s = None ∧ offsetX s = num_zero ∧ offsetY s = num_zero).
Proof.
  cbv zeta.
  assert (∀ s, (transform s = Some (offsetX s, offsetY s) ∨
                (transform s = None ∧ offsetX s = num_zero ∧ offsetY s = num_zero)) →
               ∀ dom ev, let s' := (handle dom ev s).1 in
                 transform s' = Some (offsetX s', offsetY s') ∨
                 (transform s' = None ∧ offsetX s' = num_zero ∧ offsetY s' = num_zero))
    as Hstep.
  { intros s Hs dom ev.
    destruct ev as [on buttons x y|buttons|x y|ts|ts|ts|]; cbn [handle].
    - unfold mouseDown. destruct on; cbn [negb]; [|done]. by destruct (_ && _).
    - unfold mouseUp. by destruct (_ && _).
    - unfold mouseMove. destruct (_ && _); [by left | done].
    - revert s Hs. induction ts as [|t ts IH]; intros s Hs; cbn [touchStart]; [done|].
      destruct (touch_on_surface t); cbn [negb]; [|by apply IH].
      destruct (truthy (dragging s)); cbn [negb]; [by apply IH|].
      match goal with |- context [touchStart ts ?s1] =>
        specialize (IH s1); destruct (touchStart ts s1) as [s2 ?] end.
      by apply IH.
    - revert s Hs. induction ts as [|t ts IH]; intros s Hs; cbn [touchEnd]; [done|].
      destruct (_ && _); by apply IH.
    - revert s Hs. induction ts as [|t ts IH]; intros s Hs; cbn [touchMove]; [done|].
      destruct (_ && _); apply IH; [by left | done].
    - by left. }
  assert (∀ s, (transform s = Some (offsetX s, offsetY s) ∨
                (transform s = None ∧ offsetX s = num_zero ∧ offsetY s = num_zero)) →
               let s' := run evs s in
                 transform s' = Some (offsetX s', offsetY s') ∨
                 (transform s' = None ∧ offsetX s' = num_zero ∧ offsetY s' = num_zero))
    as Hrun.
  { induction evs as [|[dom ev] evs IH]; intros s Hs; cbn [run]; [done|].
    apply IH. by apply Hstep. }
  apply Hrun. by right.
Qed.

End FlickableFacts.

Section FlickableExamples.
Import Flickable.

Lemma X27_drag_ignores_witness :
  let s := run [(Q_layout, mousedown true 1 100%Q 100%Q)] connected in
  truthy (mouseDrag s) = true ∧
  handle Q_layout
    (touchstart [ {| identifier := 7; touch_on_surface := true;
                     touch_pageX := 5%Q; touch_pageY := 5%Q |} ]) s = (s, false).
Proof.
  split; [reflexivity|].
  apply (X27_drag_ignores_the_other_pointer
           [(Q_layout, mousedown true 1 100%Q 100%Q)] Q_layout
           (touchstart [ {| identifier := 7; touch_on_surface := true;
                            touch_pageX := 5%Q; touch_pageY := 5%Q |} ])).
  left. split; [reflexivity | exact I].
Defined.

End FlickableExamples.
